(** * Rodin: durable recording queue, voice commands, text dictionaries and
  usage history.

  A shallow embedding of the Python sources
    - [src/rodin/audio_queue.py]          (module [AudioQueue])
    - [src/whisper_flow/voice_commands.py] (module [VoiceCommandProcessor])
    - [src/whisper_flow/snippets.py]       (module [SnippetExpander])
    - [src/whisper_flow/dictionary.py]     (module [PersonalDictionary])
    - [src/rodin/stats.py]                 (module [TranscriptionDB])
  together with the fragments of the Python standard library they rely on
  ([str] methods, [datetime] formatting, the [re] engine).

  Conventions.  A Python [str] is a [string] whose characters are read as
  the code points 0..255.  A Python [int] that counts things is a [nat];
  calendar fields are [Z].  The storage directory is a pair of finite maps
  keyed by file stem.  Clock readings, callbacks and the stop signal are
  explicit arguments. *)

From Stdlib Require Import ZArith NArith Ascii String List Bool Lia.
From Stdlib Require QArith.
From Stdlib Require Floats.SpecFloat.
From stdpp Require Import base option list gmap strings sorting.

Local Open Scope string_scope.

(* ===================================================================== *)
(** * Python [str] primitives                                            *)
(* ===================================================================== *)

Module Py.

Definition code (c : ascii) : N := N_of_ascii c.

Definition between (lo hi : N) (c : ascii) : bool :=
  ((lo <=? code c) && (code c <=? hi))%N.

(** [str.isspace] on one code point below 256: TAB..CR, FS..US, SPACE,
    NEL and NBSP.  The same set is the class [\s] of [re] on [str]
    patterns and the set removed by [str.strip()]. *)
Definition isspace (c : ascii) : bool :=
  between 9 13 c || between 28 32 c || (code c =? 133)%N || (code c =? 160)%N.

(** The class [\d] of [re]: decimal digits (category Nd). *)
Definition isdecimal (c : ascii) : bool := between 48 57 c.

(** The class [\w] of [re] on [str] patterns: [str.isalnum] or ["_"]. *)
Definition isword (c : ascii) : bool :=
  between 48 57 c || between 65 90 c || between 97 122 c || (code c =? 95)%N
  || (code c =? 170)%N || between 178 179 c || (code c =? 181)%N
  || between 185 186 c || between 188 190 c
  || between 192 214 c || between 216 246 c || between 248 255 c.

(** Simple lower-casing of one code point below 256. *)
Definition lower_char (c : ascii) : ascii :=
  if between 65 90 c || between 192 214 c || between 216 222 c
  then ascii_of_N (code c + 32) else c.

(** [str.lower] *)
Fixpoint lower (s : string) : string :=
  match s with
  | EmptyString => EmptyString
  | String c s' => String (lower_char c) (lower s')
  end.

(** [str.lstrip(chars)], [str.rstrip(chars)], [str.strip(chars)] for a
    set of characters given as a predicate. *)
Fixpoint lstrip_by (p : ascii -> bool) (s : string) : string :=
  match s with
  | EmptyString => EmptyString
  | String c s' => if p c then lstrip_by p s' else s
  end.

Definition rstrip_by (p : ascii -> bool) (s : string) : string :=
  String.rev (lstrip_by p (String.rev s)).

Definition strip_by (p : ascii -> bool) (s : string) : string :=
  rstrip_by p (lstrip_by p s).

(** [str.strip()] *)
Definition strip (s : string) : string := strip_by isspace s.

Fixpoint mem_char (c : ascii) (chars : string) : bool :=
  match chars with
  | EmptyString => false
  | String d chars' => if Ascii.eqb c d then true else mem_char c chars'
  end.

(** [str.strip(chars)] *)
Definition strip_chars (chars : string) (s : string) : string :=
  strip_by (fun c => mem_char c chars) s.

(** [str.split()]: the maximal runs of non-whitespace characters.
    [cur] is the run being read, in reverse. *)
Fixpoint split_go (cur : string) (s : string) : list string :=
  match s with
  | EmptyString =>
      match cur with EmptyString => [] | _ => [String.rev cur] end
  | String c s' =>
      if isspace c
      then match cur with
           | EmptyString => split_go EmptyString s'
           | _ => String.rev cur :: split_go EmptyString s'
           end
      else split_go (String c cur) s'
  end.

Definition split (s : string) : list string := split_go EmptyString s.

(** [len(s)] *)
Definition len (s : string) : nat := String.length s.

(** [int(s)] on a run of decimal digits.  A run of more than
    [sys.int_max_str_digits] digits, 4300 unless configured otherwise,
    leading zeros counted, is refused with a ValueError: the [None]
    here. *)
Fixpoint int_go (acc : N) (s : string) : N :=
  match s with
  | EmptyString => acc
  | String c s' => int_go (acc * 10 + (code c - 48))%N s'
  end.

Definition int_max_str_digits : nat := 4300.

Definition int (s : string) : option N :=
  if (int_max_str_digits <? len s)%nat then None else Some (int_go 0 s).

(** [a or b] for an optional string: [None] and the empty string are
    falsy. *)
Definition or_else (a : option string) (b : string) : string :=
  match a with
  | Some (String c s) => String c s
  | _ => b
  end.

End Py.

(* ===================================================================== *)
(** * [datetime]: naive calendar time with microsecond resolution        *)
(* ===================================================================== *)

Module Datetime.

Local Open Scope Z_scope.

Record datetime := mk_datetime {
  year : Z; month : Z; day : Z;
  hour : Z; minute : Z; second : Z; microsecond : Z }.

Definition is_leap (y : Z) : bool :=
  (y mod 4 =? 0) && (negb (y mod 100 =? 0) || (y mod 400 =? 0)).

Definition days_in_month (y m : Z) : Z :=
  if m =? 2 then (if is_leap y then 29 else 28)
  else if (m =? 4) || (m =? 6) || (m =? 9) || (m =? 11) then 30 else 31.

(** The values a [datetime] object can hold (MINYEAR = 1, MAXYEAR = 9999). *)
Definition validb (t : datetime) : bool :=
  (1 <=? year t) && (year t <=? 9999) &&
  (1 <=? month t) && (month t <=? 12) &&
  (1 <=? day t) && (day t <=? days_in_month (year t) (month t)) &&
  (0 <=? hour t) && (hour t <? 24) &&
  (0 <=? minute t) && (minute t <? 60) &&
  (0 <=? second t) && (second t <? 60) &&
  (0 <=? microsecond t) && (microsecond t <? 1000000).

Definition valid (t : datetime) : Prop := validb t = true.

(** Comparison of naive datetimes: lexicographic on the fields. *)
Definition lex (c1 c2 : comparison) : comparison :=
  match c1 with Eq => c2 | _ => c1 end.

Definition compare (a b : datetime) : comparison :=
  lex (year a ?= year b) (lex (month a ?= month b) (lex (day a ?= day b)
  (lex (hour a ?= hour b) (lex (minute a ?= minute b)
  (lex (second a ?= second b) (microsecond a ?= microsecond b)))))).

Definition lt (a b : datetime) : Prop := compare a b = Lt.
Definition le (a b : datetime) : Prop := compare a b <> Gt.

(** Zero-padded decimal of width [w], most significant digit first. *)
Definition digit (n : Z) : ascii := ascii_of_N (48 + Z.to_N n).

Fixpoint zpad (w : nat) (n : Z) : string :=
  match w with
  | O => EmptyString
  | S w' => String (digit (n / 10 ^ Z.of_nat w'))
                   (zpad w' (n mod 10 ^ Z.of_nat w'))
  end.

(** [t.strftime("%Y%m%d_%H%M%S_%f")] *)
Definition strftime_id (t : datetime) : string :=
  zpad 4 (year t) +:+ zpad 2 (month t) +:+ zpad 2 (day t) +:+ "_" +:+
  zpad 2 (hour t) +:+ zpad 2 (minute t) +:+ zpad 2 (second t) +:+ "_" +:+
  zpad 6 (microsecond t).

(** [t.isoformat()]: the fraction is omitted when it is zero. *)
Definition isoformat (t : datetime) : string :=
  zpad 4 (year t) +:+ "-" +:+ zpad 2 (month t) +:+ "-" +:+ zpad 2 (day t) +:+
  "T" +:+ zpad 2 (hour t) +:+ ":" +:+ zpad 2 (minute t) +:+ ":" +:+
  zpad 2 (second t) +:+
  (if microsecond t =? 0 then EmptyString
   else "." +:+ zpad 6 (microsecond t)).

(** [t.replace(hour=0, minute=0, second=0, microsecond=0)] *)
Definition midnight (t : datetime) : datetime :=
  {| year := year t; month := month t; day := day t;
     hour := 0; minute := 0; second := 0; microsecond := 0 |}.

(** [t + timedelta(days=1)]; [None] is the OverflowError past
    9999-12-31. *)
Definition add_one_day (t : datetime) : option datetime :=
  let with_date y m d :=
    {| year := y; month := m; day := d; hour := hour t;
       minute := minute t; second := second t;
       microsecond := microsecond t |} in
  if day t <? days_in_month (year t) (month t)
  then Some (with_date (year t) (month t) (day t + 1))
  else if month t <? 12 then Some (with_date (year t) (month t + 1) 1)
  else if year t <? 9999 then Some (with_date (year t + 1) 1 1)
  else None.

End Datetime.

(* ===================================================================== *)
(** * [float]                                                            *)
(* ===================================================================== *)

Module Float.

(** Python's [float] is the IEEE 754 binary64 format; its values and
    operations are those the Standard Library specifies, rounding to
    nearest, ties to even. *)
Definition float : Type := SpecFloat.spec_float.

Definition prec : Z := 53.
Definition emax : Z := 1024.

(** The float nearest to [m * 2 ^ e]. *)
Definition nearest (m e : Z) : float :=
  SpecFloat.binary_normalize prec emax m e false.

(** An [int] operand of a float operation is converted first; the
    conversion raises an OverflowError, the [None] here, when the
    integer is beyond the largest float. *)
Definition of_int (n : Z) : option float :=
  match nearest n 0 with
  | SpecFloat.S754_infinity _ => None
  | x => Some x
  end.

(** [x - y] and [x < y] *)
Definition sub (x y : float) : float := SpecFloat.SFsub prec emax x y.
Definition ltb (x y : float) : bool := SpecFloat.SFltb x y.

End Float.

(* ===================================================================== *)
(** * [audio_queue.py]: the durable recording queue                      *)
(* ===================================================================== *)

Module AudioQueue.

Import Datetime.

(** The JSON document written next to each audio payload. *)
Record metadata := mk_metadata {
  md_timestamp : datetime;
  md_app_bundle_id : option string;
  md_app_name : option string;
  md_preset : option string }.

(** What [PendingRecording.from_metadata_file] does with the content of a
    [.json] file: it returns the metadata the file encodes, or it raises
    (invalid JSON, no ["timestamp"] key, a timestamp that does not parse).
    [json.dump] followed by [json.load] is taken to give back the
    document. *)
Inductive json_content :=
| Loadable (m : metadata)
| Unloadable.

Record json_file := mk_json_file {
  content : json_content;
  st_mtime : Float.float   (* modification time, seconds since the epoch *) }.

(** The storage directory [queue_dir]: the files [<stem>.wav] and
    [<stem>.json], each keyed by its stem.  File-system calls are taken
    to succeed. *)
Record directory := mk_directory {
  wavs : gmap string (list Byte.byte);
  jsons : gmap string json_file }.

Definition empty_directory : directory :=
  {| wavs := ∅; jsons := ∅ |}.

(** [PendingRecording].  Both constructors of the class in the program
    ([save_recording] and [from_metadata_file]) set the two paths to
    [<id>.wav] and [<id>.json] in [queue_dir], so they are functions of
    [id] here. *)
Record PendingRecording := mk_recording {
  id : string;
  timestamp : datetime;
  app_bundle_id : option string;
  app_name : option string;
  preset : option string }.

Definition audio_path (r : PendingRecording) : string := id r +:+ ".wav".
Definition metadata_path (r : PendingRecording) : string := id r +:+ ".json".

(** [PendingRecording.from_metadata_file] on a loadable document. *)
Definition from_metadata (stem : string) (m : metadata) : PendingRecording :=
  {| id := stem;
     timestamp := md_timestamp m;
     app_bundle_id := md_app_bundle_id m;
     app_name := md_app_name m;
     preset := md_preset m |}.

(** The queue object: the directory it was constructed over and its
    single-flight flag [_is_processing]. *)
Record queue := mk_queue {
  queue_dir : directory;
  is_processing : bool }.

(** [AudioQueue(queue_dir)]: a fresh object over an existing directory. *)
Definition new (d : directory) : queue :=
  {| queue_dir := d; is_processing := false |}.

(** [save_recording].  [now] is the reading of [datetime.now()] and
    [mtime] the time the file system stamps on the metadata file. *)
Definition save_recording (d : directory) (now : datetime)
    (mtime : Float.float)
    (audio_data : list Byte.byte)
    (bundle name pres : option string) : PendingRecording * directory :=
  let recording_id := strftime_id now in
  (* write the audio file first *)
  let d1 := {| wavs := <[recording_id := audio_data]> (wavs d);
               jsons := jsons d |} in
  (* then the metadata *)
  let meta := {| md_timestamp := now; md_app_bundle_id := bundle;
                 md_app_name := name; md_preset := pres |} in
  let d2 := {| wavs := wavs d1;
               jsons := <[recording_id :=
                           {| content := Loadable meta; st_mtime := mtime |}]>
                        (jsons d1) |} in
  ({| id := recording_id; timestamp := now; app_bundle_id := bundle;
      app_name := name; preset := pres |}, d2).

(** [Path.unlink(missing_ok=True)] on the two kinds of file. *)
Definition unlink_wav (stem : string) (d : directory) : directory :=
  {| wavs := delete stem (wavs d); jsons := jsons d |}.

Definition unlink_json (stem : string) (d : directory) : directory :=
  {| wavs := wavs d; jsons := delete stem (jsons d) |}.

(** [mark_completed] *)
Definition mark_completed (d : directory) (r : PendingRecording) : directory :=
  unlink_json (id r) (unlink_wav (id r) d).

(** [sorted(queue_dir.glob("*.json"))]: paths in one directory compare
    by file name. *)
Definition path_le (a b : string) : Prop :=
  String.le (a +:+ ".json") (b +:+ ".json").

Global Instance path_le_dec : RelDecision path_le.
Proof. intros a b. unfold path_le. apply _. Defined.

Definition glob_json (d : directory) : list string :=
  elements (dom (jsons d)).

Definition sorted_glob (d : directory) : list string :=
  merge_sort path_le (glob_json d).

(** The result of [get_pending]: the list it returns, the directory it
    leaves, and the stems for which it printed a warning. *)
Record listing := mk_listing {
  recordings : list PendingRecording;
  dir_after : directory;
  warnings : list string }.

(** The loop of [get_pending] over the sorted metadata paths. *)
Fixpoint get_pending_loop (paths : list string) (d : directory) : listing :=
  match paths with
  | [] => {| recordings := []; dir_after := d; warnings := [] |}
  | stem :: rest =>
      match content <$> jsons d !! stem with
      | Some (Loadable m) =>
          if bool_decide (is_Some (wavs d !! stem))
          then (* audio exists: include *)
            let l := get_pending_loop rest d in
            {| recordings := from_metadata stem m :: recordings l;
               dir_after := dir_after l; warnings := warnings l |}
          else (* orphaned metadata: clean up *)
            get_pending_loop rest (unlink_json stem d)
      | _ => (* loading raised: warn and go on *)
          let l := get_pending_loop rest d in
          {| recordings := recordings l; dir_after := dir_after l;
             warnings := stem :: warnings l |}
      end
  end.

Definition get_pending (d : directory) : listing :=
  get_pending_loop (sorted_glob d) d.

(** [get_pending_count] *)
Definition get_pending_count (d : directory) : nat :=
  length (glob_json d).

(** What one call of [process_fn] does: return [True], return [False],
    or raise an [Exception]. *)
Inductive outcome := Success | Failure | Raises.

(** How a call of [process_pending] ends. *)
Inductive completion := Returned (n : nat) | Raised.

Section Sweep.

(** The callbacks are external collaborators with a state [S] of their
    own; they do not touch the storage directory.  [on_progress]
    returns [false] when it raises.  [stop_is_set i] is the value of
    the stop event when it is read before item [i]. *)
Context {S : Type}.
Variable process_fn : PendingRecording -> list Byte.byte -> S -> outcome * S.
Variable on_progress : option (nat -> nat -> S -> bool * S).
Variable stop_is_set : nat -> bool.

Record sweep := mk_sweep {
  result : completion;
  sw_dir : directory;
  sw_state : S;
  calls : list (PendingRecording * outcome);   (* process_fn invocations *)
  progress : list (nat * nat) (* on_progress invocations *) }.

(** One pass of the body of the [for] loop up to [on_progress]. *)
Definition process_item (r : PendingRecording) (d : directory) (s : S)
    : directory * S * nat * list (PendingRecording * outcome) :=
  match wavs d !! id r with
  | None => (* read_bytes raised *) (d, s, 0, [])
  | Some audio_data =>
      match process_fn r audio_data s with
      | (Success, s') => (mark_completed d r, s', 1, [(r, Success)])
      | (o, s') => (d, s', 0, [(r, o)])
      end
  end.

Fixpoint sweep_loop (pending : list PendingRecording) (i total : nat)
    (processed : nat) (d : directory) (s : S) : sweep :=
  match pending with
  | [] => {| result := Returned processed; sw_dir := d; sw_state := s;
             calls := []; progress := [] |}
  | r :: rest =>
      if stop_is_set i
      then {| result := Returned processed; sw_dir := d; sw_state := s;
              calls := []; progress := [] |}
      else
        let '(d1, s1, n, cs) := process_item r d s in
        match on_progress with
        | None =>
            let w := sweep_loop rest (Datatypes.S i) total (processed + n) d1 s1 in
            {| result := result w; sw_dir := sw_dir w;
               sw_state := sw_state w; calls := cs ++ calls w;
               progress := progress w |}
        | Some f =>
            match f (i + 1) total s1 with
            | (true, s2) =>
                let w := sweep_loop rest (Datatypes.S i) total (processed + n) d1 s2 in
                {| result := result w; sw_dir := sw_dir w;
                   sw_state := sw_state w; calls := cs ++ calls w;
                   progress := (i + 1, total) :: progress w |}
            | (false, s2) =>
                {| result := Raised; sw_dir := d1; sw_state := s2;
                   calls := cs; progress := [(i + 1, total)] |}
            end
        end
  end.

(** [process_pending]: the outcome of the sweep and the queue object
    afterwards. *)
Definition process_pending (q : queue) (s : S) : sweep * queue :=
  if is_processing q
  then ({| result := Returned 0; sw_dir := queue_dir q; sw_state := s;
           calls := []; progress := [] |}, q)
  else
    let l := get_pending (queue_dir q) in
    let pending := recordings l in
    let w := sweep_loop pending 0 (length pending) 0 (dir_after l) s in
    (* finally: the flag is cleared *)
    (w, {| queue_dir := sw_dir w; is_processing := false |}).

End Sweep.

(** [cleanup_old].  [now_ts] is the float [datetime.now().timestamp()].
    The cut-off is computed in floats, and the [int] operand is
    converted before the subtraction; a conversion that overflows
    raises outside the [try], so that the call raises: the [None]. *)
Definition cutoff (now_ts : Float.float) (max_age_days : Z)
    : option Float.float :=
  seconds ← Float.of_int (max_age_days * 24 * 60 * 60);
  Some (Float.sub now_ts seconds).

Fixpoint cleanup_loop (paths : list string) (c : Float.float)
    (d : directory) : nat * directory :=
  match paths with
  | [] => (0, d)
  | stem :: rest =>
      match jsons d !! stem with
      | Some f =>
          if Float.ltb (st_mtime f) c
          then let '(n, d') :=
                 cleanup_loop rest c (unlink_wav stem (unlink_json stem d)) in
               (Datatypes.S n, d')
          else cleanup_loop rest c d
      | None => (* stat raised *) cleanup_loop rest c d
      end
  end.

Definition cleanup_old (d : directory) (now_ts : Float.float)
    (max_age_days : Z) : option (nat * directory) :=
  c ← cutoff now_ts max_age_days;
  Some (cleanup_loop (glob_json d) c d).

(** [get_queue_size_bytes]: the sizes of the audio files, added up. *)
Definition get_queue_size_bytes (d : directory) : nat :=
  map_fold (fun _ data total => length data + total) 0 (wavs d).

End AudioQueue.

(* ===================================================================== *)
(** * [re]: the backtracking matcher, for patterns compiled with
    [re.IGNORECASE]                                                    *)
(* ===================================================================== *)

Module Re.

(** The constructs that occur in the patterns of the program. *)
Inductive regex :=
| Lit (c : ascii)          (* a literal character *)
| Space                    (* \s *)
| Digit                    (* \d *)
| Bol                      (* ^ *)
| Eol                      (* $ *)
| WordBoundary             (* \b *)
| Eps                      (* the empty pattern *)
| Seq (r1 r2 : regex)      (* r1 r2 *)
| Alt (r1 r2 : regex)      (* r1|r2 *)
| Opt (r : regex)          (* r? *)
| Plus (r : regex)         (* r+ *)
| Group (r : regex)        (* (r), the capturing group 1 *).

(** A position in the subject: the character before it, the text from
    it on, and what group 1 holds. *)
Record mstate := mk_mstate {
  prev : option ascii;
  rest : string;
  group1 : option string }.

Definition start_of (s : string) : mstate :=
  {| prev := None; rest := s; group1 := None |}.

Definition eat (p : ascii -> bool) {A} (st : mstate)
    (k : mstate -> option A) : option A :=
  match rest st with
  | String c s' =>
      if p c then k {| prev := Some c; rest := s'; group1 := group1 st |}
      else None
  | EmptyString => None
  end.

Definition newline : ascii := ascii_of_N 10.

Definition at_eol (s : string) : bool :=
  match s with
  | EmptyString => true
  | String c EmptyString => Ascii.eqb c newline
  | _ => false
  end.

Definition at_boundary (st : mstate) : bool :=
  let before := match prev st with Some c => Py.isword c | None => false end in
  let after := match rest st with String c _ => Py.isword c | _ => false end in
  xorb before after.

(** Under IGNORECASE two characters match when they lower-case alike. *)
Definition same_letter (c x : ascii) : bool :=
  Ascii.eqb (Py.lower_char x) (Py.lower_char c).

(** [rmatch r st k]: the first way, in the order the engine tries them
    (left alternative first, greedy repetition), to match [r] from [st]
    so that the continuation [k] accepts.  A repetition must consume
    text at every round. *)
Fixpoint rmatch {A} (r : regex) (st : mstate) (k : mstate -> option A)
    {struct r} : option A :=
  match r with
  | Lit c => eat (same_letter c) st k
  | Space => eat Py.isspace st k
  | Digit => eat Py.isdecimal st k
  | Bol => match prev st with None => k st | Some _ => None end
  | Eol => if at_eol (rest st) then k st else None
  | WordBoundary => if at_boundary st then k st else None
  | Eps => k st
  | Seq r1 r2 => rmatch r1 st (fun st1 => rmatch r2 st1 k)
  | Alt r1 r2 =>
      match rmatch r1 st k with
      | Some x => Some x
      | None => rmatch r2 st k
      end
  | Opt r1 =>
      match rmatch r1 st k with
      | Some x => Some x
      | None => k st
      end
  | Plus r1 =>
      rmatch r1 st (fun st1 =>
        (fix more (fuel : nat) (cur : mstate) {struct fuel} : option A :=
           match fuel with
           | O => k cur
           | S fuel' =>
               match rmatch r1 cur (fun nxt =>
                       if (String.length (rest nxt) <? String.length (rest cur))%nat
                       then more fuel' nxt else None) with
               | Some x => Some x
               | None => k cur
               end
           end) (String.length (rest st1)) st1)
  | Group r1 =>
      rmatch r1 st (fun st1 =>
        k {| prev := prev st1; rest := rest st1;
             group1 := Some (substring 0 (String.length (rest st)
                                          - String.length (rest st1))
                                       (rest st)) |})
  end.

(** The number of capturing groups of a pattern. *)
Fixpoint groups (r : regex) : nat :=
  match r with
  | Seq r1 r2 | Alt r1 r2 => groups r1 + groups r2
  | Opt r1 | Plus r1 => groups r1
  | Group r1 => S (groups r1)
  | _ => 0
  end.

(** [pattern.match(s)]: a match anchored at the start of [s]; the state
    returned is the end of the match. *)
Definition match_ (r : regex) (s : string) : option mstate :=
  rmatch r (start_of s) Some.

(** A literal string as a pattern ([re.escape] of it, compiled). *)
Fixpoint lits (s : string) : regex :=
  match s with
  | EmptyString => Eps
  | String c s' => Seq (Lit c) (lits s')
  end.

(** One attempt of the engine at a position inside [pattern.sub]: the
    length of the match, where [must_advance] refuses the empty one. *)
Definition match_here (r : regex) (before : option ascii) (s : string)
    (must_advance : bool) : option nat :=
  rmatch r {| prev := before; rest := s; group1 := None |}
    (fun st' =>
       let n := String.length s - String.length (rest st') in
       if must_advance && (n =? 0)%nat then None else Some n).

(** A parsed replacement template: literal characters and references to
    the whole match. *)
Inductive titem := TChar (c : ascii) | TMatch.

Definition is_octal (c : ascii) : bool := Py.between 48 55 c.
Definition is_ascii_letter (c : ascii) : bool :=
  Py.between 65 90 c || Py.between 97 122 c.
Definition digit_value (c : ascii) : N := (Py.code c - 48)%N.

(** The escapes [\a \b \f \n \r \t \v \\]. *)
Definition escape_of (c : ascii) : option ascii :=
  if Ascii.eqb c "a" then Some (ascii_of_N 7)
  else if Ascii.eqb c "b" then Some (ascii_of_N 8)
  else if Ascii.eqb c "f" then Some (ascii_of_N 12)
  else if Ascii.eqb c "n" then Some (ascii_of_N 10)
  else if Ascii.eqb c "r" then Some (ascii_of_N 13)
  else if Ascii.eqb c "t" then Some (ascii_of_N 9)
  else if Ascii.eqb c "v" then Some (ascii_of_N 11)
  else if Ascii.eqb c "\" then Some "\"%char
  else None.

(** The name of [\g<name>] up to [>], and the text after it. *)
Fixpoint group_name (s : string) : option (string * string) :=
  match s with
  | EmptyString => None
  | String c s' =>
      if Ascii.eqb c ">" then Some (EmptyString, s')
      else match group_name s' with
           | Some (name, tl) => Some (String c name, tl)
           | None => None
           end
  end.

Fixpoint all_zero (s : string) : bool :=
  match s with
  | EmptyString => true
  | String c s' => Ascii.eqb c "0" && all_zero s'
  end.

(** [parse_template] for a pattern without groups other than group 0.
    [None] is [re.error] (or the IndexError of an unknown group name).
    A group name is taken to be a run of ASCII digits or else an error,
    as from Python 3.12 on.  [fuel] bounds the characters read. *)
Fixpoint parse_template (fuel : nat) (s : string) : option (list titem) :=
  match fuel with
  | O => match s with EmptyString => Some [] | _ => None end
  | S fuel' =>
      let lit c tl := cons (TChar c) <$> parse_template fuel' tl in
      match s with
      | EmptyString => Some []
      | String c s1 =>
          if negb (Ascii.eqb c "\") then lit c s1
          else
            match s1 with
            | EmptyString => None           (* bad escape (end of pattern) *)
            | String e s2 =>
                if Ascii.eqb e "g" then
                  match s2 with
                  | String lt s3 =>
                      if Ascii.eqb lt "<" then
                        match group_name s3 with
                        | Some (String n name, tl) =>
                            if all_zero (String n name)
                            then cons TMatch <$> parse_template fuel' tl
                            else None       (* no such group *)
                        | _ => None         (* missing name or > *)
                        end
                      else None             (* missing < *)
                  | EmptyString => None
                  end
                else if Ascii.eqb e "0" then
                  (* \0, \0o, \0oo: an octal escape *)
                  match s2 with
                  | String o1 s3 =>
                      if is_octal o1 then
                        match s3 with
                        | String o2 s4 =>
                            if is_octal o2
                            then lit (ascii_of_N ((digit_value o1 * 8
                                                   + digit_value o2) mod 256)) s4
                            else lit (ascii_of_N (digit_value o1)) s3
                        | EmptyString => lit (ascii_of_N (digit_value o1)) s3
                        end
                      else lit (ascii_of_N 0) s2
                  | EmptyString => lit (ascii_of_N 0) s2
                  end
                else if Py.isdecimal e then
                  (* three octal digits are a character; anything else
                     refers to a group the pattern does not have *)
                  match s2 with
                  | String o1 (String o2 s4) =>
                      if is_octal e && is_octal o1 && is_octal o2 then
                        let v := (digit_value e * 64 + digit_value o1 * 8
                                  + digit_value o2)%N in
                        if (v <=? 255)%N then lit (ascii_of_N v) s4 else None
                      else None
                  | _ => None
                  end
                else
                  match escape_of e with
                  | Some x => lit x s2
                  | None =>
                      if is_ascii_letter e then None   (* bad escape *)
                      else cons (TChar c) <$> lit e s2
                  end
            end
      end
  end.

Definition compile_template (repl : string) : option (list titem) :=
  parse_template (String.length repl) repl.

Fixpoint expand_template (t : list titem) (matched : string) : string :=
  match t with
  | [] => EmptyString
  | TChar c :: t' => String c (expand_template t' matched)
  | TMatch :: t' => matched +:+ expand_template t' matched
  end.

(** The scan of [pattern.sub]: at each position outside a match the
    engine is tried; after an empty match it is tried once more at the
    same position for a non-empty one.  [skip] counts the characters
    still inside the match just replaced. *)
Fixpoint sub_scan (r : regex) (t : list titem) (before : option ascii)
    (s : string) (skip : nat) : string :=
  match skip with
  | S skip' =>
      match s with
      | EmptyString => EmptyString
      | String c s' => sub_scan r t (Some c) s' skip'
      end
  | O =>
      let '(out, n) :=
        match match_here r before s false with
        | None => (EmptyString, 0)
        | Some (S n) => (expand_template t (substring 0 (S n) s), S n)
        | Some O =>
            match match_here r before s true with
            | None => (expand_template t EmptyString, 0)
            | Some n =>
                (expand_template t EmptyString
                 +:+ expand_template t (substring 0 n s), n)
            end
        end in
      out +:+
      match s with
      | EmptyString => EmptyString
      | String c s' =>
          match n with
          | O => String c (sub_scan r t (Some c) s' 0)
          | S n' => sub_scan r t (Some c) s' n'
          end
      end
  end.

(** [pattern.sub(repl, s)] with a string [repl]; [None] when the
    template is refused.  The template is compiled before the scan,
    whether or not the pattern occurs. *)
Definition sub (r : regex) (repl : string) (s : string) : option string :=
  t ← compile_template repl;
  Some (sub_scan r t None s 0).

End Re.

(* ===================================================================== *)
(** * [typer.py]                                                         *)
(* ===================================================================== *)

Module TextTyper.

(** The keys the typer uses: members of [pynput.keyboard.Key] and
    characters. *)
Inductive key :=
| Enter | Tab | Backspace | Cmd | Ctrl | Alt | Shift
| Char (c : ascii).

(** What the typer does to the outside, call by call. *)
Inductive event :=
| Type_ (c : ascii)      (* keyboard.type(char) *)
| Tap (k : key)          (* keyboard.tap(key) *)
| Press (k : key)        (* entering [with keyboard.pressed(key)] *)
| Release (k : key)      (* leaving it *)
| Copy (s : string)      (* pyperclip.copy(s) *).

(** The typer with its surroundings: the platform, the clipboard
    ([None] when [pyperclip.paste()] raises) and the calls made so far.
    Calls on the keyboard and [pyperclip.copy] are taken to succeed;
    the pauses are not part of the embedding. *)
Record typer := mk_typer {
  darwin : bool;
  clipboard : option string;
  events : list event }.

Definition send (es : list event) (t : typer) : typer :=
  {| darwin := darwin t; clipboard := clipboard t;
     events := events t ++ es |}.

Definition copy_to_clipboard (s : string) (t : typer) : typer :=
  {| darwin := darwin t; clipboard := Some s;
     events := events t ++ [Copy s] |}.

(** [with self.keyboard.pressed(modifier): self.keyboard.tap(k)] *)
Definition chord (modifier k : key) : list event :=
  [Press modifier; Tap k; Release modifier].

(** [Key.cmd if sys.platform == "darwin" else Key.ctrl] *)
Definition cmd_or_ctrl (t : typer) : key := if darwin t then Cmd else Ctrl.

(** [for _ in range(count): body] *)
Definition times (count : nat) (body : typer -> typer) (t : typer) : typer :=
  Nat.iter count body t.

(** [_type_text] *)
Definition _type_text (text : string) (t : typer) : typer :=
  foldl (fun t char => send [Type_ char] t) t (list_ascii_of_string text).

(** [_paste_text] *)
Definition _paste_text (text : string) (t : typer) : typer :=
  (* save the current clipboard content *)
  let original_clipboard := clipboard t in
  let t1 := copy_to_clipboard text t in
  let t2 := send (chord (cmd_or_ctrl t1) (Char "v")) t1 in
  (* finally: restore the original clipboard content *)
  match original_clipboard with
  | Some original => copy_to_clipboard original t2
  | None => t2
  end.

(** [type_text] *)
Definition type_text (text : string) (method : string) (t : typer) : typer :=
  match text with
  | EmptyString => t
  | _ =>
      let method :=
        if String.eqb method "auto"
        then (if (50 <? Py.len text)%nat then "paste" else "type")
        else method in
      if String.eqb method "paste"
      then _paste_text text t
      else _type_text text t
  end.

(** [press_enter], [press_tab] *)
Definition press_enter (t : typer) : typer := send [Tap Enter] t.
Definition press_tab (t : typer) : typer := send [Tap Tab] t.

(** [delete_chars] *)
Definition delete_chars (count : nat) (t : typer) : typer :=
  times count (send [Tap Backspace]) t.

(** [delete_words] *)
Definition delete_words (count : nat) (t : typer) : typer :=
  let modifier := if darwin t then Alt else Ctrl in
  times count (send (chord modifier Backspace)) t.

(** [undo], [redo], [select_all], [copy], [cut], [paste] *)
Definition undo (t : typer) : typer :=
  send (chord (cmd_or_ctrl t) (Char "z")) t.

Definition redo (t : typer) : typer :=
  if darwin t
  then send [Press Cmd; Press Shift; Tap (Char "z"); Release Shift;
             Release Cmd] t
  else send (chord Ctrl (Char "y")) t.

Definition select_all (t : typer) : typer :=
  send (chord (cmd_or_ctrl t) (Char "a")) t.

Definition copy (t : typer) : typer :=
  send (chord (cmd_or_ctrl t) (Char "c")) t.

Definition cut (t : typer) : typer :=
  send (chord (cmd_or_ctrl t) (Char "x")) t.

Definition paste (t : typer) : typer :=
  send (chord (cmd_or_ctrl t) (Char "v")) t.

End TextTyper.

(* ===================================================================== *)
(** * [voice_commands.py]                                                *)
(* ===================================================================== *)

Module VoiceCommandProcessor.

Import Re.

(** The third component of a rule: [None], an [int], or a [str]. *)
Inductive arg := ArgNone | ArgInt (n : N) | ArgStr (s : string).

Fixpoint seq (rs : list regex) : regex :=
  match rs with
  | [] => Eps
  | [r] => r
  | r :: rs' => Seq r (seq rs')
  end.

Fixpoint alt (rs : list regex) : regex :=
  match rs with
  | [] => Eps
  | [r] => r
  | r :: rs' => Alt r (alt rs')
  end.

Definition ws : regex := Plus Space.           (* \s+ *)
Definition dot : regex := Opt (Lit ".").       (* \.? *)

(** [VOICE_COMMANDS], each pattern as the engine sees it once compiled
    with [re.IGNORECASE]. *)
Definition VOICE_COMMANDS : list (regex * string * arg) :=
  [ (* ^(?:delete|scratch|cancel)\s+that\.?$ *)
    (seq [Bol; alt [lits "delete"; lits "scratch"; lits "cancel"]; ws;
          lits "that"; dot; Eol], "delete_last", ArgNone);
    (* ^(?:delete|remove)\s+(?:the\s+)?last\s+word\.?$ *)
    (seq [Bol; alt [lits "delete"; lits "remove"]; ws;
          Opt (Seq (lits "the") ws); lits "last"; ws; lits "word"; dot; Eol],
     "delete_words", ArgInt 1);
    (* ^(?:delete|remove)\s+(?:the\s+)?last\s+(\d+)\s+words?\.?$ *)
    (seq [Bol; alt [lits "delete"; lits "remove"]; ws;
          Opt (Seq (lits "the") ws); lits "last"; ws; Group (Plus Digit); ws;
          lits "word"; Opt (Lit "s"); dot; Eol],
     "delete_words", ArgStr "match");
    (* ^(?:backspace|back\s+space)\.?$ *)
    (seq [Bol; alt [lits "backspace"; seq [lits "back"; ws; lits "space"]];
          dot; Eol], "backspace", ArgInt 1);
    (* ^undo(?:\s+that)?\.?$ *)
    (seq [Bol; lits "undo"; Opt (Seq ws (lits "that")); dot; Eol],
     "undo", ArgNone);
    (* ^new\s+line\.?$ *)
    (seq [Bol; lits "new"; ws; lits "line"; dot; Eol], "newline", ArgInt 1);
    (* ^new\s+paragraph\.?$ *)
    (seq [Bol; lits "new"; ws; lits "paragraph"; dot; Eol], "newline", ArgInt 2);
    (* ^(?:press\s+)?enter\.?$ *)
    (seq [Bol; Opt (Seq (lits "press") ws); lits "enter"; dot; Eol],
     "newline", ArgInt 1);
    (* ^(?:press\s+)?tab\.?$ *)
    (seq [Bol; Opt (Seq (lits "press") ws); lits "tab"; dot; Eol],
     "tab", ArgInt 1);
    (* ^select\s+all\.?$ *)
    (seq [Bol; lits "select"; ws; lits "all"; dot; Eol], "select_all", ArgNone);
    (* ^copy(?:\s+that)?\.?$ *)
    (seq [Bol; lits "copy"; Opt (Seq ws (lits "that")); dot; Eol],
     "copy", ArgNone);
    (* ^paste\.?$ *)
    (seq [Bol; lits "paste"; dot; Eol], "paste", ArgNone);
    (* ^cut(?:\s+that)?\.?$ *)
    (seq [Bol; lits "cut"; Opt (Seq ws (lits "that")); dot; Eol],
     "cut", ArgNone) ].

Definition is_match_placeholder (a : arg) : bool :=
  match a with ArgStr s => String.eqb s "match" | _ => false end.

(** The loop of [detect_command] over the compiled rules.  The outer
    [option] is [None] when the call raises: [int] does on a run of
    digits beyond its limit, and [int(None)] would for a group that
    took no part in the match. *)
Fixpoint detect_loop (rules : list (regex * string * arg)) (text : string)
    : option (option (string * arg) * string) :=
  match rules with
  | [] => Some (None, text)
  | (pattern, action, a) :: rules' =>
      match match_ pattern text with
      | Some m =>
          actual_arg ←
            (if is_match_placeholder a && (0 <? groups pattern)%nat
             then digits ← group1 m; n ← Py.int digits; Some (ArgInt n)
             else Some a);
          (* remaining text after the command *)
          let remaining := Py.strip (rest m) in
          Some (Some (action, actual_arg), remaining)
      | None => detect_loop rules' text
      end
  end.

(** [detect_command] *)
Definition detect_command (text : string)
    : option (option (string * arg) * string) :=
  detect_loop VOICE_COMMANDS (Py.strip text).

(** [count = arg if arg else 1] followed by [range(count)]: [None],
    [0] and the empty string are falsy; [range] raises a TypeError on
    a string, which is the [None] here. *)
Definition count_of (a : arg) : option nat :=
  match a with
  | ArgNone => Some 1
  | ArgInt 0 => Some 1
  | ArgInt n => Some (N.to_nat n)
  | ArgStr EmptyString => Some 1
  | ArgStr _ => None
  end.

(** [execute_command].  [last_typed_length] is the field
    [_last_typed_length]; the typer is the one the overlay hands in,
    [typer.py]'s.  [None] when the call raises. *)
Definition execute_command (last_typed_length : nat)
    (command : string * arg) (typer : TextTyper.typer)
    : option (bool * nat * TextTyper.typer) :=
  let '(action, a) := command in
  if String.eqb action "delete_last" then
    (* delete the last typed text *)
    if (0 <? last_typed_length)%nat
    then Some (true, 0, TextTyper.delete_chars last_typed_length typer)
    else Some (true, last_typed_length, typer)
  else if String.eqb action "delete_words" then
    count ← count_of a;
    Some (true, last_typed_length, TextTyper.delete_words count typer)
  else if String.eqb action "backspace" then
    count ← count_of a;
    Some (true, last_typed_length, TextTyper.delete_chars count typer)
  else if String.eqb action "undo" then
    Some (true, last_typed_length, TextTyper.undo typer)
  else if String.eqb action "newline" then
    count ← count_of a;
    Some (true, last_typed_length,
          TextTyper.times count TextTyper.press_enter typer)
  else if String.eqb action "tab" then
    Some (true, last_typed_length, TextTyper.press_tab typer)
  else if String.eqb action "select_all" then
    Some (true, last_typed_length, TextTyper.select_all typer)
  else if String.eqb action "copy" then
    Some (true, last_typed_length, TextTyper.copy typer)
  else if String.eqb action "paste" then
    Some (true, last_typed_length, TextTyper.paste typer)
  else if String.eqb action "cut" then
    Some (true, last_typed_length, TextTyper.cut typer)
  else Some (false, last_typed_length, typer).

End VoiceCommandProcessor.

(* ===================================================================== *)
(** * [dict]: insertion-ordered string maps                              *)
(* ===================================================================== *)

Module Dict.

(** A [dict[str, str]] with its iteration order: an association list
    without repeated keys. *)
Definition dict := list (string * string).

Fixpoint get (key : string) (d : dict) : option string :=
  match d with
  | [] => None
  | (k, v) :: d' => if String.eqb key k then Some v else get key d'
  end.

(** [d[key] = value]: a present key keeps its place. *)
Fixpoint setitem (key value : string) (d : dict) : dict :=
  match d with
  | [] => [(key, value)]
  | (k, v) :: d' =>
      if String.eqb key k then (k, value) :: d' else (k, v) :: setitem key value d'
  end.

(** [del d[key]] *)
Fixpoint delitem (key : string) (d : dict) : dict :=
  match d with
  | [] => []
  | (k, v) :: d' => if String.eqb key k then d' else (k, v) :: delitem key d'
  end.

(** The pattern [re.compile(rf'\b{re.escape(trigger)}\b', re.IGNORECASE)]. *)
Definition word_pattern (trigger : string) : Re.regex :=
  Re.Seq Re.WordBoundary (Re.Seq (Re.lits trigger) Re.WordBoundary).

(** The loop [for trigger, value in d.items(): result =
    pattern.sub(value, result)] shared by the two text dictionaries;
    [None] when a call of [sub] raises. *)
Fixpoint substitute_all (d : dict) (result : string) : option string :=
  match d with
  | [] => Some result
  | (trigger, value) :: d' =>
      result' ← Re.sub (word_pattern trigger) value result;
      substitute_all d' result'
  end.

End Dict.

(* ===================================================================== *)
(** * [snippets.py]                                                      *)
(* ===================================================================== *)

Module SnippetExpander.

Import Dict.

(** [add_snippet] *)
Definition add_snippet (snippets : dict) (trigger expansion : string) : dict :=
  setitem (Py.lower trigger) expansion snippets.

(** [remove_snippet] *)
Definition remove_snippet (snippets : dict) (trigger : string) : bool * dict :=
  let key := Py.lower trigger in
  match get key snippets with
  | Some _ => (true, delitem key snippets)
  | None => (false, snippets)
  end.

(** [expand]; [None] when the call raises. *)
Definition expand (snippets : dict) (text : string) : option string :=
  match snippets with
  | [] => Some text
  | _ =>
      (* check if the entire text is a snippet trigger *)
      let text_lower := Py.lower (Py.strip text) in
      match get text_lower snippets with
      | Some expansion => Some expansion
      | None => substitute_all snippets text
      end
  end.

End SnippetExpander.

(* ===================================================================== *)
(** * [dictionary.py]                                                    *)
(* ===================================================================== *)

Module PersonalDictionary.

Import Dict.

(** [add_word] *)
Definition add_word (corrections : dict) (spoken corrected : string) : dict :=
  setitem (Py.lower spoken) corrected corrections.

(** [remove_word] *)
Definition remove_word (corrections : dict) (spoken : string) : bool * dict :=
  let key := Py.lower spoken in
  match get key corrections with
  | Some _ => (true, delitem key corrections)
  | None => (false, corrections)
  end.

(** [apply]; [None] when the call raises. *)
Definition apply (corrections : dict) (text : string) : option string :=
  match corrections with
  | [] => Some text
  | _ => substitute_all corrections text
  end.

(** [_sounds_similar]: same first letter and similar length. *)
Definition sounds_similar (word1 word2 : string) : bool :=
  match word1, word2 with
  | String c1 _, String c2 _ =>
      Ascii.eqb c1 c2 &&
      (Py.len word1 - Py.len word2 <=? 2)%nat &&
      (Py.len word2 - Py.len word1 <=? 2)%nat
  | _, _ => false
  end.

(** [learn_from_correction] *)
Definition learn_from_correction (corrections : dict)
    (original corrected : string) : dict :=
  let original_words := Py.split (Py.lower original) in
  let corrected_words := Py.split corrected in
  if (length original_words =? length corrected_words)%nat
  then
    foldl (fun cs pair =>
             let '(orig, corr) := pair in
             if negb (String.eqb orig (Py.lower corr))
                && sounds_similar orig (Py.lower corr)
             then add_word cs orig corr
             else cs)
          corrections (zip original_words corrected_words)
  else corrections.

End PersonalDictionary.

(* ===================================================================== *)
(** * [stats.py]: the usage history store                                *)
(* ===================================================================== *)

Module TranscriptionDB.

Import Datetime.

(** A row of the table [transcriptions].  [timestamp] is the TEXT
    column; a rational stands for the REAL column. *)
Record row := mk_row {
  id : nat;
  timestamp : string;
  raw_text : string;
  edited_text : option string;
  duration_seconds : QArith_base.Q;
  word_count : nat;
  char_count : nat;
  app_bundle_id : option string;
  app_name : option string;
  preset_used : option string }.

(** The database file: the rows in insertion order, the largest rowid
    handed out (AUTOINCREMENT), and the table [word_counts]. *)
Record db := mk_db {
  transcriptions : list row;
  last_rowid : nat;
  word_counts : gmap string nat }.

Definition empty_db : db :=
  {| transcriptions := []; last_rowid := 0; word_counts := ∅ |}.

(** [INSERT ... ON CONFLICT(word) DO UPDATE SET count = count + 1] *)
Definition upsert (w : string) (m : gmap string nat) : gmap string nat :=
  match m !! w with
  | Some n => <[w := S n]> m
  | None => <[w := 1]> m
  end.

(** The characters stripped from a word: . , ! ? ; : the double quote,
    the apostrophe, and the brackets ( ) [ ] { }. *)
Definition punctuation : string :=
  ".,!?;:" +:+ String (ascii_of_N 34) "'()[]{}".

(** The loop of [record] over the words. *)
Fixpoint count_words (words : list string) (m : gmap string nat)
    : gmap string nat :=
  match words with
  | [] => m
  | word :: words' =>
      let word_lower := Py.strip (Py.strip_chars punctuation (Py.lower word)) in
      if (3 <=? Py.len word_lower)%nat
      then count_words words' (upsert word_lower m)
      else count_words words' m
  end.

(** [record]; [now] is the reading of [datetime.now()]. *)
Definition record (d : db) (now : datetime) (raw : string)
    (edited : option string) (duration : QArith_base.Q)
    (bundle name pres : option string) : nat * db :=
  (* use edited text for counts if available, otherwise raw *)
  let text_for_counts := Py.or_else edited raw in
  let words := Py.split text_for_counts in
  let record_id := S (last_rowid d) in
  let r := {| id := record_id;
              timestamp := isoformat now;
              raw_text := raw;
              edited_text := edited;
              duration_seconds := duration;
              word_count := length words;
              char_count := Py.len text_for_counts;
              app_bundle_id := bundle;
              app_name := name;
              preset_used := pres |} in
  (record_id,
   {| transcriptions := transcriptions d ++ [r];
      last_rowid := record_id;
      word_counts := count_words words (word_counts d) |}).

(** The WHERE clause built by [get_stats]: TEXT comparisons with the
    ISO text of the bounds. *)
Definition in_where (since until : option datetime) (r : row) : bool :=
  match since with
  | Some s => String.leb (isoformat s) (timestamp r)
  | None => true
  end &&
  match until with
  | Some u => String.ltb (timestamp r) (isoformat u)
  | None => true
  end.

(** The integer aggregates of [Stats].  The REAL aggregates and the
    rankings derived by [get_stats] are not part of this embedding.
    The weekday ranking raises a TypeError when its first group has no
    weekday, which takes a [timestamp] that SQLite does not read as a
    time; [record] writes none, so that on a table written by [record]
    the call returns what is given here. *)
Record Stats := mk_stats {
  total_transcriptions : nat;
  total_words : nat;
  total_chars : nat }.

Definition sum (l : list nat) : nat := foldr Nat.add 0 l.

(** [get_stats]: COUNT and the COALESCE(SUM(...), 0) columns. *)
Definition get_stats (d : db) (since until : option datetime) : Stats :=
  let rows := List.filter (in_where since until) (transcriptions d) in
  {| total_transcriptions := length rows;
     total_words := sum (map word_count rows);
     total_chars := sum (map char_count rows) |}.

(** [get_stats_today]; [None] when [today + timedelta(days=1)]
    overflows. *)
Definition get_stats_today (d : db) (now : datetime) : option Stats :=
  let today := midnight now in
  tomorrow ← add_one_day today;
  Some (get_stats d (Some today) (Some tomorrow)).

(** [t.replace(...)] checks the fields it is given: [None] is the
    ValueError. *)
Definition checked (t : datetime) : option datetime :=
  if validb t then Some t else None.

(** [get_stats_this_month] *)
Definition get_stats_this_month (d : db) (now : datetime) : option Stats :=
  let today := now in
  let start_of_month :=
    {| year := year today; month := month today; day := 1;
       hour := 0; minute := 0; second := 0; microsecond := 0 |} in
  end_of_month ←
    (if (month today =? 12)%Z
     then checked {| year := year today + 1; month := 1;
                     day := day start_of_month; hour := 0; minute := 0;
                     second := 0; microsecond := 0 |}
     else checked {| year := year start_of_month; month := month today + 1;
                     day := day start_of_month; hour := 0; minute := 0;
                     second := 0; microsecond := 0 |});
  Some (get_stats d (Some start_of_month) (Some end_of_month)).

(** [get_stats_this_year] *)
Definition get_stats_this_year (d : db) (now : datetime) : option Stats :=
  let today := now in
  let start_of_year :=
    {| year := year today; month := 1; day := 1;
       hour := 0; minute := 0; second := 0; microsecond := 0 |} in
  end_of_year ←
    checked {| year := year today + 1; month := month start_of_year;
               day := day start_of_year; hour := 0; minute := 0;
               second := 0; microsecond := 0 |};
  Some (get_stats d (Some start_of_year) (Some end_of_year)).

(** [COALESCE(edited_text, raw_text)] *)
Definition coalesce (edited : option string) (raw : string) : string :=
  match edited with Some e => e | None => raw end.

(** The [Counter] that [get_stats] fills from the rows of a period,
    before it is ranked: [word_counter[word_lower] += 1] is the same
    update as the upsert of [record]. *)
Definition word_counter (d : db) (since until : option datetime)
    : gmap string nat :=
  foldl (fun m r =>
           count_words (Py.split (coalesce (edited_text r) (raw_text r))) m)
        ∅ (List.filter (in_where since until) (transcriptions d)).

End TranscriptionDB.

(* ===================================================================== *)
(** * Vocabulary of the statements                                       *)
(* ===================================================================== *)

Module QueueSpec.

Import Datetime AudioQueue.

(** The pending recording found at a stem, if there is one: the metadata
    loads and the audio payload exists. *)
Definition load (d : directory) (stem : string) : option PendingRecording :=
  match content <$> jsons d !! stem with
  | Some (Loadable m) =>
      if bool_decide (is_Some (wavs d !! stem))
      then Some (from_metadata stem m) else None
  | _ => None
  end.

(** Orphaned metadata: it loads, and no audio payload is paired with it. *)
Definition orphan (d : directory) (stem : string) : bool :=
  match content <$> jsons d !! stem with
  | Some (Loadable _) => negb (bool_decide (is_Some (wavs d !! stem)))
  | _ => false
  end.

(** A stem that [save_recording] can generate. *)
Definition timestamp_id (stem : string) : Prop :=
  exists t, valid t /\ stem = strftime_id t.

(** The metadata document of a recording. *)
Definition metadata_of (r : PendingRecording) : metadata :=
  {| md_timestamp := timestamp r; md_app_bundle_id := app_bundle_id r;
     md_app_name := app_name r; md_preset := preset r |}.

(** Recording [r] with payload [audio] is stored in [d]: both of its
    files are there with the content [save_recording] wrote. *)
Definition stored (d : directory) (r : PendingRecording)
    (audio : list Byte.byte) : Prop :=
  wavs d !! id r = Some audio /\
  content <$> jsons d !! id r = Some (Loadable (metadata_of r)).

(** The items a sweep reaches: those before the first index at which the
    stop event is found set. *)
Fixpoint iterated {A} (stop_is_set : nat -> bool) (i : nat) (l : list A)
    : list A :=
  match l with
  | [] => []
  | x :: rest =>
      if stop_is_set i then [] else x :: iterated stop_is_set (S i) rest
  end.

Definition is_success (o : outcome) : bool :=
  match o with Success => true | _ => false end.

(** The recordings on which [process_fn] returned [True]. *)
Definition succeeded (cs : list (PendingRecording * outcome))
    : list PendingRecording :=
  map fst (filter (fun c => is_success (snd c) = true) cs).

(** The progress reports [(i + 1, total)] for [n] items from index [i]. *)
Definition reports (i n total : nat) : list (nat * nat) :=
  map (fun j => (j + 1, total)) (seq i n).

(** [on_progress], when supplied, returns normally. *)
Definition progress_returns {S : Type}
    (on_progress : option (nat -> nat -> S -> bool * S)) : Prop :=
  forall f, on_progress = Some f -> forall i total s, fst (f i total s) = true.

(** The audio payload the directory holds for a recording. *)
Definition payload (d : directory) (r : PendingRecording) : list Byte.byte :=
  default [] (wavs d !! id r).

(** What the callbacks answer when they are called in turn on the items
    [items], the first of index [i], each starting in the state the call
    before it left: [process_fn] on the item and its payload, then
    [on_progress], when supplied, on [(i + 1, total)].  The calls end
    with the list, at the first index at which the stop event is found
    set, or when [on_progress] raises.  The result pairs every item with
    the answer of [process_fn] on it, and gives the state after the last
    call. *)
Fixpoint callbacks {S : Type}
    (process_fn : PendingRecording -> list Byte.byte -> S -> outcome * S)
    (on_progress : option (nat -> nat -> S -> bool * S))
    (stop_is_set : nat -> bool)
    (audio_of : PendingRecording -> list Byte.byte)
    (i total : nat) (items : list PendingRecording) (s : S)
    : list (PendingRecording * outcome) * S :=
  match items with
  | [] => ([], s)
  | r :: rest =>
      if stop_is_set i then ([], s)
      else
        let '(o, s1) := process_fn r (audio_of r) s in
        match on_progress with
        | None =>
            let '(cs, s') := callbacks process_fn on_progress stop_is_set
                               audio_of (Datatypes.S i) total rest s1 in
            ((r, o) :: cs, s')
        | Some f =>
            match f (i + 1) total s1 with
            | (true, s2) =>
                let '(cs, s') := callbacks process_fn on_progress stop_is_set
                                   audio_of (Datatypes.S i) total rest s2 in
                ((r, o) :: cs, s')
            | (false, s2) => ([(r, o)], s2)
            end
        end
  end.

(** The calls a client can make on the queue of a storage directory. *)
Inductive op : Type :=
| Save (now : datetime) (mtime : Float.float) (audio : list Byte.byte)
       (bundle name pres : option string)
| GetPending
| MarkCompleted (r : PendingRecording)
| ProcessPending {S : Type}
    (process_fn : PendingRecording -> list Byte.byte -> S -> outcome * S)
    (on_progress : option (nat -> nat -> S -> bool * S))
    (stop_is_set : nat -> bool) (s : S)
| CleanupOld (now_ts : Float.float) (max_age_days : Z)
| Restart (* the process ends; a fresh AudioQueue opens the directory *).

Definition with_dir (q : queue) (d : directory) : queue :=
  {| queue_dir := d; is_processing := is_processing q |}.

Definition run (o : op) (q : queue) : queue :=
  match o with
  | Save now mtime audio bundle name pres =>
      with_dir q (snd (save_recording (queue_dir q) now mtime audio
                                      bundle name pres))
  | GetPending => with_dir q (dir_after (get_pending (queue_dir q)))
  | MarkCompleted r => with_dir q (mark_completed (queue_dir q) r)
  | ProcessPending fn prog stop s =>
      snd (process_pending fn prog stop q s)
  | CleanupOld now_ts days =>
      match cleanup_old (queue_dir q) now_ts days with
      | Some (_, d) => with_dir q d
      | None => (* raised before any file was touched *) q
      end
  | Restart => new (queue_dir q)
  end.

Definition run_all (ops : list op) (q : queue) : queue :=
  foldl (fun q o => run o q) q ops.

(** The calls that remove or replace the files of recording [r]:
    [mark_completed] on it (directly or after [process_fn] returned
    [True] in a sweep), [cleanup_old] past its age, and a
    [save_recording] that generates its id again. *)
Definition disturbs (r : PendingRecording) (o : op) (q : queue) : Prop :=
  match o with
  | Save now _ _ _ _ _ => strftime_id now = id r
  | MarkCompleted r' => id r' = id r
  | ProcessPending fn prog stop s =>
      id r ∈ map id (succeeded (calls (fst (process_pending fn prog stop q s))))
  | CleanupOld now_ts days =>
      exists f c, jsons (queue_dir q) !! id r = Some f /\
                  cutoff now_ts days = Some c /\
                  Float.ltb (st_mtime f) c = true
  | GetPending | Restart => False
  end.

Fixpoint undisturbed (r : PendingRecording) (ops : list op) (q : queue) : Prop :=
  match ops with
  | [] => True
  | o :: rest => ~ disturbs r o q /\ undisturbed r rest (run o q)
  end.

(** A float holding a whole number of seconds. *)
Definition seconds (n : Z) : Float.float := Float.nearest n 0.

(** Sample data: a clock reading and two captures. *)
Definition reading : datetime := mk_datetime 2024 3 9 7 5 1 42.
Definition earlier_reading : datetime := mk_datetime 2024 3 9 7 5 1 41.

Definition first_save :=
  save_recording empty_directory reading (seconds 1000) [Byte.x01]
                 None (Some "Mail") None.

(** A second capture whose call reads the same clock value. *)
Definition second_save :=
  save_recording (snd first_save) reading (seconds 2000) [Byte.x02]
                 None (Some "Notes") None.

(** A directory with two recordings and one orphaned metadata file. *)
Definition orphan_reading : datetime := mk_datetime 2024 3 9 7 5 1 40.

Definition sample_json (t : datetime) : json_file :=
  {| content := Loadable (mk_metadata t None None None); st_mtime := seconds 1000 |}.

Definition sample_dir : directory :=
  {| wavs := <[strftime_id reading := [Byte.x01]]>
             (<[strftime_id earlier_reading := [Byte.x03]]> ∅);
     jsons := <[strftime_id reading := sample_json reading]>
              (<[strftime_id earlier_reading := sample_json earlier_reading]>
              (<[strftime_id orphan_reading := sample_json orphan_reading]> ∅)) |}.

(** A [process_fn] that raises on the older recording and succeeds on
    the other; its state counts its calls. *)
Definition sample_process_fn (r : PendingRecording) (audio : list Byte.byte)
    (calls : nat) : outcome * nat :=
  if String.eqb (id r) (strftime_id earlier_reading)
  then (Raises, S calls) else (Success, S calls).

Definition never_stop (i : nat) : bool := false.

(** An [on_progress] that raises. *)
Definition raising_progress (i total : nat) (calls : nat) : bool * nat :=
  (false, calls).

(** A [process_fn] that always raises. *)
Definition raising_process_fn (r : PendingRecording) (audio : list Byte.byte)
    (calls : nat) : outcome * nat :=
  (Raises, S calls).

(** Calls made after [first_save] that leave its recording alone. *)
Definition quiet_ops : list op :=
  [ GetPending;
    Save earlier_reading (seconds 900) [Byte.x03] None None None;
    Restart;
    ProcessPending raising_process_fn None never_stop 0;
    CleanupOld (seconds 2000) 7;
    MarkCompleted (mk_recording (strftime_id earlier_reading)
                                earlier_reading None None None);
    GetPending ].

(** An [on_progress] that returns normally. *)
Definition quiet_progress (i total : nat) (calls : nat) : bool * nat :=
  (true, calls).

(** A [process_fn] that returns [False] on the older recording and
    [True] on the other, and an [on_progress] that returns normally;
    the state is the list of the calls received, latest first. *)
Inductive received : Type :=
| Processed (stem : string) (audio : list Byte.byte)
| Progressed (current total : nat).

Definition logging_process_fn (r : PendingRecording) (audio : list Byte.byte)
    (log : list received) : outcome * list received :=
  (if String.eqb (id r) (strftime_id earlier_reading) then Failure else Success,
   Processed (id r) audio :: log).

Definition logging_progress (i total : nat) (log : list received)
    : bool * list received :=
  (true, Progressed i total :: log).

Definition busy_queue : queue :=
  {| queue_dir := sample_dir; is_processing := true |}.

End QueueSpec.

Module ReSpec.

Import Re.

(** One or more rounds of a relation. *)
Inductive iter1 (R : mstate -> mstate -> Prop) : mstate -> mstate -> Prop :=
| iter1_one st st' : R st st' -> iter1 R st st'
| iter1_more st st1 st' : R st st1 -> iter1 R st1 st' -> iter1 R st st'.

Definition advance (st : mstate) (c : ascii) (s' : string) : mstate :=
  {| prev := Some c; rest := s'; group1 := group1 st |}.

Definition eats (p : ascii -> bool) (st st' : mstate) : Prop :=
  exists c s', rest st = String c s' /\ p c = true /\ st' = advance st c s'.

(** [spans r st st']: the pattern [r] matches the text between the
    positions [st] and [st']. *)
Fixpoint spans (r : regex) (st st' : mstate) : Prop :=
  match r with
  | Lit c => eats (same_letter c) st st'
  | Space => eats Py.isspace st st'
  | Digit => eats Py.isdecimal st st'
  | Bol => prev st = None /\ st' = st
  | Eol => at_eol (rest st) = true /\ st' = st
  | WordBoundary => at_boundary st = true /\ st' = st
  | Eps => st' = st
  | Seq r1 r2 => exists st1, spans r1 st st1 /\ spans r2 st1 st'
  | Alt r1 r2 => spans r1 st st' \/ spans r2 st st'
  | Opt r1 => spans r1 st st' \/ st' = st
  | Plus r1 => iter1 (spans r1) st st'
  | Group r1 =>
      exists st1, spans r1 st st1 /\
        st' = {| prev := prev st1; rest := rest st1;
                 group1 := Some (substring 0 (String.length (rest st)
                                              - String.length (rest st1))
                                           (rest st)) |}
  end.

(** The pattern ends with [$]. *)
Fixpoint ends_with_eol (r : regex) : bool :=
  match r with
  | Eol => true
  | Seq _ r2 => ends_with_eol r2
  | _ => false
  end.

(** Every match of the pattern sets group 1. *)
Fixpoint captures (r : regex) : bool :=
  match r with
  | Group _ => true
  | Seq r1 r2 => captures r1 || captures r2
  | Alt r1 r2 => captures r1 && captures r2
  | Plus r1 => captures r1
  | _ => false
  end.

End ReSpec.

Module StatsSpec.

Import Datetime TranscriptionDB.

Definition same_day (a b : datetime) : Prop :=
  year a = year b /\ month a = month b /\ day a = day b.

(** The last day a [datetime] can hold. *)
Definition last_day (t : datetime) : Prop :=
  (year t = 9999 /\ month t = 12 /\ day t = 31)%Z.

Definition bounds_valid (since until : option datetime) : Prop :=
  match since with Some s => valid s | None => True end /\
  match until with Some u => valid u | None => True end.

(** [t] lies in the half-open range [since, until). *)
Definition within (since until : option datetime) (t : datetime) : Prop :=
  match since with Some s => Datetime.le s t | None => True end /\
  match until with Some u => Datetime.lt t u | None => True end.

Definition noon : datetime := mk_datetime 2024 3 9 12 0 0 0.
Definition evening : datetime := mk_datetime 2024 3 9 21 30 0 5.
Definition two_seconds : QArith_base.Q := QArith_base.Qmake 2 1.

End StatsSpec.

Module CommandSpec.

Import Re ReSpec VoiceCommandProcessor.

Definition pattern_of (rule : regex * string * arg) : regex := fst (fst rule).

(** A rule whose argument is read from the match has a pattern that
    always sets group 1. *)
Definition capture_ok (rule : regex * string * arg) : Prop :=
  is_match_placeholder (snd rule) && (0 <? groups (pattern_of rule))%nat = true ->
  captures (pattern_of rule) = true.

End CommandSpec.

Module TextSpec.

Import Re Dict.

Definition backslash : ascii := ascii_of_N 92.

(** A replacement without backslash: plain text. *)
Fixpoint plain (s : string) : bool :=
  match s with
  | EmptyString => true
  | String c s' => negb (Ascii.eqb c backslash) && plain s'
  end.

Definition is_word_opt (o : option ascii) : bool :=
  match o with Some c => Py.isword c | None => false end.

Definition head (s : string) : option ascii :=
  match s with String c _ => Some c | EmptyString => None end.

(** A word boundary between the character [before] and the text [s]. *)
Definition boundary (before : option ascii) (s : string) : bool :=
  xorb (is_word_opt before) (is_word_opt (head s)).

(** [s] starts with [t] up to case; the result is the last character
    read, if any, and the text after it. *)
Fixpoint prefix_ci (t s : string) : option (option ascii * string) :=
  match t with
  | EmptyString => Some (None, s)
  | String c t' =>
      match s with
      | String x s' =>
          if same_letter c x then
            match prefix_ci t' s' with
            | Some (None, r) => Some (Some x, r)
            | Some (Some y, r) => Some (Some y, r)
            | None => None
            end
          else None
      | EmptyString => None
      end
  end.

(** The trigger occurs as a whole word at this position, up to case:
    its length. *)
Definition occurrence (t : string) (before : option ascii) (s : string)
    : option nat :=
  if boundary before s then
    match prefix_ci t s with
    | Some (last, r) =>
        if boundary (match last with Some y => Some y | None => before end) r
        then Some (String.length t) else None
    | None => None
    end
  else None.

(** Case-insensitive whole-word substitution, left to right, of the
    occurrences of [t] that do not overlap; [skip] counts the characters
    still inside the occurrence just replaced. *)
Fixpoint replace_words (t repl : string) (before : option ascii)
    (s : string) (skip : nat) : string :=
  match skip with
  | S skip' =>
      match s with
      | EmptyString => EmptyString
      | String c s' => replace_words t repl (Some c) s' skip'
      end
  | O =>
      match occurrence t before s with
      | Some n =>
          repl +:+
          match s with
          | EmptyString => EmptyString
          | String c s' =>
              match n with
              | O => String c (replace_words t repl (Some c) s' 0)
              | S n' => replace_words t repl (Some c) s' n'
              end
          end
      | None =>
          match s with
          | EmptyString => EmptyString
          | String c s' => String c (replace_words t repl (Some c) s' 0)
          end
      end
  end.

(** One substitution after the other, in the order of the mapping. *)
Definition replace_all (d : dict) (text : string) : string :=
  foldl (fun acc entry => replace_words (fst entry) (snd entry) None acc 0)
        text d.

(** The template a plain replacement compiles to. *)
Fixpoint titems (s : string) : list titem :=
  match s with
  | EmptyString => []
  | String c s' => TChar c :: titems s'
  end.

Definition plain_values (d : dict) : Prop :=
  Forall (fun entry => plain (snd entry) = true) d.

End TextSpec.

Module QueueSpec2.

Import Datetime AudioQueue QueueSpec.

(** The metadata at a stem loads. *)
Definition loads (d : directory) (stem : string) : bool :=
  match content <$> jsons d !! stem with
  | Some (Loadable _) => true
  | _ => false
  end.

(** The metadata at a stem was last modified before the cut-off. *)
Definition older (d : directory) (c : Float.float) (stem : string) : bool :=
  match jsons d !! stem with
  | Some f => Float.ltb (st_mtime f) c
  | None => false
  end.

(** The float of the decimal literal with three places [n / 1000]: the
    quotient of two integers that floats hold exactly, rounded once. *)
Definition thousandths (n : Z) : Float.float :=
  SpecFloat.SFdiv Float.prec Float.emax (Float.nearest n 0)
                  (Float.nearest 1000 0).

(** A directory with one recording, last written at [mtime]. *)
Definition dir_written_at (mtime : Float.float) : directory :=
  snd (save_recording empty_directory reading mtime [Byte.x01]
                      None None None).

Definition succeeded_id (cs : list (PendingRecording * outcome))
    (stem : string) : bool :=
  bool_decide (stem ∈ map id (succeeded cs)).

End QueueSpec2.

Module DictSpec.

Import Dict.

(** The keys of a mapping, in iteration order. *)
Definition keys (d : dict) : list string := map fst d.

(** What [learn_from_correction] learns from one pair of words. *)
Definition learnable (orig corr : string) : Prop :=
  orig <> Py.lower corr /\
  PersonalDictionary.sounds_similar orig (Py.lower corr) = true.

End DictSpec.

Module HistorySpec.

Import Datetime TranscriptionDB StatsSpec.

(** One call of [record]: the clock reading and the arguments. *)
Record call := mk_call {
  c_now : datetime;
  c_raw : string;
  c_edited : option string;
  c_duration : QArith_base.Q;
  c_bundle : option string;
  c_name : option string;
  c_preset : option string }.

Definition record_call (d : db) (c : call) : nat * db :=
  record d (c_now c) (c_raw c) (c_edited c) (c_duration c)
         (c_bundle c) (c_name c) (c_preset c).

(** The database after a sequence of calls. *)
Definition replay (d : db) (h : list call) : db :=
  foldl (fun d c => snd (record_call d c)) d h.

(** The text of a call that is counted. *)
Definition counted_text (c : call) : string :=
  Py.or_else (c_edited c) (c_raw c).

(** [t] lies in the half-open range [since, until), decided. *)
Definition within_b (since until : option datetime) (t : datetime) : bool :=
  match since with
  | Some s => match compare s t with Gt => false | _ => true end
  | None => true
  end &&
  match until with
  | Some u => match compare t u with Lt => true | _ => false end
  | None => true
  end.

(** The calls of a history made within a range. *)
Definition calls_within (since until : option datetime) (h : list call)
    : list call :=
  List.filter (fun c => within_b since until (c_now c)) h.

Definition before (a b : Stats) : Prop :=
  total_transcriptions a <= total_transcriptions b /\
  total_words a <= total_words b /\
  total_chars a <= total_chars b.

(** The table was written by [record]: it is the table of a history of
    calls made at valid clock readings, so that every [timestamp] is
    the ISO text of a [datetime]. *)
Definition recorded (h : list call) : Prop :=
  Forall (fun c => valid (c_now c)) h.

(** A sample history: one call last year, one earlier this year, one
    earlier this month, and one today. *)
Definition dictated (t : datetime) (text : string) : call :=
  {| c_now := t; c_raw := text; c_edited := None; c_duration := two_seconds;
     c_bundle := None; c_name := None; c_preset := None |}.

Definition sample_history : list call :=
  [ dictated (mk_datetime 2023 11 30 8 15 0 0) "notes from last year";
    dictated (mk_datetime 2024 1 17 9 0 0 250) "a winter memo";
    dictated (mk_datetime 2024 3 2 18 45 10 0) "remember the milk";
    dictated noon "hello there world" ].

End HistorySpec.

Module TyperSpec.

Import TextTyper.

(** The calls a typer made between two of its states. *)
Definition new_events (before after : typer) : list event :=
  drop (length (events before)) (events after).

(** What a call leaves alone and what it appends to the log. *)
Definition extends (t t' : typer) (es : list event) : Prop :=
  darwin t' = darwin t /\ clipboard t' = clipboard t /\
  events t' = (events t ++ es)%list.

(** A plain text field with the cursor at its end, as the application
    that has the focus: typed characters and pasted text are appended,
    Backspace removes the last character, Enter and Tab insert their
    control characters.  [held] are the modifier keys that are down.
    The result is [None] for a call whose effect on such a field is
    not fixed here (other shortcuts, a paste with an unreadable
    clipboard). *)
Record field := mk_field {
  content : string;
  clip : option string;
  held : list key }.

Definition key_eqb (a b : key) : bool :=
  match a, b with
  | Enter, Enter | Tab, Tab | Backspace, Backspace | Cmd, Cmd
  | Ctrl, Ctrl | Alt, Alt | Shift, Shift => true
  | Char c, Char d => Ascii.eqb c d
  | _, _ => false
  end.

Fixpoint drop_last (s : string) : string :=
  match s with
  | EmptyString => EmptyString
  | String c EmptyString => EmptyString
  | String c s' => String c (drop_last s')
  end.

Definition step (paste_modifier : key) (e : event) (f : field) : option field :=
  match e with
  | Type_ c =>
      Some {| content := content f +:+ String c EmptyString;
              clip := clip f; held := held f |}
  | Copy s => Some {| content := content f; clip := Some s; held := held f |}
  | Press m => Some {| content := content f; clip := clip f;
                       held := m :: held f |}
  | Release m =>
      match held f with
      | m' :: rest => if key_eqb m m'
                      then Some {| content := content f; clip := clip f;
                                   held := rest |}
                      else None
      | [] => None
      end
  | Tap k =>
      match held f, k with
      | [], Backspace =>
          Some {| content := drop_last (content f); clip := clip f;
                  held := [] |}
      | [], Enter =>
          Some {| content := content f +:+ String (ascii_of_N 10) EmptyString;
                  clip := clip f; held := [] |}
      | [], Tab =>
          Some {| content := content f +:+ String (ascii_of_N 9) EmptyString;
                  clip := clip f; held := [] |}
      | [m], Char c =>
          if key_eqb m paste_modifier && Ascii.eqb c "v"
          then match clip f with
               | Some s => Some {| content := content f +:+ s;
                                   clip := clip f; held := held f |}
               | None => None
               end
          else None
      | _, _ => None
      end
  end.

Fixpoint receive (paste_modifier : key) (es : list event) (f : field)
    : option field :=
  match es with
  | [] => Some f
  | e :: es' =>
      match step paste_modifier e f with
      | Some f' => receive paste_modifier es' f'
      | None => None
      end
  end.

(** A field at rest in front of a typer: no key is down and the
    clipboard is the typer's. *)
Definition at_rest (t : typer) (text : string) : field :=
  {| content := text; clip := clipboard t; held := [] |}.

End TyperSpec.

Module ExecSpec.

Import Re TextTyper TyperSpec VoiceCommandProcessor.

(** A rule of the table is handled: whatever argument a match of it
    gives, [execute_command] returns [True] and only adds to the log. *)
Definition handled (rule : regex * string * arg) : Prop :=
  let '(pattern, action, a0) := rule in
  forall (a : arg) (len : nat) (t : typer),
    (is_match_placeholder a0 && (0 <? groups pattern)%nat = false /\ a = a0 \/
     is_match_placeholder a0 && (0 <? groups pattern)%nat = true /\
     exists n, a = ArgInt n) ->
    exists len' t' es,
      execute_command len (action, a) t = Some (true, len', t') /\
      extends t t' es.

End ExecSpec.

Module CaseSpec.

Import Re VoiceCommandProcessor.

(** A position of the matcher with the subject lower-cased. *)
Definition lower_state (st : mstate) : mstate :=
  {| prev := Py.lower_char <$> prev st;
     rest := Py.lower (rest st);
     group1 := Py.lower <$> group1 st |}.

(** The action [detect_command] detects, if any; the outer [option]
    is [None] when the call raises. *)
Definition action_of (result : option (string * arg) * string)
    : option string :=
  option_map fst (fst result).

Definition detected_action (text : string) : option (option string) :=
  option_map action_of (detect_command text).

(** [text.isascii()]: every code point is below 128. *)
Definition isascii (text : string) : bool :=
  forallb (fun c => (Py.code c <? 128)%N) (list_ascii_of_string text).

End CaseSpec.

(* ===================================================================== *)
(** * [app_context.py]                                                   *)
(* ===================================================================== *)

Module AppContextManager.

(** [get_preset_for_app]; [app_presets] maps bundle ids to preset
    names. *)
Definition get_preset_for_app (app_presets : gmap string string)
    (bundle_id : option string) (default : string) : string :=
  match bundle_id with
  | Some (String c s) =>
      match app_presets !! String c s with
      | Some preset => preset
      | None => default
      end
  | _ => default
  end.

Definition member (bundle_id : option string) (apps : list string) : bool :=
  match bundle_id with
  | Some (String c s) => existsb (String.eqb (String c s)) apps
  | _ => false
  end.

(** [is_code_editor] *)
Definition is_code_editor (bundle_id : option string) : bool :=
  member bundle_id
    [ "com.microsoft.VSCode"; "com.microsoft.VSCodeInsiders"; "dev.zed.Zed";
      "com.sublimetext.4"; "com.apple.dt.Xcode"; "com.jetbrains.intellij";
      "com.jetbrains.pycharm"; "com.cursor.Cursor"; "io.windsurf.Windsurf" ].

(** [is_terminal] *)
Definition is_terminal (bundle_id : option string) : bool :=
  member bundle_id
    [ "com.apple.Terminal"; "com.googlecode.iterm2"; "io.warp.Warp";
      "co.zeit.hyper"; "com.github.wez.wezterm" ].

(** [is_email_client] *)
Definition is_email_client (bundle_id : option string) : bool :=
  member bundle_id
    [ "com.apple.mail"; "com.microsoft.Outlook";
      "com.readdle.smartemail-Mac"; "com.google.Gmail" ].

End AppContextManager.

(* ===================================================================== *)
(** * [ui/overlay.py]                                                    *)
(* ===================================================================== *)

Module OverlayWindow.

Import Datetime.

(** The settings the overlay reads. *)
Record Settings := mk_settings {
  dictionary_enabled : bool;
  dictionary_auto_learn : bool;
  voice_commands_enabled : bool;
  ai_editor_enabled : bool;
  ai_editor_preset : string;
  snippets_enabled : bool;
  app_context_enabled : bool;
  app_presets : gmap string string }.

(** The dict built by [AppContextManager.get_context]. *)
Record app_context := mk_app_context {
  bundle_id : option string;
  name : option string;
  preset : string }.

Section Collaborators.

(** The recorder, the transcriber, the AI editor, the dictionary, the
    snippets, the voice commands, the frontmost application and the
    clocks are collaborators outside this development.  [C] is their
    joint state; a call reads and updates it, and [None] as a result
    stands for a raised [Exception]. *)
Context {C : Type}.

Record collaborators := mk_collaborators {
  recorder_start : C -> option unit * C;
  recorder_stop : C -> option (list Byte.byte) * C;
  transcribe : list Byte.byte -> C -> option string * C;
  dictionary_apply : string -> C -> option string * C;
  learn_from_correction : string -> string -> C -> option unit * C;
  detect_command :
    string -> C -> option (option (string * VoiceCommandProcessor.arg) * string) * C;
  execute_command :
    string * VoiceCommandProcessor.arg -> TextTyper.typer ->
    C -> option TextTyper.typer * C;
  set_last_typed_length : nat -> C -> C;
  edit : string -> string -> C -> option string * C;
  expand : string -> C -> option string * C;
  frontmost_app : C -> (option string * option string) * C;
  now : C -> datetime * C;                 (* datetime.now() *)
  stamp : C -> Float.float * C;            (* st_mtime of a written file *)
  elapsed : C -> QArith_base.Q * C         (* time.time() - start_time *) }.

Variable io : collaborators.
Variable settings : Settings.

(** The overlay with what it owns: the queue directory, the history
    database, the typer and its two flags.  Queue, database and typer
    are the embeddings above, whose calls return.  [pipelines] counts
    the threads running [_process_recording]. *)
Record overlay := mk_overlay {
  audio_queue : AudioQueue.directory;
  stats_db : TranscriptionDB.db;
  typer : TextTyper.typer;
  ext : C;
  _is_recording : bool;
  _is_processing : bool;
  _current_app_context : option app_context;
  pipelines : nat }.

(** Code that may raise: the result is [None] after a raise, and the
    state is the one reached by then. *)
Definition M (A : Type) : Type := overlay -> option A * overlay.

Definition ret {A} (a : A) : M A := fun w => (Some a, w).

Definition bind {A B} (m : M A) (f : A -> M B) : M B :=
  fun w => match m w with
           | (Some a, w') => f a w'
           | (None, w') => (None, w')
           end.

Notation "'do' x <- m ; k" := (bind m (fun x => k))
  (at level 10, x name, m at level 100, k at level 200).

Definition with_ext (w : overlay) (c : C) : overlay :=
  {| audio_queue := audio_queue w; stats_db := stats_db w; typer := typer w;
     ext := c; _is_recording := _is_recording w;
     _is_processing := _is_processing w;
     _current_app_context := _current_app_context w;
     pipelines := pipelines w |}.

(** A call on a collaborator that may raise, and one that does not. *)
Definition call {A} (f : C -> option A * C) : M A :=
  fun w => let '(a, c) := f (ext w) in (a, with_ext w c).

Definition read {A} (f : C -> A * C) : M A :=
  fun w => let '(a, c) := f (ext w) in (Some a, with_ext w c).

Definition with_queue (w : overlay) (d : AudioQueue.directory) : overlay :=
  {| audio_queue := d; stats_db := stats_db w; typer := typer w;
     ext := ext w; _is_recording := _is_recording w;
     _is_processing := _is_processing w;
     _current_app_context := _current_app_context w;
     pipelines := pipelines w |}.

Definition with_stats (w : overlay) (d : TranscriptionDB.db) : overlay :=
  {| audio_queue := audio_queue w; stats_db := d; typer := typer w;
     ext := ext w; _is_recording := _is_recording w;
     _is_processing := _is_processing w;
     _current_app_context := _current_app_context w;
     pipelines := pipelines w |}.

Definition with_typer (w : overlay) (t : TextTyper.typer) : overlay :=
  {| audio_queue := audio_queue w; stats_db := stats_db w; typer := t;
     ext := ext w; _is_recording := _is_recording w;
     _is_processing := _is_processing w;
     _current_app_context := _current_app_context w;
     pipelines := pipelines w |}.

(** [self.audio_queue.save_recording(...)] *)
Definition save (audio_data : list Byte.byte)
    (app_bundle_id app_name : option string) (preset : string)
    : M AudioQueue.PendingRecording :=
  do t <- read (now io) ;
  do mtime <- read (stamp io) ;
  fun w =>
    let '(r, d) := AudioQueue.save_recording (audio_queue w) t mtime
                     audio_data app_bundle_id app_name (Some preset) in
    (Some r, with_queue w d).

(** [self.stats_db.record(...)] *)
Definition record (raw_text : string) (edited_text : option string)
    (app_bundle_id app_name : option string) (preset : string) : M nat :=
  do duration <- read (elapsed io) ;
  do t <- read (now io) ;
  fun w =>
    let '(record_id, d) := TranscriptionDB.record (stats_db w) t raw_text
                             edited_text duration app_bundle_id app_name
                             (Some preset) in
    (Some record_id, with_stats w d).

(** [self.audio_queue.mark_completed(pending_recording)] *)
Definition mark_completed (r : AudioQueue.PendingRecording) : M unit :=
  fun w => (Some tt, with_queue w (AudioQueue.mark_completed (audio_queue w) r)).

(** The body of the [try] of [_process_recording] from step 5 on. *)
Definition edit_and_type (pending_recording : AudioQueue.PendingRecording)
    (raw_text text : string) (app_bundle_id app_name : option string)
    (preset : string) : M unit :=
  (* 5. AI editing *)
  do text <- (if ai_editor_enabled settings
           then call (edit io text preset) else ret text) ;
  (* 6. snippet expansion *)
  do text <- (if snippets_enabled settings
           then do expanded <- call (expand io text) ;
                ret (if String.eqb expanded text then text else expanded)
           else ret text) ;
  (* 7. type the text *)
  do _ <- (fun w => (Some tt, with_typer w (TextTyper.type_text text "auto"
                                           (typer w)))) ;
  (* track for the command "delete that" *)
  do _ <- read (fun c => (tt, set_last_typed_length io (Py.len text) c)) ;
  (* auto-learn from corrections if enabled *)
  do _ <- (if dictionary_auto_learn settings && negb (String.eqb text raw_text)
        then call (learn_from_correction io raw_text text) else ret tt) ;
  (* 8. record stats *)
  do _ <- record raw_text
         (if String.eqb text raw_text then None else Some text)
         app_bundle_id app_name preset ;
  (* mark the recording as processed *)
  mark_completed pending_recording.

(** The body of the [try] of [_process_recording]. *)
Definition try_body (app_bundle_id app_name : option string)
    (preset : string) : M unit :=
  do audio_data <- call (recorder_stop io) ;
  match audio_data with
  | [] => (* no audio recorded *) ret tt
  | _ =>
      (* 1. save to the queue *)
      do pending_recording <- save audio_data app_bundle_id app_name preset ;
      (* 2. transcribe *)
      do text <- call (transcribe io audio_data) ;
      match text with
      | EmptyString => (* no speech: keep the recording *) ret tt
      | _ =>
          let raw_text := text in
          (* 3. personal dictionary *)
          do text <- (if dictionary_enabled settings
                   then call (dictionary_apply io text) else ret text) ;
          (* 4. voice commands *)
          if voice_commands_enabled settings
          then
            do detected <- call (detect_command io text) ;
            match detected with
            | (Some command, remaining_text) =>
                do _ <- (fun w =>
                        let '(t, c) := execute_command io command (typer w)
                                         (ext w) in
                        match t with
                        | Some t' => (Some tt, with_typer (with_ext w c) t')
                        | None => (None, with_ext w c)
                        end) ;
                match remaining_text with
                | EmptyString =>
                    (* pure command: still record it *)
                    do _ <- record raw_text
                           (Some ("[Command: " +:+ fst command +:+ "]"))
                           app_bundle_id app_name preset ;
                    mark_completed pending_recording
                | _ =>
                    edit_and_type pending_recording raw_text remaining_text
                                  app_bundle_id app_name preset
                end
            | (None, _) =>
                edit_and_type pending_recording raw_text text
                              app_bundle_id app_name preset
            end
          else
            edit_and_type pending_recording raw_text text
                          app_bundle_id app_name preset
      end
  end.

(** [_process_recording]: the [except] clause swallows the exception
    and the [finally] clause clears the flag; the thread ends. *)
Definition _process_recording (w : overlay) : overlay :=
  let context := _current_app_context w in
  let app_bundle_id := match context with
                       | Some ctx => bundle_id ctx | None => None end in
  let app_name := match context with
                  | Some ctx => name ctx | None => None end in
  let preset := match context with
                | Some ctx => preset ctx
                | None => ai_editor_preset settings end in
  let '(_, w1) := try_body app_bundle_id app_name preset w in
  {| audio_queue := audio_queue w1; stats_db := stats_db w1;
     typer := typer w1; ext := ext w1;
     _is_recording := _is_recording w1;
     _is_processing := false;
     _current_app_context := _current_app_context w1;
     pipelines := pred (pipelines w1) |}.

(** [_on_activate]; an exception of [recorder.start()] leaves the
    handler after the flag is set. *)
Definition _on_activate (w : overlay) : overlay :=
  if _is_processing w || _is_recording w then w
  else
    (* capture the app context at the start of the recording *)
    let '(context, c) :=
      if app_context_enabled settings
      then let '((b, n), c) := frontmost_app io (ext w) in
           (Some {| bundle_id := b; name := n;
                    preset := AppContextManager.get_preset_for_app
                                (app_presets settings) b "default" |}, c)
      else (None, ext w) in
    let '(_, c') := recorder_start io c in
    {| audio_queue := audio_queue w; stats_db := stats_db w;
       typer := typer w; ext := c';
       _is_recording := true;
       _is_processing := _is_processing w;
       _current_app_context := context;
       pipelines := pipelines w |}.

(** [_on_deactivate]: the pipeline is started in a thread of its own. *)
Definition _on_deactivate (w : overlay) : overlay :=
  if negb (_is_recording w) then w
  else
    {| audio_queue := audio_queue w; stats_db := stats_db w;
       typer := typer w; ext := ext w;
       _is_recording := false;
       _is_processing := true;
       _current_app_context := _current_app_context w;
       pipelines := S (pipelines w) |}.

(** [_on_click] *)
Definition _on_click (w : overlay) : overlay :=
  if _is_processing w then w
  else if _is_recording w then _on_deactivate w
  else _on_activate w.

(** [_process_pending_recording], the [process_fn] the overlay hands
    to the queue; its state is the history database with the
    collaborators. *)
Definition _process_pending_recording
    (recording : AudioQueue.PendingRecording) (audio_data : list Byte.byte)
    (s : TranscriptionDB.db * C) : AudioQueue.outcome * (TranscriptionDB.db * C) :=
  let '(db, c) := s in
  match transcribe io audio_data c with
  | (None, c) => (AudioQueue.Failure, (db, c))
  | (Some EmptyString, c) =>
      (* no speech: consider it processed *) (AudioQueue.Success, (db, c))
  | (Some text, c) =>
      let raw_text := text in
      match (if dictionary_enabled settings
             then dictionary_apply io text c else (Some text, c)) with
      | (None, c) => (AudioQueue.Failure, (db, c))
      | (Some text, c) =>
          let preset := Py.or_else (AudioQueue.preset recording)
                                   (ai_editor_preset settings) in
          match (if ai_editor_enabled settings
                 then edit io text preset c else (Some text, c)) with
          | (None, c) => (AudioQueue.Failure, (db, c))
          | (Some text, c) =>
              match (if snippets_enabled settings
                     then expand io text c else (Some text, c)) with
              | (None, c) => (AudioQueue.Failure, (db, c))
              | (Some text, c) =>
                  (* approximate duration: 16 kHz, 16-bit mono *)
                  let duration :=
                    QArith_base.Qmake (Z.of_nat (length audio_data)) 32000 in
                  let '(t, c) := now io c in
                  let '(_, db') :=
                    TranscriptionDB.record db t raw_text
                      (if String.eqb text raw_text then None else Some text)
                      duration
                      (AudioQueue.app_bundle_id recording)
                      (AudioQueue.app_name recording) (Some preset) in
                  (AudioQueue.Success, (db', c))
              end
          end
      end
  end.

End Collaborators.

End OverlayWindow.

Module OverlaySpec.

Import OverlayWindow.

(** What happens to the overlay, one handler or one end of a pipeline
    at a time. *)
Inductive event := Click | HotkeyDown | HotkeyUp | PipelineRuns.

Section Handling.

Context {C : Type}.
Variable io : @collaborators C.
Variable settings : Settings.

(** [PipelineRuns] is the thread started by [_on_deactivate] doing its
    work; it takes place only when such a thread exists. *)
Definition handle (w : overlay) (e : event) : overlay :=
  match e with
  | Click => _on_click io settings w
  | HotkeyDown => _on_activate io settings w
  | HotkeyUp => _on_deactivate w
  | PipelineRuns =>
      match pipelines w with
      | O => w
      | S _ => _process_recording io settings w
      end
  end.

Definition run (w : overlay) (es : list event) : overlay :=
  foldl handle w es.

(** The flags exclude each other, and [_is_processing] is set exactly
    while one pipeline thread exists. *)
Definition consistent (w : @overlay C) : Prop :=
  _is_recording w && _is_processing w = false /\
  pipelines w = (if _is_processing w then 1 else 0).

(** The app context under which a pipeline files its recording. *)
Definition filed_bundle_id (w : @overlay C) : option string :=
  match _current_app_context w with Some ctx => bundle_id ctx | None => None end.

Definition filed_name (w : @overlay C) : option string :=
  match _current_app_context w with Some ctx => name ctx | None => None end.

Definition filed_preset (w : @overlay C) : string :=
  match _current_app_context w with
  | Some ctx => preset ctx
  | None => ai_editor_preset settings
  end.

(** A history row that carries the application and the preset of a
    pending recording. *)
Definition row_of (r : AudioQueue.PendingRecording)
    (row : TranscriptionDB.row) : Prop :=
  TranscriptionDB.app_bundle_id row = AudioQueue.app_bundle_id r /\
  TranscriptionDB.app_name row = AudioQueue.app_name r /\
  TranscriptionDB.preset_used row
  = Some (Py.or_else (AudioQueue.preset r) (ai_editor_preset settings)).

(** A history row that carries what a recording of the live pipeline
    was filed under. *)
Definition filed_as (r : AudioQueue.PendingRecording)
    (row : TranscriptionDB.row) : Prop :=
  TranscriptionDB.app_bundle_id row = AudioQueue.app_bundle_id r /\
  TranscriptionDB.app_name row = AudioQueue.app_name r /\
  TranscriptionDB.preset_used row = AudioQueue.preset r.

(** The flags, the captured context and the thread count are as
    before. *)
Definition frame (w w' : @overlay C) : Prop :=
  _is_recording w' = _is_recording w /\
  _is_processing w' = _is_processing w /\
  _current_app_context w' = _current_app_context w /\
  pipelines w' = pipelines w.

(** Queue and history are as before. *)
Definition untouched (w w' : @overlay C) : Prop :=
  audio_queue w' = audio_queue w /\ stats_db w' = stats_db w /\ frame w w'.

(** Recording [r] has left the queue and one row was added to the
    history for it. *)
Definition completed (r : AudioQueue.PendingRecording)
    (w w' : @overlay C) : Prop :=
  audio_queue w' = AudioQueue.mark_completed (audio_queue w) r /\
  (exists row,
     TranscriptionDB.transcriptions (stats_db w')
     = (TranscriptionDB.transcriptions (stats_db w) ++ [row])%list /\
     filed_as r row) /\
  frame w w'.

(** How the rest of a pipeline ends once [r] is saved: it raises and
    nothing is touched, or it ends normally with [r] completed. *)
Definition settles (r : AudioQueue.PendingRecording)
    (w : @overlay C) (end_ : option unit * @overlay C) : Prop :=
  (fst end_ = None /\ untouched w (snd end_)) \/
  (fst end_ = Some tt /\ completed r w (snd end_)).

End Handling.

(** An overlay as [__init__] leaves it. *)
Definition initial {C : Type} (d : AudioQueue.directory)
    (db : TranscriptionDB.db) (t : TextTyper.typer) (c : C) : @overlay C :=
  {| audio_queue := d; stats_db := db; typer := t; ext := c;
     _is_recording := false; _is_processing := false;
     _current_app_context := None; pipelines := 0 |}.

(** Collaborators that always succeed and say nothing, for examples. *)
Definition silent : @collaborators unit :=
  {| recorder_start := fun c => (Some tt, c);
     recorder_stop := fun c => (Some [Byte.x01], c);
     transcribe := fun _ c => (Some "hello world", c);
     dictionary_apply := fun text c => (Some text, c);
     learn_from_correction := fun _ _ c => (Some tt, c);
     detect_command := fun text c => (Some (None, text), c);
     execute_command := fun _ t c => (Some t, c);
     set_last_typed_length := fun _ c => c;
     edit := fun text _ c => (Some text, c);
     expand := fun text c => (Some text, c);
     frontmost_app := fun c => ((None, None), c);
     now := fun c => (StatsSpec.noon, c);
     stamp := fun c => (QueueSpec.seconds 1000, c);
     elapsed := fun c => (StatsSpec.two_seconds, c) |}.

Definition plain_settings : Settings :=
  {| dictionary_enabled := true; dictionary_auto_learn := false;
     voice_commands_enabled := true; ai_editor_enabled := true;
     ai_editor_preset := "default"; snippets_enabled := true;
     app_context_enabled := false; app_presets := ∅ |}.

End OverlaySpec.

(* ===================================================================== *)
(** * Facts about strings and their lexicographic order                  *)
(* ===================================================================== *)

Section StringOrder.

Import Datetime.

Lemma string_compare_refl (s : string) : (s ?= s) = Eq.
Proof.
  induction s as [|c s IH]; simpl; [reflexivity|].
  unfold Ascii.compare. rewrite N.compare_refl. exact IH.
Qed.

Lemma string_compare_eq (a b : string) : (a ?= b) = Eq <-> a = b.
Proof.
  split; [apply String.compare_eq_iff | intros ->; apply string_compare_refl].
Qed.

(** Comparing two concatenations whose heads have the same length. *)
Lemma string_compare_app (a1 a2 b1 b2 : string) :
  String.length a1 = String.length a2 ->
  (a1 +:+ b1 ?= a2 +:+ b2) = lex (a1 ?= a2) (b1 ?= b2).
Proof.
  revert a2. induction a1 as [|c a1 IH]; intros [|c2 a2] Hlen;
    simpl in *; try discriminate; [reflexivity|].
  destruct (Ascii.compare c c2); simpl; auto.
Qed.

Lemma string_compare_app_same (s a b : string) :
  (s +:+ a ?= s +:+ b) = (a ?= b).
Proof.
  rewrite string_compare_app by reflexivity.
  now rewrite string_compare_refl.
Qed.

Lemma string_length_app (a b : string) :
  String.length (a +:+ b) = String.length a + String.length b.
Proof. induction a; simpl; auto. Qed.

Lemma string_le_compare (a b : string) : String.le a b <-> (a ?= b) <> Gt.
Proof.
  unfold String.le, String.leb. destruct (a ?= b); simpl; split; intros H;
    try exact I; try discriminate; try (exfalso; apply H; reflexivity);
    try (exfalso; exact H).
Qed.

End StringOrder.

(* ===================================================================== *)
(** * Facts about [datetime] and its two text formats                    *)
(* ===================================================================== *)

Section DatetimeFacts.

Import Datetime.
Local Open Scope Z_scope.

Lemma lex_Eq (c1 c2 : comparison) : lex c1 c2 = Eq <-> c1 = Eq /\ c2 = Eq.
Proof. destruct c1, c2; simpl; intuition congruence. Qed.

Lemma digit_compare (p q : Z) :
  0 <= p <= 9 -> 0 <= q <= 9 ->
  Ascii.compare (digit p) (digit q) = (p ?= q).
Proof.
  intros Hp Hq. unfold Ascii.compare, digit.
  rewrite !N_ascii_embedding by lia.
  rewrite <- N2Z.inj_compare, !N2Z.inj_add, !Z2N.id by lia.
  apply Z.add_compare_mono_l.
Qed.

Lemma zpad_length (w : nat) (n : Z) : String.length (zpad w n) = w.
Proof. revert n. induction w; intros n; simpl; auto. Qed.

Lemma compare_div_mod (a b p : Z) :
  0 < p ->
  (a ?= b) = lex (a / p ?= b / p) (a mod p ?= b mod p).
Proof.
  intros Hp.
  pose proof (Z.div_mod a p ltac:(lia)) as Ha.
  pose proof (Z.div_mod b p ltac:(lia)) as Hb.
  pose proof (Z.mod_pos_bound a p Hp) as Ba.
  pose proof (Z.mod_pos_bound b p Hp) as Bb.
  destruct (Z.compare_spec (a / p) (b / p)) as [E|L|G]; simpl.
  - destruct (Z.compare_spec (a mod p) (b mod p)) as [E'|L'|G'].
    + apply Z.compare_eq_iff. lia.
    + apply Z.compare_lt_iff. nia.
    + apply Z.compare_gt_iff. nia.
  - apply Z.compare_lt_iff. nia.
  - apply Z.compare_gt_iff. nia.
Qed.

(** On numbers that fit the width, the padded decimals compare as the
    numbers do. *)
Lemma zpad_compare (w : nat) (a b : Z) :
  0 <= a < 10 ^ Z.of_nat w -> 0 <= b < 10 ^ Z.of_nat w ->
  (zpad w a ?= zpad w b)%string = (a ?= b).
Proof.
  revert a b. induction w as [|w IH]; intros a b Ha Hb.
  - simpl in *. symmetry. apply Z.compare_eq_iff. lia.
  - assert (Hp : 0 < 10 ^ Z.of_nat w) by (apply Z.pow_pos_nonneg; lia).
    assert (Hs : 10 ^ Z.of_nat (S w) = 10 * 10 ^ Z.of_nat w).
    { rewrite Nat2Z.inj_succ, Z.pow_succ_r by lia. reflexivity. }
    rewrite Hs in Ha, Hb.
    cbn [zpad String.compare].
    rewrite digit_compare.
    + rewrite IH by (apply Z.mod_pos_bound; lia).
      rewrite (compare_div_mod a b _ Hp). unfold lex.
      destruct (a / 10 ^ Z.of_nat w ?= b / 10 ^ Z.of_nat w); reflexivity.
    + split; [apply Z.div_pos; lia|].
      assert (a / 10 ^ Z.of_nat w < 10) by (apply Z.div_lt_upper_bound; lia). lia.
    + split; [apply Z.div_pos; lia|].
      assert (b / 10 ^ Z.of_nat w < 10) by (apply Z.div_lt_upper_bound; lia). lia.
Qed.

Lemma valid_bounds (t : datetime) :
  valid t ->
  1 <= year t <= 9999 /\ 1 <= month t <= 12 /\
  1 <= day t <= days_in_month (year t) (month t) /\
  0 <= hour t < 24 /\ 0 <= minute t < 60 /\ 0 <= second t < 60 /\
  0 <= microsecond t < 1000000.
Proof.
  unfold valid, validb. rewrite !andb_true_iff.
  rewrite !Z.leb_le, !Z.ltb_lt. tauto.
Qed.

Lemma days_in_month_le (y m : Z) : days_in_month y m <= 31.
Proof.
  unfold days_in_month.
  repeat match goal with |- context [if ?b then _ else _] => destruct b end; lia.
Qed.

Ltac split_fields :=
  repeat first
    [ rewrite string_compare_app_same
    | rewrite string_compare_app by (rewrite ?zpad_length; reflexivity) ].

Ltac fit_width :=
  match goal with
  | |- context [10 ^ Z.of_nat ?w] =>
      let p := eval vm_compute in (10 ^ Z.of_nat w) in
      change (10 ^ Z.of_nat w) with p; lia
  end.

(** The recording id orders valid clock readings as the calendar does. *)
Lemma strftime_id_compare (a b : datetime) :
  valid a -> valid b ->
  (strftime_id a ?= strftime_id b)%string = compare a b.
Proof.
  intros Ha Hb. apply valid_bounds in Ha, Hb.
  pose proof (days_in_month_le (year a) (month a)).
  pose proof (days_in_month_le (year b) (month b)).
  unfold strftime_id, compare. split_fields.
  rewrite !zpad_compare by fit_width. reflexivity.
Qed.

Lemma strftime_id_length (t : datetime) : String.length (strftime_id t) = 22%nat.
Proof.
  unfold strftime_id. rewrite !string_length_app, !zpad_length. reflexivity.
Qed.

(** So does the ISO text stored in the history table. *)
Lemma isoformat_compare (a b : datetime) :
  valid a -> valid b ->
  (isoformat a ?= isoformat b)%string = compare a b.
Proof.
  intros Ha Hb. apply valid_bounds in Ha, Hb.
  pose proof (days_in_month_le (year a) (month a)).
  pose proof (days_in_month_le (year b) (month b)).
  unfold isoformat, compare. split_fields.
  rewrite !zpad_compare by fit_width.
  do 6 f_equal.
  destruct (Z.eqb_spec (microsecond a) 0) as [Ea|Ea];
    destruct (Z.eqb_spec (microsecond b) 0) as [Eb|Eb].
  - rewrite Ea, Eb. reflexivity.
  - rewrite Ea. change (EmptyString ?= _)%string with Lt.
    symmetry. apply Z.compare_lt_iff. lia.
  - rewrite Eb. change (_ ?= EmptyString)%string with Gt.
    symmetry. apply Z.compare_gt_iff. lia.
  - split_fields. apply zpad_compare; fit_width.
Qed.

Lemma compare_Eq_eq (a b : datetime) : compare a b = Eq -> a = b.
Proof.
  unfold compare. rewrite !lex_Eq, !Z.compare_eq_iff.
  destruct a, b; simpl. intuition congruence.
Qed.

Lemma compare_refl (a : datetime) : compare a a = Eq.
Proof. unfold compare. rewrite !Z.compare_refl. reflexivity. Qed.

End DatetimeFacts.

(* ===================================================================== *)
(** * The recording queue: listing                                       *)
(* ===================================================================== *)

Section Listing.

Import Datetime AudioQueue QueueSpec.

Global Instance path_le_total : Total path_le.
Proof. intros a b. unfold path_le. apply (total String.le). Qed.

Global Instance path_le_trans : Transitive path_le.
Proof. intros a b c. unfold path_le. apply (transitivity (R := String.le)). Qed.

Lemma load_id d stem r : load d stem = Some r -> id r = stem.
Proof.
  unfold load. destruct (content <$> jsons d !! stem) as [[m|]|]; try discriminate.
  case_bool_decide; [|discriminate]. intros [= <-]. reflexivity.
Qed.

Lemma load_unlink_json_ne d k stem :
  k <> stem -> load (unlink_json stem d) k = load d k.
Proof.
  intros Hne. unfold load, unlink_json; simpl.
  rewrite lookup_delete_ne by congruence. reflexivity.
Qed.

Lemma orphan_unlink_json_ne d k stem :
  k <> stem -> orphan (unlink_json stem d) k = orphan d k.
Proof.
  intros Hne. unfold orphan, unlink_json; simpl.
  rewrite lookup_delete_ne by congruence. reflexivity.
Qed.

Lemma omap_ext_in {A B} (f g : A -> option B) (l : list A) :
  (forall x, x ∈ l -> f x = g x) -> omap f l = omap g l.
Proof.
  induction l as [|x l IH]; intros H; csimpl; [reflexivity|].
  rewrite (H x) by (left).
  rewrite IH; [reflexivity|]. intros y Hy. apply H. now right.
Qed.

(** The loop returns, in path order, the recordings that load. *)
Lemma get_pending_loop_recordings (paths : list string) (d : directory) :
  NoDup paths ->
  recordings (get_pending_loop paths d) = omap (load d) paths.
Proof.
  revert d. induction paths as [|stem rest IH]; intros d Hnd; [reflexivity|].
  apply NoDup_cons in Hnd as [Hnotin Hnd].
  cbn [get_pending_loop]. csimpl. unfold load at 1.
  destruct (content <$> jsons d !! stem) as [[m|]|] eqn:E.
  - case_bool_decide as Hw; simpl.
    + rewrite IH by assumption. reflexivity.
    + rewrite IH by assumption. apply omap_ext_in.
      intros k Hk. apply load_unlink_json_ne. intros ->. contradiction.
  - simpl. now rewrite IH.
  - simpl. now rewrite IH.
Qed.

Lemma get_pending_loop_wavs (paths : list string) (d : directory) :
  wavs (dir_after (get_pending_loop paths d)) = wavs d.
Proof.
  revert d. induction paths as [|stem rest IH]; intros d; [reflexivity|].
  cbn [get_pending_loop].
  destruct (content <$> jsons d !! stem) as [[m|]|]; simpl; auto.
  case_bool_decide; simpl; auto. now rewrite IH.
Qed.

(** The loop deletes exactly the orphaned metadata it visits. *)
Lemma get_pending_loop_jsons (paths : list string) (d : directory) (k : string) :
  jsons (dir_after (get_pending_loop paths d)) !! k
  = if bool_decide (k ∈ paths) && orphan d k then None else jsons d !! k.
Proof.
  revert d. induction paths as [|stem rest IH]; intros d.
  - cbn [get_pending_loop dir_after].
    rewrite bool_decide_eq_false_2; [reflexivity|]. apply not_elem_of_nil.
  - assert (Hne : forall b, k <> stem ->
              (if bool_decide (k ∈ rest) && b then None else jsons d !! k)
              = (if bool_decide (k ∈ stem :: rest) && b then None else jsons d !! k)).
    { intros b Hne.
      rewrite (bool_decide_ext (k ∈ stem :: rest) (k ∈ rest)); [reflexivity|].
      rewrite elem_of_cons. tauto. }
    assert (Hkeep : orphan d stem = false ->
              jsons (dir_after (get_pending_loop rest d)) !! k
              = (if bool_decide (k ∈ stem :: rest) && orphan d k
                 then None else jsons d !! k)).
    { intros Ho. rewrite IH. destruct (decide (k = stem)) as [->|Hk].
      - rewrite Ho, !andb_false_r. reflexivity.
      - now apply Hne. }
    cbn [get_pending_loop]. unfold orphan in Hkeep at 1.
    destruct (content <$> jsons d !! stem) as [[m|]|] eqn:E;
      [case_bool_decide as Hw|..]; cbn [dir_after]; try (now apply Hkeep).
    rewrite IH. destruct (decide (k = stem)) as [->|Hk].
    + rewrite (bool_decide_eq_true_2 (stem ∈ stem :: rest)) by left.
      unfold orphan at 2.
      rewrite E, (bool_decide_eq_false_2 (is_Some (wavs d !! stem))) by assumption.
      cbn [negb andb]. unfold unlink_json; cbn [jsons]. rewrite lookup_delete_eq.
      destruct (bool_decide (stem ∈ rest) && _); reflexivity.
    + rewrite orphan_unlink_json_ne by assumption.
      unfold unlink_json; cbn [jsons]. rewrite lookup_delete_ne by congruence.
      now apply Hne.
Qed.

(** A warning is printed only for metadata that does not load. *)
Lemma get_pending_loop_warnings (paths : list string) (d : directory) (k : string) :
  NoDup paths ->
  k ∈ warnings (get_pending_loop paths d) <->
  k ∈ paths /\ forall m, content <$> jsons d !! k <> Some (Loadable m).
Proof.
  revert d. induction paths as [|stem rest IH]; intros d Hnd.
  - cbn. rewrite !elem_of_nil. tauto.
  - apply NoDup_cons in Hnd as [Hnotin Hnd].
    cbn [get_pending_loop].
    destruct (content <$> jsons d !! stem) as [[m|]|] eqn:E;
      [case_bool_decide as Hw|..]; cbn [warnings];
      rewrite ?elem_of_cons, IH by assumption.
    + split; [intros [? ?]; auto|].
      intros [[->|Hin] Hk]; [exfalso; eapply Hk; eauto|auto].
    + unfold unlink_json; cbn [jsons]. split.
      * intros [Hin Hk]. assert (k <> stem) by congruence.
        rewrite lookup_delete_ne in Hk by congruence. auto.
      * intros [[->|Hin] Hk]; [exfalso; eapply Hk; eauto|].
        assert (k <> stem) by congruence.
        rewrite lookup_delete_ne by congruence. auto.
    + split.
      * intros [->|[? ?]]; [|auto]. split; [auto|]. rewrite E. congruence.
      * intros [[->|Hin] Hk]; auto.
    + split.
      * intros [->|[? ?]]; [|auto]. split; [auto|]. rewrite E. congruence.
      * intros [[->|Hin] Hk]; auto.
Qed.

Lemma NoDup_sorted_glob d : NoDup (sorted_glob d).
Proof.
  unfold sorted_glob, glob_json. rewrite merge_sort_Permutation.
  apply NoDup_elements.
Qed.

Lemma elem_of_sorted_glob d k : k ∈ sorted_glob d <-> is_Some (jsons d !! k).
Proof.
  unfold sorted_glob. rewrite merge_sort_Permutation.
  unfold glob_json. rewrite elem_of_elements. apply elem_of_dom.
Qed.

Lemma sorted_glob_sorted d : StronglySorted path_le (sorted_glob d).
Proof. apply StronglySorted_merge_sort; apply _. Qed.

Lemma load_Some_glob d k r : load d k = Some r -> k ∈ sorted_glob d.
Proof.
  unfold load. rewrite elem_of_sorted_glob.
  destruct (jsons d !! k); [eauto|discriminate].
Qed.

(** [get_pending] returns exactly the recordings that load. *)
Lemma elem_of_get_pending d r :
  r ∈ recordings (get_pending d) <-> load d (id r) = Some r.
Proof.
  unfold get_pending.
  rewrite get_pending_loop_recordings by apply NoDup_sorted_glob.
  rewrite list_elem_of_omap. split.
  - intros (k & Hk & Hl). now rewrite (load_id _ _ _ Hl).
  - intros Hl. exists (id r). split; [|exact Hl]. eapply load_Some_glob; eauto.
Qed.

Lemma get_pending_ids_sublist d :
  map id (recordings (get_pending d)) `sublist_of` sorted_glob d.
Proof.
  unfold get_pending.
  rewrite get_pending_loop_recordings by apply NoDup_sorted_glob.
  induction (sorted_glob d) as [|k l IH]; csimpl; [constructor|].
  destruct (load d k) as [r|] eqn:E; csimpl.
  - rewrite (load_id _ _ _ E). now constructor.
  - now constructor.
Qed.

Lemma NoDup_get_pending_ids d : NoDup (map id (recordings (get_pending d))).
Proof.
  eapply sublist_NoDup; [apply NoDup_sorted_glob|apply get_pending_ids_sublist].
Qed.

Lemma StronglySorted_sublist {A} (R : relation A) (l1 l2 : list A) :
  l1 `sublist_of` l2 -> StronglySorted R l2 -> StronglySorted R l1.
Proof.
  induction 1 as [|x l1 l2 Hs IH|x l1 l2 Hs IH]; intros Hl2.
  - constructor.
  - apply StronglySorted_inv in Hl2 as [Hl2 Hx]. constructor; [auto|].
    rewrite Forall_forall in Hx |- *. intros y Hy. apply Hx.
    exact (sublist_subseteq _ _ Hs y Hy).
  - apply StronglySorted_inv in Hl2 as [Hl2 _]. auto.
Qed.

(** File-name order is id order on ids of one length. *)
Lemma path_le_same_length (a b : string) :
  String.length a = String.length b -> path_le a b <-> String.le a b.
Proof.
  intros Hlen. unfold path_le. rewrite !string_le_compare.
  rewrite string_compare_app by assumption.
  rewrite string_compare_refl. destruct (a ?= b)%string; simpl; tauto.
Qed.

Lemma StronglySorted_impl_in {A} (R1 R2 : relation A) (l : list A) :
  (forall x y, x ∈ l -> y ∈ l -> R1 x y -> R2 x y) ->
  StronglySorted R1 l -> StronglySorted R2 l.
Proof.
  induction l as [|x l IH]; intros Himp Hs; [constructor|].
  apply StronglySorted_inv in Hs as [Hs Hx]. constructor.
  - apply IH; [|exact Hs]. intros y z Hy Hz. apply Himp; now right.
  - rewrite Forall_forall in Hx |- *. intros y Hy.
    apply Himp; [left|now right|auto].
Qed.

End Listing.

(* ===================================================================== *)
(** * The recording queue: what the operations keep                      *)
(* ===================================================================== *)

Section Keeping.

Import Datetime AudioQueue QueueSpec.

Lemma load_orphan_false d k r : load d k = Some r -> orphan d k = false.
Proof.
  unfold load, orphan.
  destruct (content <$> jsons d !! k) as [[m|]|]; try discriminate.
  case_bool_decide; [reflexivity|discriminate].
Qed.

(** Listing changes no file of a recording that loads. *)
Lemma get_pending_keeps d k :
  orphan d k = false ->
  wavs (dir_after (get_pending d)) !! k = wavs d !! k /\
  jsons (dir_after (get_pending d)) !! k = jsons d !! k.
Proof.
  intros Ho. unfold get_pending.
  rewrite get_pending_loop_wavs, get_pending_loop_jsons, Ho, andb_false_r.
  split; reflexivity.
Qed.

Lemma load_ext d1 d2 k :
  wavs d1 !! k = wavs d2 !! k -> jsons d1 !! k = jsons d2 !! k ->
  load d1 k = load d2 k.
Proof. intros Hw Hj. unfold load. rewrite Hw, Hj. reflexivity. Qed.

Lemma stored_load d r audio : stored d r audio -> load d (id r) = Some r.
Proof.
  intros [Hw Hj]. unfold load. rewrite Hj, Hw.
  rewrite bool_decide_eq_true_2 by eauto. destruct r; reflexivity.
Qed.

Lemma stored_ext d1 d2 r audio :
  wavs d2 !! id r = wavs d1 !! id r -> jsons d2 !! id r = jsons d1 !! id r ->
  stored d1 r audio -> stored d2 r audio.
Proof. unfold stored. intros -> ->. auto. Qed.

Lemma mark_completed_wavs d r k :
  wavs (mark_completed d r) !! k
  = if bool_decide (k = id r) then None else wavs d !! k.
Proof.
  unfold mark_completed, unlink_json, unlink_wav; cbn [wavs].
  case_bool_decide as E; [subst; apply lookup_delete_eq|].
  apply lookup_delete_ne. congruence.
Qed.

Lemma mark_completed_jsons d r k :
  jsons (mark_completed d r) !! k
  = if bool_decide (k = id r) then None else jsons d !! k.
Proof.
  unfold mark_completed, unlink_json, unlink_wav; cbn [jsons].
  case_bool_decide as E; [subst; apply lookup_delete_eq|].
  apply lookup_delete_ne. congruence.
Qed.

Lemma foldl_mark_completed_wavs rs d k :
  wavs (foldl mark_completed d rs) !! k
  = if bool_decide (k ∈ map id rs) then None else wavs d !! k.
Proof.
  revert d. induction rs as [|r rs IH]; intros d; cbn [foldl map].
  - rewrite bool_decide_eq_false_2; [reflexivity|apply not_elem_of_nil].
  - rewrite IH, mark_completed_wavs.
    repeat case_bool_decide; try reflexivity;
      rewrite elem_of_cons in *; exfalso; tauto.
Qed.

Lemma foldl_mark_completed_jsons rs d k :
  jsons (foldl mark_completed d rs) !! k
  = if bool_decide (k ∈ map id rs) then None else jsons d !! k.
Proof.
  revert d. induction rs as [|r rs IH]; intros d; cbn [foldl map].
  - rewrite bool_decide_eq_false_2; [reflexivity|apply not_elem_of_nil].
  - rewrite IH, mark_completed_jsons.
    repeat case_bool_decide; try reflexivity;
      rewrite elem_of_cons in *; exfalso; tauto.
Qed.

(** [save_recording] stores what it returns. *)
Lemma save_recording_stored d now mtime audio bundle name pres :
  let '(r, d') := save_recording d now mtime audio bundle name pres in
  stored d' r audio /\ id r = strftime_id now.
Proof.
  unfold save_recording, stored; cbn.
  rewrite !lookup_insert_eq. auto.
Qed.

(** ... and leaves the files of every other id alone. *)
Lemma save_recording_other d now mtime audio bundle name pres k :
  k <> strftime_id now ->
  let d' := snd (save_recording d now mtime audio bundle name pres) in
  wavs d' !! k = wavs d !! k /\ jsons d' !! k = jsons d !! k.
Proof.
  intros Hne. unfold save_recording; cbn.
  rewrite !lookup_insert_ne by congruence. auto.
Qed.

(** [cleanup_old] removes exactly the pairs whose metadata is older than
    the cut-off. *)
Lemma cleanup_loop_lookup paths c d k :
  let d' := snd (cleanup_loop paths c d) in
  let old := match jsons d !! k with
             | Some f => Float.ltb (st_mtime f) c | None => false end in
  wavs d' !! k = (if bool_decide (k ∈ paths) && old then None else wavs d !! k) /\
  jsons d' !! k = (if bool_decide (k ∈ paths) && old then None else jsons d !! k).
Proof.
  revert d. induction paths as [|stem rest IH]; intros d; cbn zeta.
  - cbn [cleanup_loop snd].
    rewrite bool_decide_eq_false_2 by apply not_elem_of_nil. auto.
  - assert (Hne : forall (b : bool) {A} (x y : A), k <> stem ->
              (if bool_decide (k ∈ rest) && b then x else y)
              = (if bool_decide (k ∈ stem :: rest) && b then x else y)).
    { intros b A x y Hne.
      rewrite (bool_decide_ext (k ∈ stem :: rest) (k ∈ rest)); [reflexivity|].
      rewrite elem_of_cons. tauto. }
    cbn [cleanup_loop].
    destruct (jsons d !! stem) as [f|] eqn:E.
    + destruct (Float.ltb (st_mtime f) c) eqn:Hold.
      * specialize (IH (unlink_wav stem (unlink_json stem d))). cbn zeta in IH.
        destruct (cleanup_loop rest c _) as [n d'] eqn:El. cbn [snd] in IH |- *.
        destruct IH as [IHw IHj]. rewrite IHw, IHj.
        unfold unlink_wav, unlink_json; cbn [wavs jsons].
        destruct (decide (k = stem)) as [->|Hk].
        -- rewrite !lookup_delete_eq, E, Hold.
           rewrite (bool_decide_eq_true_2 (stem ∈ stem :: rest)) by left.
           rewrite andb_false_r. auto.
        -- rewrite !lookup_delete_ne by congruence.
           rewrite !(Hne _ _ _ _ Hk). auto.
      * specialize (IH d). cbn zeta in IH. destruct IH as [IHw IHj].
        rewrite IHw, IHj. destruct (decide (k = stem)) as [->|Hk].
        -- rewrite E, Hold, !andb_false_r. auto.
        -- rewrite !(Hne _ _ _ _ Hk). auto.
    + specialize (IH d). cbn zeta in IH. destruct IH as [IHw IHj].
      rewrite IHw, IHj. destruct (decide (k = stem)) as [->|Hk].
      -- rewrite E, !andb_false_r. auto.
      -- rewrite !(Hne _ _ _ _ Hk). auto.
Qed.

End Keeping.

(* ===================================================================== *)
(** * The recording queue: the sweep                                     *)
(* ===================================================================== *)

Section Succeeded.

Import AudioQueue QueueSpec.

Lemma succeeded_cons_success r cs :
  succeeded ((r, Success) :: cs) = r :: succeeded cs.
Proof. reflexivity. Qed.

Lemma succeeded_cons_other r o cs :
  o <> Success -> succeeded ((r, o) :: cs) = succeeded cs.
Proof. destruct o; intros H; [contradiction|reflexivity..]. Qed.

Lemma elem_of_succeeded r cs : r ∈ succeeded cs <-> (r, Success) ∈ cs.
Proof.
  induction cs as [|[r' o] cs IH].
  - unfold succeeded; cbn. rewrite !elem_of_nil. tauto.
  - destruct o.
    + rewrite succeeded_cons_success, !elem_of_cons, IH.
      split; intros [H|H]; auto; [left; congruence|]. left. congruence.
    + rewrite succeeded_cons_other, elem_of_cons, IH by discriminate.
      split; [auto|]. intros [H|H]; [discriminate|auto].
    + rewrite succeeded_cons_other, elem_of_cons, IH by discriminate.
      split; [auto|]. intros [H|H]; [discriminate|auto].
Qed.

Lemma reports_cons i n total :
  reports i (S n) total = (i + 1, total) :: reports (S i) n total.
Proof. reflexivity. Qed.

End Succeeded.

Section SweepFacts.

Import Datetime AudioQueue QueueSpec.

Context {S : Type}.
Variable process_fn : PendingRecording -> list Byte.byte -> S -> outcome * S.
Variable on_progress : option (nat -> nat -> S -> bool * S).
Variable stop_is_set : nat -> bool.

(** The loop, when [on_progress] returns normally: every item reached is
    passed to [process_fn], the successes are counted and deleted, and
    progress is reported after each item. *)
Lemma sweep_loop_spec pending i total processed d s :
  progress_returns on_progress ->
  NoDup (map id pending) ->
  (forall r, r ∈ pending -> is_Some (wavs d !! id r)) ->
  let w := sweep_loop process_fn on_progress stop_is_set
             pending i total processed d s in
  map fst (calls w) = iterated stop_is_set i pending /\
  result w = Returned (processed + length (succeeded (calls w))) /\
  sw_dir w = foldl mark_completed d (succeeded (calls w)) /\
  progress w = match on_progress with
               | None => []
               | Some _ =>
                   reports i (length (iterated stop_is_set i pending)) total
               end.
Proof.
  intros Hret. revert i processed d s.
  induction pending as [|r rest IH]; intros i processed d s Hnd Haudio; cbn zeta.
  - cbn. rewrite Nat.add_0_r. repeat split. now destruct on_progress.
  - cbn [sweep_loop iterated]. destruct (stop_is_set i) eqn:Hstop.
    { cbn. rewrite Nat.add_0_r. repeat split. now destruct on_progress. }
    cbn [map] in Hnd. apply NoDup_cons in Hnd as [Hnotin Hnd].
    unfold process_item.
    destruct (Haudio r ltac:(left)) as [audio Haud]. rewrite Haud.
    destruct (process_fn r audio s) as [o s1] eqn:Hfn.
    assert (Hrest : forall d1,
               (d1 = d \/ d1 = mark_completed d r) ->
               forall r', r' ∈ rest -> is_Some (wavs d1 !! id r')).
    { intros d1 [->| ->] r' Hr'; [apply Haudio; now right|].
      rewrite mark_completed_wavs, bool_decide_eq_false_2.
      - apply Haudio. now right.
      - intros E. apply Hnotin. rewrite <- E. apply list_elem_of_fmap. eauto. }
    destruct o.
    + (* True: mark_completed *)
      destruct on_progress as [f|] eqn:Hop.
      * pose proof (Hret f eq_refl (i + 1) total s1) as Hf.
        destruct (f (i + 1) total s1) as [b s2]. cbn in Hf. subst b.
        specialize (IH (Datatypes.S i) (processed + 1) (mark_completed d r) s2 Hnd
                       (Hrest _ (or_intror eq_refl))).
        cbn zeta in IH. destruct IH as (Hc & Hr & Hd & Hp).
        cbn [calls result sw_dir progress app map fst length].
        rewrite succeeded_cons_success, Hc, Hr, Hd, Hp, reports_cons.
        cbn [length foldl]. repeat split. f_equal. lia.
      * specialize (IH (Datatypes.S i) (processed + 1) (mark_completed d r) s1 Hnd
                       (Hrest _ (or_intror eq_refl))).
        cbn zeta in IH. destruct IH as (Hc & Hr & Hd & Hp).
        cbn [calls result sw_dir progress app map fst length].
        rewrite succeeded_cons_success, Hc, Hr, Hd, Hp.
        cbn [length foldl]. repeat split. f_equal. lia.
    + (* False: left in place *)
      destruct on_progress as [f|] eqn:Hop.
      * pose proof (Hret f eq_refl (i + 1) total s1) as Hf.
        destruct (f (i + 1) total s1) as [b s2]. cbn in Hf. subst b.
        specialize (IH (Datatypes.S i) (processed + 0) d s2 Hnd
                       (Hrest _ (or_introl eq_refl))).
        cbn zeta in IH. destruct IH as (Hc & Hr & Hd & Hp).
        cbn [calls result sw_dir progress app map fst length].
        rewrite succeeded_cons_other, Hc, Hr, Hd, Hp, reports_cons by discriminate.
        repeat split. f_equal. lia.
      * specialize (IH (Datatypes.S i) (processed + 0) d s1 Hnd
                       (Hrest _ (or_introl eq_refl))).
        cbn zeta in IH. destruct IH as (Hc & Hr & Hd & Hp).
        cbn [calls result sw_dir progress app map fst length].
        rewrite succeeded_cons_other, Hc, Hr, Hd, Hp by discriminate.
        repeat split. f_equal. lia.
    + (* exception: caught, left in place *)
      destruct on_progress as [f|] eqn:Hop.
      * pose proof (Hret f eq_refl (i + 1) total s1) as Hf.
        destruct (f (i + 1) total s1) as [b s2]. cbn in Hf. subst b.
        specialize (IH (Datatypes.S i) (processed + 0) d s2 Hnd
                       (Hrest _ (or_introl eq_refl))).
        cbn zeta in IH. destruct IH as (Hc & Hr & Hd & Hp).
        cbn [calls result sw_dir progress app map fst length].
        rewrite succeeded_cons_other, Hc, Hr, Hd, Hp, reports_cons by discriminate.
        repeat split. f_equal. lia.
      * specialize (IH (Datatypes.S i) (processed + 0) d s1 Hnd
                       (Hrest _ (or_introl eq_refl))).
        cbn zeta in IH. destruct IH as (Hc & Hr & Hd & Hp).
        cbn [calls result sw_dir progress app map fst length].
        rewrite succeeded_cons_other, Hc, Hr, Hd, Hp by discriminate.
        repeat split. f_equal. lia.
Qed.

(** The calls the sweep makes are those of [callbacks], with their
    answers and the state they leave, when the payload of every item is
    at hand. *)
Lemma sweep_loop_callbacks audio_of pending i total processed d s :
  NoDup (map id pending) ->
  (forall r, r ∈ pending -> wavs d !! id r = Some (audio_of r)) ->
  let w := sweep_loop process_fn on_progress stop_is_set
             pending i total processed d s in
  let a := callbacks process_fn on_progress stop_is_set audio_of
             i total pending s in
  calls w = fst a /\ sw_state w = snd a.
Proof.
  revert i processed d s.
  induction pending as [|r rest IH]; intros i processed d s Hnd Haudio;
    cbn zeta.
  - split; reflexivity.
  - cbn [sweep_loop callbacks]. destruct (stop_is_set i); [split; reflexivity|].
    cbn [map] in Hnd. apply NoDup_cons in Hnd as [Hnotin Hnd].
    unfold process_item. rewrite (Haudio r ltac:(left)).
    assert (Hrest : forall d1,
               (d1 = d \/ d1 = mark_completed d r) ->
               forall r', r' ∈ rest -> wavs d1 !! id r' = Some (audio_of r')).
    { intros d1 [->| ->] r' Hr'; [apply Haudio; now right|].
      rewrite mark_completed_wavs, bool_decide_eq_false_2.
      - apply Haudio. now right.
      - intros E. apply Hnotin. rewrite <- E. apply list_elem_of_fmap. eauto. }
    destruct (process_fn r (audio_of r) s) as [o s1].
    destruct o;
      (destruct on_progress as [f|] eqn:Hop;
       [ destruct (f (i + 1) total s1) as [[|] s2]; [|split; reflexivity];
         match goal with
         | |- context [sweep_loop _ _ _ rest _ _ ?p ?d1 s2] =>
             specialize (IH (Datatypes.S i) p d1 s2 Hnd
                            (Hrest d1 ltac:(auto)))
         end
       | match goal with
         | |- context [sweep_loop _ _ _ rest _ _ ?p ?d1 s1] =>
             specialize (IH (Datatypes.S i) p d1 s1 Hnd
                            (Hrest d1 ltac:(auto)))
         end ];
       cbn zeta in IH; destruct IH as [Hc Hs];
       destruct (callbacks _ _ _ _ _ _ rest _) as [cs' s'];
       cbn [calls sw_state fst snd app] in *; rewrite Hc, Hs;
       split; reflexivity).
Qed.

(** In a sweep of the queue the payload of every pending item is at
    hand: the calls and the final state of [process_pending] are those
    of [callbacks] on the listing. *)
Lemma process_pending_callbacks q s :
  is_processing q = false ->
  let pending := recordings (get_pending (queue_dir q)) in
  let w := fst (process_pending process_fn on_progress stop_is_set q s) in
  let a := callbacks process_fn on_progress stop_is_set
             (payload (queue_dir q)) 0 (length pending) pending s in
  calls w = fst a /\ sw_state w = snd a.
Proof.
  intros Hflag. cbn zeta. unfold process_pending. rewrite Hflag.
  cbn [fst]. apply sweep_loop_callbacks.
  - apply NoDup_get_pending_ids.
  - intros r Hr. apply elem_of_get_pending in Hr.
    destruct (get_pending_keeps (queue_dir q) (id r)) as [-> _].
    { eapply load_orphan_false, Hr. }
    unfold load in Hr. unfold payload.
    destruct (content <$> jsons (queue_dir q) !! id r) as [[m|]|];
      try discriminate.
    case_bool_decide as Hw; [|discriminate].
    destruct Hw as [a ->]. reflexivity.
Qed.

(** Whatever the callbacks do, the sweep deletes exactly the recordings
    on which [process_fn] returned [True]. *)
Lemma sweep_loop_dir pending i total processed d s :
  let w := sweep_loop process_fn on_progress stop_is_set
             pending i total processed d s in
  sw_dir w = foldl mark_completed d (succeeded (calls w)).
Proof.
  revert i processed d s.
  induction pending as [|r rest IH]; intros i processed d s; cbn zeta.
  - reflexivity.
  - cbn [sweep_loop]. destruct (stop_is_set i); [reflexivity|].
    unfold process_item. destruct (wavs d !! id r) as [audio|].
    + destruct (process_fn r audio s) as [o s1].
      destruct o; (destruct on_progress as [f|];
        [destruct (f (i + 1) total s1) as [[|] s2]|]);
        cbn [calls sw_dir app];
        rewrite ?succeeded_cons_success, ?succeeded_cons_other by discriminate;
        cbn [foldl]; try reflexivity; apply IH.
    + destruct on_progress as [f|];
        [destruct (f (i + 1) total s) as [[|] s2]|];
        cbn [calls sw_dir app]; try reflexivity; apply IH.
Qed.

End SweepFacts.

Section Durability.

Import Datetime AudioQueue QueueSpec.

Lemma elem_of_succeeded_ids (cs : list (PendingRecording * outcome)) k :
  k ∈ map id (succeeded cs) <-> exists r, id r = k /\ (r, Success) ∈ cs.
Proof.
  rewrite list_elem_of_fmap. split.
  - intros (r & -> & Hr). exists r. split; [reflexivity|].
    now apply elem_of_succeeded.
  - intros (r & <- & Hr). exists r. split; [reflexivity|].
    now apply elem_of_succeeded.
Qed.

(** A call that does not disturb a stored recording leaves it stored. *)
Lemma run_keeps_stored r audio o q :
  stored (queue_dir q) r audio -> ~ disturbs r o q ->
  stored (queue_dir (run o q)) r audio.
Proof.
  intros Hst Hnd. destruct o as [now mtime a b n p| |r'|S fn prog stop s|ts days|];
    cbn [run with_dir queue_dir new disturbs] in *.
  - destruct (save_recording_other (queue_dir q) now mtime a b n p (id r))
      as [Hw Hj]; [congruence|].
    eapply stored_ext; eauto.
  - destruct (get_pending_keeps (queue_dir q) (id r)) as [Hw Hj].
    { eapply load_orphan_false, stored_load; eauto. }
    eapply stored_ext; eauto.
  - eapply stored_ext; [| |exact Hst].
    + rewrite mark_completed_wavs, bool_decide_eq_false_2; congruence.
    + rewrite mark_completed_jsons, bool_decide_eq_false_2; congruence.
  - unfold process_pending in *. destruct (is_processing q); [exact Hst|].
    cbn [snd fst queue_dir] in *.
    rewrite sweep_loop_dir in *.
    destruct (get_pending_keeps (queue_dir q) (id r)) as [Hw Hj].
    { eapply load_orphan_false, stored_load; eauto. }
    eapply stored_ext; [| |exact Hst].
    + rewrite foldl_mark_completed_wavs, bool_decide_eq_false_2; assumption.
    + rewrite foldl_mark_completed_jsons, bool_decide_eq_false_2; assumption.
  - unfold cleanup_old.
    destruct (cutoff ts days) as [c|] eqn:Ec; cbn; [|exact Hst].
    destruct (cleanup_loop_lookup (glob_json (queue_dir q)) c
                (queue_dir q) (id r)) as [Hw Hj].
    assert (Hold : match jsons (queue_dir q) !! id r with
                   | Some f => Float.ltb (st_mtime f) c
                   | None => false end = false).
    { destruct (jsons (queue_dir q) !! id r) as [f|] eqn:E; [|reflexivity].
      destruct (Float.ltb (st_mtime f) c) eqn:El; [|reflexivity].
      exfalso. apply Hnd. eauto. }
    rewrite Hold, andb_false_r in Hw, Hj.
    destruct (cleanup_loop _ c _) as [n d']. cbn [snd queue_dir] in *.
    eapply stored_ext; eauto.
  - exact Hst.
Qed.

Lemma run_all_keeps_stored r audio ops q :
  stored (queue_dir q) r audio -> undisturbed r ops q ->
  stored (queue_dir (run_all ops q)) r audio.
Proof.
  revert q. induction ops as [|o ops IH]; intros q Hst Hu; [exact Hst|].
  destruct Hu as [Hnd Hu]. cbn [run_all foldl]. apply IH; [|exact Hu].
  now apply run_keeps_stored.
Qed.

End Durability.

(* ===================================================================== *)
(** * The recording queue: the properties                                *)
(* ===================================================================== *)

Section QueueProperties.

Import Datetime AudioQueue QueueSpec.

(** Ids of distinct valid clock readings are distinct, and the earlier
    reading has the id that sorts first. *)
Theorem strftime_id_chronological (t1 t2 : datetime) :
  valid t1 -> valid t2 ->
  (strftime_id t1 = strftime_id t2 <-> t1 = t2) /\
  (String.le (strftime_id t1) (strftime_id t2) <-> Datetime.le t1 t2) /\
  (Datetime.lt t1 t2 ->
     String.le (strftime_id t1) (strftime_id t2) /\
     strftime_id t1 <> strftime_id t2).
Proof.
  intros H1 H2. pose proof (strftime_id_compare t1 t2 H1 H2) as Hc.
  split; [|split].
  - split; [|congruence]. intros E. apply compare_Eq_eq.
    rewrite <- Hc. now apply string_compare_eq.
  - rewrite string_le_compare, Hc. reflexivity.
  - unfold Datetime.lt. intros Hlt. split.
    + apply string_le_compare. rewrite Hc, Hlt. discriminate.
    + intros E. apply string_compare_eq in E. congruence.
Qed.

(** X1.  A recording stays listed, with its payload, over any sequence of
    calls none of which disturbs it, restarts included. *)
Theorem save_recording_durable d now mtime audio bundle name pres
    (q : queue) (ops : list op) :
  let r := fst (save_recording d now mtime audio bundle name pres) in
  queue_dir q = snd (save_recording d now mtime audio bundle name pres) ->
  undisturbed r ops q ->
  r ∈ recordings (get_pending (queue_dir (run_all ops q))) /\
  wavs (queue_dir (run_all ops q)) !! id r = Some audio.
Proof.
  intros r Hq Hu.
  pose proof (save_recording_stored d now mtime audio bundle name pres) as Hs.
  destruct (save_recording d now mtime audio bundle name pres) as [r' d'] eqn:E.
  cbn [fst snd] in *. subst r. destruct Hs as [Hst _]. rewrite <- Hq in Hst.
  pose proof (run_all_keeps_stored r' audio ops q Hst Hu) as Hst'.
  split; [|apply Hst'].
  apply elem_of_get_pending. eapply stored_load; eauto.
Qed.

Lemma strftime_id_chronological_witness :
  valid earlier_reading /\ valid reading /\
  Datetime.lt earlier_reading reading /\
  String.le (strftime_id earlier_reading) (strftime_id reading) /\
  strftime_id earlier_reading <> strftime_id reading.
Proof.
  split; [reflexivity|]. split; [reflexivity|]. split; [reflexivity|].
  exact (proj2 (proj2 (strftime_id_chronological earlier_reading reading
                         eq_refl eq_refl)) eq_refl).
Defined.

Lemma quiet_ops_undisturbed :
  undisturbed (fst first_save) quiet_ops (new (snd first_save)).
Proof.
  cbn [undisturbed quiet_ops].
  split; [intros []|]. split; [intros H; vm_compute in H; discriminate H|].
  split; [intros []|]. split.
  { intros H. cbn [disturbs] in H.
    assert (E : succeeded (calls (fst (process_pending raising_process_fn None
                 never_stop
                 (run Restart (run (Save earlier_reading (seconds 900) [Byte.x03] None None None)
                    (run GetPending (new (snd first_save))))) 0))) = [])
      by (vm_compute; reflexivity).
    rewrite E in H. now apply elem_of_nil in H. }
  split.
  { intros (f & c & Hf & Hc & Hlt). vm_compute in Hf. injection Hf as <-.
    vm_compute in Hc. injection Hc as <-.
    vm_compute in Hlt. discriminate Hlt. }
  split; [intros H; vm_compute in H; discriminate H|].
  split; [intros []|exact I].
Defined.

Lemma save_recording_durable_witness :
  queue_dir (new (snd first_save)) = snd first_save /\
  undisturbed (fst first_save) quiet_ops (new (snd first_save)) /\
  (fst first_save
     ∈ recordings (get_pending (queue_dir (run_all quiet_ops (new (snd first_save)))))) /\
  wavs (queue_dir (run_all quiet_ops (new (snd first_save)))) !! id (fst first_save)
  = Some [Byte.x01].
Proof.
  split; [reflexivity|]. split; [exact quiet_ops_undisturbed|].
  exact (save_recording_durable empty_directory reading (seconds 1000) [Byte.x01]
           None (Some "Mail") None (new (snd first_save)) quiet_ops
           eq_refl quiet_ops_undisturbed).
Defined.

(** C1 (durability of accepted recordings), at the failing input: the
    recording returned by the first [save_recording] is not in the next
    listing, without any [mark_completed] or [cleanup_old], once a
    second call has read the same clock value; its payload has been
    replaced by the second capture. *)
Theorem save_recording_overwritten_on_collision :
  let r1 := fst first_save in
  let r2 := fst second_save in
  let d2 := snd second_save in
  wavs (snd first_save) !! id r1 = Some [Byte.x01] /\
  recordings (get_pending d2) = [r2] /\
  r1 <> r2 /\
  wavs d2 !! id r1 = Some [Byte.x02].
Proof. repeat split; try (vm_compute; reflexivity). discriminate. Qed.

(** C5 (id uniqueness and chronology), at the failing input: two
    distinct calls of [save_recording] that read the same clock value
    generate the same id, and one directory entry is left for the two
    captures. *)
Theorem save_recording_same_reading_same_id :
  let r1 := fst first_save in
  let r2 := fst second_save in
  id r1 = id r2 /\
  id r1 = "20240309_070501_000042" /\
  get_pending_count (snd second_save) = 1.
Proof. repeat split; vm_compute; reflexivity. Qed.

(** C2 (single-flight sweep).  When [process_pending] is called while the
    processing flag is set it returns 0, calls neither callback, leaves
    the callbacks' state, the directory and the flag as they are; and a
    call that starts a sweep leaves the flag cleared however the sweep
    ends, an exception included. *)
Theorem process_pending_single_flight {S : Type}
    (process_fn : PendingRecording -> list Byte.byte -> S -> outcome * S)
    (on_progress : option (nat -> nat -> S -> bool * S))
    (stop_is_set : nat -> bool) (q : queue) (s : S) :
  let w := fst (process_pending process_fn on_progress stop_is_set q s) in
  let q' := snd (process_pending process_fn on_progress stop_is_set q s) in
  (is_processing q = true ->
     result w = Returned 0 /\ calls w = [] /\ progress w = [] /\
     sw_state w = s /\ sw_dir w = queue_dir q /\ q' = q) /\
  (is_processing q = false ->
     forall c, result w = c ->
     is_processing q' = false /\ queue_dir q' = sw_dir w).
Proof.
  cbn zeta. unfold process_pending. split; intros Hflag; rewrite Hflag.
  - cbn. repeat split.
  - intros c _. cbn. split; reflexivity.
Qed.

Lemma NoDup_fst_functional {A B} (l : list (A * B)) a b1 b2 :
  NoDup (map fst l) -> (a, b1) ∈ l -> (a, b2) ∈ l -> b1 = b2.
Proof.
  induction l as [|[a' b'] l IH]; intros Hnd H1 H2.
  - now apply elem_of_nil in H1.
  - cbn [map fst] in Hnd. apply NoDup_cons in Hnd as [Hnotin Hnd].
    apply elem_of_cons in H1 as [E1|H1]; apply elem_of_cons in H2 as [E2|H2].
    + congruence.
    + exfalso. apply Hnotin. injection E1 as <- <-.
      apply list_elem_of_fmap. exists (a, b2). auto.
    + exfalso. apply Hnotin. injection E2 as <- <-.
      apply list_elem_of_fmap. exists (a, b1). auto.
    + eauto.
Qed.

Lemma iterated_sublist {A} stop i (l : list A) :
  iterated stop i l `sublist_of` l.
Proof.
  revert i. induction l as [|x l IH]; intros i; cbn; [constructor|].
  destruct (stop i); [apply sublist_nil_l|]. constructor. apply IH.
Qed.

(** C3 (sweep fault tolerance).  In a sweep whose [on_progress], if
    supplied, returns normally, the callbacks are called as [callbacks]
    has it: [process_fn] on every pending item the sweep reaches, in
    order, with the payload stored for it, whatever it answered on the
    items before, and [on_progress] with [(i + 1, total)] once after
    each item reached, each call in the state the one before left; the
    state after the sweep is the state after the last of these calls.
    The call returns the number of items on which [process_fn] answered
    [True], and the files of those are deleted; an item on which it
    raised or answered [False] keeps both files and is still
    pending. *)
Theorem process_pending_fault_tolerant {S : Type}
    (process_fn : PendingRecording -> list Byte.byte -> S -> outcome * S)
    (on_progress : option (nat -> nat -> S -> bool * S))
    (stop_is_set : nat -> bool) (q : queue) (s : S) :
  is_processing q = false ->
  progress_returns on_progress ->
  let pending := recordings (get_pending (queue_dir q)) in
  let reached := iterated stop_is_set 0 pending in
  let answered :=
    callbacks process_fn on_progress stop_is_set (payload (queue_dir q))
              0 (length pending) pending s in
  let w := fst (process_pending process_fn on_progress stop_is_set q s) in
  let d' := queue_dir (snd (process_pending process_fn on_progress stop_is_set q s)) in
  calls w = fst answered /\
  sw_state w = snd answered /\
  map fst (fst answered) = reached /\
  result w = Returned (length (succeeded (fst answered))) /\
  (forall r, (r, Success) ∈ fst answered ->
     wavs d' !! id r = None /\ jsons d' !! id r = None) /\
  (forall r o, (r, o) ∈ fst answered -> o <> Success ->
     wavs d' !! id r = wavs (queue_dir q) !! id r /\
     jsons d' !! id r = jsons (queue_dir q) !! id r /\
     r ∈ recordings (get_pending d')) /\
  progress w = match on_progress with
               | None => []
               | Some _ => reports 0 (length reached) (length pending)
               end.
Proof.
  intros Hflag Hret. cbn zeta.
  pose proof (process_pending_callbacks process_fn on_progress stop_is_set
                q s Hflag) as Hcb.
  cbn zeta in Hcb. destruct Hcb as [Hcb Hst]. rewrite <- Hcb.
  split; [reflexivity|]. split; [exact Hst|]. clear Hcb Hst.
  unfold process_pending. rewrite Hflag.
  cbn [fst snd queue_dir].
  set (d := queue_dir q). set (l := get_pending d).
  assert (Hnd : NoDup (map id (recordings l))) by apply NoDup_get_pending_ids.
  assert (Hload : forall r, r ∈ recordings l -> load d (id r) = Some r).
  { intros r. apply elem_of_get_pending. }
  assert (Hkeep : forall r, r ∈ recordings l ->
            wavs (dir_after l) !! id r = wavs d !! id r /\
            jsons (dir_after l) !! id r = jsons d !! id r).
  { intros r Hr. apply get_pending_keeps.
    eapply load_orphan_false. apply Hload, Hr. }
  assert (Haudio : forall r, r ∈ recordings l ->
            is_Some (wavs (dir_after l) !! id r)).
  { intros r Hr. destruct (Hkeep r Hr) as [-> _].
    specialize (Hload r Hr). unfold load in Hload.
    destruct (content <$> jsons d !! id r) as [[m|]|]; try discriminate.
    case_bool_decide; [assumption|discriminate]. }
  destruct (sweep_loop_spec process_fn on_progress stop_is_set
              (recordings l) 0 (length (recordings l)) 0 (dir_after l) s
              Hret Hnd Haudio) as (Hc & Hr & Hd & Hp).
  set (w := sweep_loop _ _ _ _ _ _ _ _ _) in *.
  assert (Hreached : forall r o, (r, o) ∈ calls w -> r ∈ recordings l).
  { intros r o Hin.
    apply (sublist_subseteq _ _ (iterated_sublist stop_is_set 0 (recordings l))).
    rewrite <- Hc. apply list_elem_of_fmap. exists (r, o). auto. }
  assert (Hnd' : NoDup (map fst (calls w))).
  { rewrite Hc. eapply sublist_NoDup; [|apply iterated_sublist].
    apply (NoDup_fmap_1 id). exact Hnd. }
  split; [exact Hc|]. split; [exact Hr|]. split; [|split; [|exact Hp]].
  - intros r Hin. rewrite Hd.
    rewrite foldl_mark_completed_wavs, foldl_mark_completed_jsons.
    rewrite bool_decide_eq_true_2; [auto|].
    apply list_elem_of_fmap. exists r. split; [reflexivity|].
    now apply elem_of_succeeded.
  - intros r o Hin Ho.
    assert (Hns : id r ∉ map id (succeeded (calls w))).
    { intros Hs. apply elem_of_succeeded_ids in Hs as (r' & Hid & Hs).
      assert (r' = r).
      { pose proof (Hload r (Hreached _ _ Hin)) as L1.
        pose proof (Hload r' (Hreached _ _ Hs)) as L2.
        rewrite Hid in L2. congruence. }
      subst r'. apply Ho. symmetry.
      eapply NoDup_fst_functional; eauto. }
    rewrite Hd, foldl_mark_completed_wavs, foldl_mark_completed_jsons.
    rewrite bool_decide_eq_false_2 by assumption.
    destruct (Hkeep r (Hreached _ _ Hin)) as [Hw Hj].
    split; [exact Hw|]. split; [exact Hj|].
    apply elem_of_get_pending.
    rewrite <- (Hload r (Hreached _ _ Hin)). apply load_ext.
    + rewrite foldl_mark_completed_wavs, bool_decide_eq_false_2; assumption.
    + rewrite foldl_mark_completed_jsons, bool_decide_eq_false_2; assumption.
Qed.

(** C4 (listing order and orphan self-healing), as amended.  The list
    returned by [get_pending] is in metadata file-name order; when the
    metadata files carry timestamp ids this is non-decreasing id order,
    which is the chronological order of the readings.  Metadata that
    loads and whose audio payload is missing is absent from the list,
    deleted during the call, reported by no warning, and absent from the
    next listing.  Metadata that does not load is skipped with a warning
    and left in place. *)
Theorem get_pending_sorted_and_self_healing (d : directory) :
  let l := get_pending d in
  StronglySorted path_le (map id (recordings l)) /\
  ((forall k, is_Some (jsons d !! k) -> timestamp_id k) ->
     StronglySorted String.le (map id (recordings l))) /\
  (forall t1 t2, valid t1 -> valid t2 ->
     (String.le (strftime_id t1) (strftime_id t2) <-> Datetime.le t1 t2)) /\
  (forall k, orphan d k = true ->
     (k ∉ map id (recordings l)) /\
     jsons (dir_after l) !! k = None /\
     (k ∉ warnings l) /\
     (k ∉ map id (recordings (get_pending (dir_after l))))) /\
  (forall k, content <$> jsons d !! k = Some Unloadable ->
     (k ∉ map id (recordings l)) /\
     (k ∈ warnings l) /\
     jsons (dir_after l) !! k = jsons d !! k).
Proof.
  cbn zeta.
  assert (Hpath : StronglySorted path_le (map id (recordings (get_pending d)))).
  { eapply StronglySorted_sublist;
      [apply get_pending_ids_sublist|apply sorted_glob_sorted]. }
  assert (Hload : forall k, k ∈ map id (recordings (get_pending d)) ->
            exists r, load d k = Some r).
  { intros k Hk. apply list_elem_of_fmap in Hk as (r & -> & Hr).
    exists r. now apply elem_of_get_pending. }
  split; [exact Hpath|]. split; [|split; [|split]].
  - intros Hts. eapply StronglySorted_impl_in; [|exact Hpath].
    assert (Hlen : forall k, k ∈ map id (recordings (get_pending d)) ->
              String.length k = 22).
    { intros k Hk.
      pose proof (sublist_subseteq _ _ (get_pending_ids_sublist d) k Hk) as Hg.
      apply elem_of_sorted_glob, Hts in Hg as (t & _ & ->).
      apply strftime_id_length. }
    intros x y Hx Hy. apply path_le_same_length.
    now rewrite (Hlen x Hx), (Hlen y Hy).
  - intros t1 t2 H1 H2. apply strftime_id_chronological; assumption.
  - intros k Ho.
    assert (Hk : is_Some (jsons d !! k)).
    { unfold orphan in Ho. destruct (jsons d !! k); [eauto|discriminate]. }
    assert (Hgone : jsons (dir_after (get_pending d)) !! k = None).
    { unfold get_pending. rewrite get_pending_loop_jsons, Ho.
      rewrite bool_decide_eq_true_2 by (now apply elem_of_sorted_glob).
      reflexivity. }
    split; [|split; [exact Hgone|split]].
    + intros Hin. destruct (Hload k Hin) as [r Hr].
      apply load_orphan_false in Hr. congruence.
    + unfold get_pending.
      rewrite get_pending_loop_warnings by apply NoDup_sorted_glob.
      intros [_ Hn]. unfold orphan in Ho.
      destruct (content <$> jsons d !! k) as [[m|]|]; try discriminate.
      now apply (Hn m).
    + intros Hin. apply list_elem_of_fmap in Hin as (r & -> & Hr).
      apply elem_of_get_pending in Hr. unfold load in Hr.
      rewrite Hgone in Hr. discriminate.
  - intros k Hk.
    assert (Ho : orphan d k = false) by (unfold orphan; now rewrite Hk).
    split; [|split].
    + intros Hin. destruct (Hload k Hin) as [r Hr].
      unfold load in Hr. rewrite Hk in Hr. discriminate.
    + unfold get_pending.
      rewrite get_pending_loop_warnings by apply NoDup_sorted_glob. split.
      * apply elem_of_sorted_glob. destruct (jsons d !! k); [eauto|discriminate].
      * intros m. rewrite Hk. discriminate.
    + now apply get_pending_keeps.
Qed.

(** C4 as stated fails at a metadata file that does not load and has no
    audio payload: the call skips it and leaves it in the directory. *)
Lemma get_pending_keeps_unloadable_orphan :
  let k := "20240309_070501_000042" in
  let d := {| wavs := ∅;
              jsons := {[ k := {| content := Unloadable; st_mtime := seconds 1000 |} ]} |} in
  wavs d !! k = None /\
  is_Some (jsons d !! k) /\
  recordings (get_pending d) = [] /\
  jsons (dir_after (get_pending d)) !! k <> None.
Proof.
  cbn zeta. split; [reflexivity|]. split; [vm_compute; eauto|].
  split; [vm_compute; reflexivity|]. vm_compute. discriminate.
Qed.

Lemma process_pending_single_flight_witness :
  (is_processing busy_queue = true /\
   result (fst (process_pending sample_process_fn None never_stop busy_queue 0))
   = Returned 0 /\
   snd (process_pending sample_process_fn None never_stop busy_queue 0)
   = busy_queue) /\
  (is_processing (new sample_dir) = false /\
   result (fst (process_pending sample_process_fn (Some raising_progress)
                                never_stop (new sample_dir) 0)) = Raised /\
   is_processing (snd (process_pending sample_process_fn (Some raising_progress)
                                       never_stop (new sample_dir) 0)) = false).
Proof.
  split.
  - split; [reflexivity|].
    destruct (process_pending_single_flight sample_process_fn None never_stop
                busy_queue 0) as [Hbusy _].
    destruct (Hbusy eq_refl) as (Hr & _ & _ & _ & _ & Hq). split; assumption.
  - split; [reflexivity|]. split; [vm_compute; reflexivity|].
    destruct (process_pending_single_flight sample_process_fn
                (Some raising_progress) never_stop (new sample_dir) 0)
      as [_ Hidle].
    exact (proj1 (Hidle eq_refl Raised ltac:(vm_compute; reflexivity))).
Defined.

Lemma process_pending_fault_tolerant_witness :
  let older_id := strftime_id earlier_reading in
  let newer_id := strftime_id reading in
  let w := fst (process_pending logging_process_fn (Some logging_progress)
                                never_stop (new sample_dir) []) in
  let d' := queue_dir (snd (process_pending logging_process_fn
                              (Some logging_progress) never_stop
                              (new sample_dir) [])) in
  is_processing (new sample_dir) = false /\
  progress_returns (Some logging_progress) /\
  map snd (calls w) = [Failure; Success] /\
  sw_state w = [ Progressed 2 2; Processed newer_id [Byte.x01];
                 Progressed 1 2; Processed older_id [Byte.x03] ] /\
  sw_state w
  = snd (callbacks logging_process_fn (Some logging_progress) never_stop
           (payload sample_dir) 0 2
           (recordings (get_pending sample_dir)) []) /\
  result w = Returned 1 /\
  map id (recordings (get_pending d')) = [older_id] /\
  wavs d' !! newer_id = None.
Proof.
  cbn zeta.
  assert (Hret : progress_returns (Some logging_progress)).
  { intros f [= <-] i total s. reflexivity. }
  split; [reflexivity|]. split; [exact Hret|].
  split; [vm_compute; reflexivity|].
  split; [vm_compute; reflexivity|].
  split; [|repeat split; vm_compute; reflexivity].
  exact (proj1 (proj2 (process_pending_fault_tolerant logging_process_fn
                         (Some logging_progress) never_stop (new sample_dir) []
                         eq_refl Hret))).
Defined.

Lemma sample_dir_timestamp_ids (k : string) :
  is_Some (jsons sample_dir !! k) -> timestamp_id k.
Proof.
  intros [f Hk]. unfold sample_dir in Hk; cbn [jsons] in Hk.
  repeat (apply lookup_insert_Some in Hk as [[<- _]|[_ Hk]];
          [eexists; split; [|reflexivity]; vm_compute; reflexivity|]).
  now rewrite lookup_empty in Hk.
Defined.

Lemma get_pending_sorted_and_self_healing_witness :
  (forall k, is_Some (jsons sample_dir !! k) -> timestamp_id k) /\
  orphan sample_dir (strftime_id orphan_reading) = true /\
  StronglySorted String.le (map id (recordings (get_pending sample_dir))) /\
  map id (recordings (get_pending sample_dir))
  = [strftime_id earlier_reading; strftime_id reading] /\
  jsons (dir_after (get_pending sample_dir)) !! strftime_id orphan_reading = None.
Proof.
  destruct (get_pending_sorted_and_self_healing sample_dir)
    as (_ & Hsorted & _ & Horphan & _).
  split; [exact sample_dir_timestamp_ids|].
  split; [vm_compute; reflexivity|].
  split; [exact (Hsorted sample_dir_timestamp_ids)|].
  split; [vm_compute; reflexivity|].
  exact (proj1 (proj2 (Horphan (strftime_id orphan_reading)
                               ltac:(vm_compute; reflexivity)))).
Defined.

End QueueProperties.

(* ===================================================================== *)
(** * The matcher finds only matches                                     *)
(* ===================================================================== *)

Section Matcher.

Import Re ReSpec.

Lemma eat_sound {A} p st (k : mstate -> option A) x :
  eat p st k = Some x -> exists st', eats p st st' /\ k st' = Some x.
Proof.
  unfold eat, eats. destruct (rest st) as [|c s'] eqn:E; [discriminate|].
  destruct (p c) eqn:Hp; [|discriminate]. intros Hk.
  eexists. split; [|exact Hk]. exists c, s'. auto.
Qed.

(** Whenever [rmatch] succeeds, its continuation accepted the end of a
    match of the pattern. *)
Lemma rmatch_sound {A} (r : regex) :
  forall st (k : mstate -> option A) x,
    rmatch r st k = Some x -> exists st', spans r st st' /\ k st' = Some x.
Proof.
  induction r as [c| | | | | | |r1 IH1 r2 IH2|r1 IH1 r2 IH2|r1 IH1|r1 IH1|r1 IH1];
    intros st k x H; cbn [rmatch spans] in *.
  - now apply eat_sound.
  - now apply eat_sound.
  - now apply eat_sound.
  - destruct (prev st) eqn:E; [discriminate|]. eauto.
  - destruct (at_eol (rest st)) eqn:E; [|discriminate]. eauto.
  - destruct (at_boundary st) eqn:E; [|discriminate]. eauto.
  - eauto.
  - apply IH1 in H as (st1 & H1 & H). apply IH2 in H as (st' & H2 & H). eauto.
  - destruct (rmatch r1 st k) eqn:E.
    + injection H as ->. apply IH1 in E as (st' & ? & ?). eauto.
    + apply IH2 in H as (st' & ? & ?). eauto.
  - destruct (rmatch r1 st k) eqn:E.
    + injection H as ->. apply IH1 in E as (st' & ? & ?). eauto.
    + eauto.
  - apply IH1 in H as (st1 & H1 & H).
    revert H. generalize (String.length (rest st1)) as fuel.
    intros fuel. revert st st1 H1.
    induction fuel as [|fuel IHf]; intros st st1 H1 H.
    + exists st1. split; [now constructor|exact H].
    + destruct (rmatch r1 st1 _) eqn:E.
      * injection H as ->. apply IH1 in E as (nxt & Hn & E).
        destruct (_ <? _)%nat; [|discriminate].
        destruct (IHf st1 nxt Hn E) as (st' & Hs & Hk).
        exists st'. split; [|exact Hk].
        (* one round from [st], then the rounds from [st1] *)
        eapply iter1_more; [exact H1|exact Hs].
      * exists st1. split; [now constructor|exact H].
  - apply IH1 in H as (st1 & H1 & H). eauto.
Qed.

Lemma spans_ends_with_eol r st st' :
  ends_with_eol r = true -> spans r st st' -> at_eol (rest st') = true.
Proof.
  revert st st'. induction r; intros st st' He Hs; cbn in *; try discriminate.
  - destruct Hs as [? ->]. assumption.
  - destruct Hs as (st1 & _ & H2). eauto.
Qed.

Lemma spans_keeps_group r st st' :
  spans r st st' -> is_Some (group1 st) -> is_Some (group1 st').
Proof.
  revert st st'. induction r as [c| | | | | | |r1 IH1 r2 IH2|r1 IH1 r2 IH2|r1 IH1|r1 IH1|r1 IH1];
    intros st st' Hs Hg; cbn [spans] in Hs.
  - destruct Hs as (x & s' & _ & _ & ->). exact Hg.
  - destruct Hs as (x & s' & _ & _ & ->). exact Hg.
  - destruct Hs as (x & s' & _ & _ & ->). exact Hg.
  - destruct Hs as [_ ->]. exact Hg.
  - destruct Hs as [_ ->]. exact Hg.
  - destruct Hs as [_ ->]. exact Hg.
  - subst. exact Hg.
  - destruct Hs as (st1 & H1 & H2). eauto.
  - destruct Hs as [H|H]; eauto.
  - destruct Hs as [H| ->]; eauto.
  - induction Hs; eauto.
  - destruct Hs as (st1 & _ & ->). cbn. eauto.
Qed.

Lemma spans_captures r st st' :
  captures r = true -> spans r st st' -> is_Some (group1 st').
Proof.
  revert st st'. induction r as [c| | | | | | |r1 IH1 r2 IH2|r1 IH1 r2 IH2|r1 IH1|r1 IH1|r1 IH1];
    intros st st' Hc Hs; cbn [captures spans] in *; try discriminate.
  - destruct Hs as (st1 & H1 & H2). apply orb_true_iff in Hc as [Hc|Hc].
    + eapply spans_keeps_group; eauto.
    + eauto.
  - apply andb_true_iff in Hc as [Hc1 Hc2]. destruct Hs; eauto.
  - induction Hs; eauto.
  - destruct Hs as (st1 & _ & ->). cbn. eauto.
Qed.

Lemma at_eol_strip s : at_eol s = true -> Py.strip s = EmptyString.
Proof.
  destruct s as [|c [|c' s]]; cbn; try discriminate; [reflexivity|].
  intros Hc. apply Ascii.eqb_eq in Hc. subst c. reflexivity.
Qed.

End Matcher.

(* ===================================================================== *)
(** * Voice command detection                                            *)
(* ===================================================================== *)

Section Commands.

Import Re ReSpec VoiceCommandProcessor CommandSpec.

Lemma match_sound r s m : match_ r s = Some m -> spans r (start_of s) m.
Proof.
  unfold match_. intros H. apply rmatch_sound in H as (st' & Hs & [= ->]).
  exact Hs.
Qed.

Lemma VOICE_COMMANDS_anchored :
  Forall (fun rule => ends_with_eol (pattern_of rule) = true) VOICE_COMMANDS.
Proof. repeat constructor. Qed.

Lemma VOICE_COMMANDS_capture_ok : Forall capture_ok VOICE_COMMANDS.
Proof. repeat constructor; intros H; try discriminate H; reflexivity. Qed.

Lemma int_None digits :
  Py.int digits = None -> (Py.int_max_str_digits < Py.len digits)%nat.
Proof.
  unfold Py.int.
  destruct (Py.int_max_str_digits <? Py.len digits)%nat eqn:E; [|discriminate].
  intros _. now apply Nat.ltb_lt.
Qed.

(** What the loop does: it answers with the first rule that matches, or
    with nothing; it raises only on a count that [int] refuses. *)
Lemma detect_loop_spec rules text :
  Forall capture_ok rules ->
  match detect_loop rules text with
  | Some (Some (action, a), residual) =>
      exists before pattern a0 after m,
        rules = (before ++ (pattern, action, a0) :: after)%list /\
        Forall (fun rule => match_ (pattern_of rule) text = None) before /\
        match_ pattern text = Some m /\
        residual = Py.strip (rest m)
  | Some (None, residual) =>
      residual = text /\
      Forall (fun rule => match_ (pattern_of rule) text = None) rules
  | None =>
      exists before pattern action a0 after m digits,
        rules = (before ++ (pattern, action, a0) :: after)%list /\
        Forall (fun rule => match_ (pattern_of rule) text = None) before /\
        match_ pattern text = Some m /\
        group1 m = Some digits /\
        (Py.int_max_str_digits < Py.len digits)%nat
  end.
Proof.
  induction rules as [|[[pattern action] a0] rules IH]; intros Hok.
  - cbn. auto.
  - apply Forall_cons in Hok as [Hok1 Hok]. cbn [detect_loop].
    destruct (match_ pattern text) as [m|] eqn:Hm.
    + destruct (is_match_placeholder a0 && (0 <? groups pattern)%nat) eqn:Hp.
      * destruct (spans_captures pattern _ m (Hok1 Hp) (match_sound _ _ _ Hm))
          as [digits Hg]. rewrite Hg. cbn [mbind option_bind].
        destruct (Py.int digits) as [n|] eqn:Hint; cbn [mbind option_bind].
        -- exists [], pattern, a0, rules, m. cbn. auto.
        -- exists [], pattern, action, a0, rules, m, digits. cbn.
           repeat split; auto. now apply int_None.
      * cbn [mbind option_bind].
        exists [], pattern, a0, rules, m. cbn. auto.
    + specialize (IH Hok).
      destruct (detect_loop rules text) as [[[[action' a]|] residual]|].
      * destruct IH as (before & p & a1 & after & m & -> & Hb & Hp & Hr).
        exists ((pattern, action, a0) :: before), p, a1, after, m.
        cbn. repeat split; auto.
      * destruct IH as [-> Hall]. split; [reflexivity|]. now constructor.
      * destruct IH as (before & p & act & a1 & after & m & digits
                        & -> & Hb & Hp & Hg & Hlen).
        exists ((pattern, action, a0) :: before), p, act, a1, after, m, digits.
        cbn. repeat split; auto.
Qed.

(** C6 (voice command detection): what the code does with the text
    after a command.  [detect_command] trims its input and tries the
    rules in table order, answering with the first rule whose pattern
    matches.  Every pattern is anchored at both ends, so a match reaches
    the end of the trimmed text: the residual returned with a command is
    empty on every input, and a command followed by dictation matches no
    rule.  When no pattern matches the call returns no command and the
    trimmed text.  The call raises only when [int] refuses the count of
    the third rule, a run of more than 4300 digits.  In particular
    "delete that" gives [delete_last] with no argument and an empty
    residual, and "undo that write hello" is not detected as [undo] with
    the residual "write hello": it gives no command. *)
Theorem detect_command_whole_utterance :
  (forall text,
     match detect_command text with
     | Some (Some (action, a), residual) =>
         residual = EmptyString /\
         exists before pattern a0 after m,
           VOICE_COMMANDS = (before ++ (pattern, action, a0) :: after)%list /\
           Forall (fun rule => match_ (pattern_of rule) (Py.strip text) = None)
                  before /\
           match_ pattern (Py.strip text) = Some m /\
           at_eol (rest m) = true
     | Some (None, residual) =>
         residual = Py.strip text /\
         Forall (fun rule => match_ (pattern_of rule) (Py.strip text) = None)
                VOICE_COMMANDS
     | None =>
         exists before pattern action a0 after m digits,
           VOICE_COMMANDS = (before ++ (pattern, action, a0) :: after)%list /\
           Forall (fun rule => match_ (pattern_of rule) (Py.strip text) = None)
                  before /\
           match_ pattern (Py.strip text) = Some m /\
           group1 m = Some digits /\
           (Py.int_max_str_digits < Py.len digits)%nat
     end) /\
  detect_command "delete that" = Some (Some ("delete_last", ArgNone), EmptyString) /\
  detect_command "undo that write hello" = Some (None, "undo that write hello") /\
  detect_command "undo that write hello"
  <> Some (Some ("undo", ArgNone), "write hello").
Proof.
  split; [|split; [|split]; vm_compute; [reflexivity|reflexivity|discriminate]].
  intros text. unfold detect_command.
  pose proof (detect_loop_spec VOICE_COMMANDS (Py.strip text)
                VOICE_COMMANDS_capture_ok) as Hspec.
  destruct (detect_loop VOICE_COMMANDS (Py.strip text))
    as [[[[action a]|] residual]|]; [|exact Hspec|exact Hspec].
  destruct Hspec as (before & pattern & a0 & after & m & Ht & Hb & Hm & ->).
  assert (Heol : at_eol (rest m) = true).
  { pose proof VOICE_COMMANDS_anchored as Ha. rewrite Ht in Ha.
    apply Forall_app in Ha as [_ Ha]. apply Forall_cons in Ha as [Ha _].
    eapply spans_ends_with_eol; [exact Ha|].
    apply (match_sound pattern _ m Hm). }
  split; [now apply at_eol_strip|].
  exists before, pattern, a0, after, m. auto.
Qed.

End Commands.

(* ===================================================================== *)
(** * The usage history store                                            *)
(* ===================================================================== *)

Section History.

Import Datetime TranscriptionDB StatsSpec.
Local Open Scope Z_scope.

Lemma days_in_month_ge (y m : Z) : 28 <= days_in_month y m.
Proof.
  unfold days_in_month.
  repeat match goal with |- context [if ?b then _ else _] => destruct b end; lia.
Qed.

Lemma valid_intro (t : datetime) :
  1 <= year t <= 9999 -> 1 <= month t <= 12 ->
  1 <= day t <= days_in_month (year t) (month t) ->
  0 <= hour t < 24 -> 0 <= minute t < 60 -> 0 <= second t < 60 ->
  0 <= microsecond t < 1000000 -> valid t.
Proof.
  intros. unfold valid, validb. rewrite !andb_true_iff.
  rewrite !Z.leb_le, !Z.ltb_lt. tauto.
Qed.

Lemma valid_midnight (t : datetime) : valid t -> valid (midnight t).
Proof.
  intros H. apply valid_bounds in H. apply valid_intro; cbn; lia.
Qed.

Lemma days_in_month_31 : forall y, days_in_month y 12 = 31.
Proof. reflexivity. Qed.

Ltac by_fields :=
  unfold Datetime.lt, Datetime.le, compare, lex, midnight;
  cbn [year month day hour minute second microsecond];
  repeat match goal with
         | |- context [?a ?= ?b] => destruct (Z.compare_spec a b)
         end; try discriminate; try reflexivity; try lia; try (exfalso; lia).

(** The day after a valid day that is not the last one. *)
Lemma add_one_day_midnight (q : datetime) :
  valid q -> ~ last_day q ->
  exists tm, add_one_day (midnight q) = Some tm /\ valid tm /\
             forall x, valid x -> same_day x q -> Datetime.lt x tm.
Proof.
  intros Hv Hlast. apply valid_bounds in Hv as Hb.
  pose proof (days_in_month_le (year q) (month q)) as Hle.
  unfold add_one_day; cbn [day month year midnight hour minute second microsecond].
  destruct (Z.ltb_spec (day q) (days_in_month (year q) (month q))) as [Hd|Hd].
  - eexists. split; [reflexivity|]. split.
    + apply valid_intro; cbn; lia.
    + intros x Hx (Hy & Hm & Hdd). by_fields.
  - destruct (Z.ltb_spec (month q) 12) as [Hm|Hm].
    + eexists. split; [reflexivity|]. split.
      * pose proof (days_in_month_ge (year q) (month q + 1)).
        apply valid_intro; cbn; lia.
      * intros x Hx (Hy & Hmm & Hdd). by_fields.
    + destruct (Z.ltb_spec (year q) 9999) as [Hy|Hy].
      * eexists. split; [reflexivity|]. split.
        -- apply valid_intro; cbn; lia.
        -- intros x Hx (Hyy & Hmm & Hdd). by_fields.
      * exfalso. apply Hlast. unfold last_day.
        assert (month q = 12) as Em by lia. rewrite Em, days_in_month_31 in *.
        lia.
Qed.

Lemma midnight_le (q x : datetime) :
  valid x -> same_day x q -> Datetime.le (midnight q) x.
Proof.
  intros Hx (Hy & Hm & Hd). apply valid_bounds in Hx.
  unfold Datetime.le. by_fields.
Qed.

Lemma string_leb_compare a b : String.leb a b = true <-> (a ?= b)%string <> Gt.
Proof. unfold String.leb. destruct (a ?= b)%string; split; congruence. Qed.

Lemma string_ltb_compare a b : String.ltb a b = true <-> (a ?= b)%string = Lt.
Proof. unfold String.ltb. destruct (a ?= b)%string; split; congruence. Qed.

(** The WHERE clause selects a row exactly when its time lies in the
    half-open range: [since] inclusive, [until] exclusive. *)
Lemma in_where_within since until (r : row) (t : datetime) :
  valid t -> bounds_valid since until -> timestamp r = isoformat t ->
  in_where since until r = true <-> within since until t.
Proof.
  intros Ht [Hs Hu] E. unfold in_where, within. rewrite andb_true_iff, E.
  destruct since as [s|], until as [u|];
    rewrite ?string_leb_compare, ?string_ltb_compare, ?isoformat_compare
      by assumption; unfold Datetime.le, Datetime.lt; tauto.
Qed.

Lemma sum_snoc (l : list nat) (x : nat) :
  sum (l ++ [x]) = (sum l + x)%nat.
Proof. unfold sum. induction l as [|y l IH]; cbn [foldr app]; lia. Qed.

Lemma get_stats_snoc (d : db) (r : row) since until lr wc :
  let d' := {| transcriptions := transcriptions d ++ [r];
               last_rowid := lr; word_counts := wc |} in
  get_stats d' since until
  = if in_where since until r
    then {| total_transcriptions := total_transcriptions (get_stats d since until) + 1;
            total_words := total_words (get_stats d since until) + word_count r;
            total_chars := total_chars (get_stats d since until) + char_count r |}
    else get_stats d since until.
Proof.
  cbn zeta. unfold get_stats; cbn [transcriptions].
  rewrite List.filter_app. cbn [List.filter].
  destruct (in_where since until r); [|now rewrite app_nil_r].
  rewrite !map_app, !length_app. cbn [map length]. rewrite !sum_snoc. reflexivity.
Qed.

Lemma record_row (d : db) now raw edited duration bundle name pres :
  exists r,
    snd (record d now raw edited duration bundle name pres)
    = {| transcriptions := transcriptions d ++ [r];
         last_rowid := S (last_rowid d);
         word_counts := count_words (Py.split (Py.or_else edited raw))
                                    (word_counts d) |} /\
    timestamp r = isoformat now /\
    raw_text r = raw /\ edited_text r = edited /\
    word_count r = length (Py.split (Py.or_else edited raw)) /\
    char_count r = Py.len (Py.or_else edited raw).
Proof. eexists. unfold record; cbn. repeat split. Qed.

(** C9 (history recording and range stats).  [record] of "hello world"
    with no edited text inserts exactly one row; a [get_stats_today] made
    the same day reports one more transcription and two more words than
    before; and [get_stats] over a range [since, until) that does not
    contain the time of the insertion reports what it reported before. *)
Theorem record_counted_today_only (d : db) (now query : datetime)
    (duration : QArith_base.Q) (bundle name pres : option string) :
  valid now -> valid query -> same_day now query -> ~ last_day query ->
  let d' := snd (record d now "hello world" None duration bundle name pres) in
  length (transcriptions d') = S (length (transcriptions d)) /\
  (exists s s',
     get_stats_today d query = Some s /\
     get_stats_today d' query = Some s' /\
     total_transcriptions s' = (total_transcriptions s + 1)%nat /\
     total_words s' = (total_words s + 2)%nat) /\
  (forall since until,
     bounds_valid since until -> ~ within since until now ->
     get_stats d' since until = get_stats d since until).
Proof.
  intros Hnow Hq Hday Hlast. cbn zeta.
  destruct (record_row d now "hello world" None duration bundle name pres)
    as (r & -> & Hts & _ & _ & Hwc & _).
  cbn [transcriptions]. split; [|split].
  - rewrite length_app. cbn. lia.
  - destruct (add_one_day_midnight query Hq Hlast) as (tm & Htm & Hvtm & Hlt).
    unfold get_stats_today. rewrite Htm. cbn.
    do 2 eexists. split; [reflexivity|]. split; [reflexivity|].
    rewrite get_stats_snoc.
    assert (Hin : in_where (Some (midnight query)) (Some tm) r = true).
    { apply (in_where_within _ _ r now Hnow); [|exact Hts|].
      - split; [now apply valid_midnight|exact Hvtm].
      - split; [now apply midnight_le|now apply Hlt]. }
    rewrite Hin. cbn [total_transcriptions total_words].
    rewrite Hwc. split; reflexivity.
  - intros since until Hb Hout. rewrite get_stats_snoc.
    destruct (in_where since until r) eqn:Hin; [|reflexivity].
    exfalso. apply Hout. now apply (in_where_within _ _ r now Hnow Hb Hts).
Qed.

(** C10 (counts use the edited text unless it is absent or empty).  The
    row [record] stores has its counts computed from [edited_text] when
    that is neither [None] nor empty, and from [raw_text] otherwise; so
    the character count of a row with non-empty raw text is never 0. *)
Theorem record_counts_source (d : db) (now : datetime) (raw : string)
    (edited : option string) (duration : QArith_base.Q)
    (bundle name pres : option string) :
  exists r,
    transcriptions (snd (record d now raw edited duration bundle name pres))
    = (transcriptions d ++ [r])%list /\
    raw_text r = raw /\ edited_text r = edited /\
    (forall e, edited = Some e -> e <> EmptyString ->
       word_count r = length (Py.split e) /\ char_count r = Py.len e) /\
    (edited = None \/ edited = Some EmptyString ->
       word_count r = length (Py.split raw) /\ char_count r = Py.len raw) /\
    (raw <> EmptyString -> char_count r <> 0%nat).
Proof.
  destruct (record_row d now raw edited duration bundle name pres)
    as (r & -> & _ & Hraw & Hed & Hwc & Hcc).
  exists r. cbn [transcriptions]. split; [reflexivity|].
  split; [exact Hraw|]. split; [exact Hed|]. rewrite Hwc, Hcc. split; [|split].
  - intros e -> Hne. destruct e; [contradiction|]. cbn. auto.
  - intros [-> | ->]; cbn; auto.
  - intros Hne. destruct edited as [[|c e]|]; cbn; destruct raw; cbn;
      try contradiction; discriminate.
Qed.

Lemma record_counted_today_only_witness :
  valid noon /\ valid evening /\ same_day noon evening /\ ~ last_day evening /\
  let d' := snd (record empty_db noon "hello world" None two_seconds
                        None None None) in
  length (transcriptions d') = S (length (transcriptions empty_db)) /\
  (exists s s',
     get_stats_today empty_db evening = Some s /\
     get_stats_today d' evening = Some s' /\
     total_transcriptions s' = (total_transcriptions s + 1)%nat /\
     total_words s' = (total_words s + 2)%nat) /\
  (forall since until,
     bounds_valid since until -> ~ within since until noon ->
     get_stats d' since until = get_stats empty_db since until).
Proof.
  assert (Hlast : ~ last_day evening) by (intros [H _]; discriminate H).
  assert (Hday : same_day noon evening) by (repeat split).
  split; [reflexivity|]. split; [reflexivity|]. split; [exact Hday|].
  split; [exact Hlast|].
  exact (record_counted_today_only empty_db noon evening two_seconds
           None None None eq_refl eq_refl Hday Hlast).
Defined.

Lemma record_counts_source_witness :
  exists r,
    transcriptions (snd (record empty_db noon "hello world" (Some EmptyString)
                                two_seconds None None None)) = [r] /\
    word_count r = 2%nat /\ char_count r = 11%nat.
Proof.
  destruct (record_counts_source empty_db noon "hello world" (Some EmptyString)
              two_seconds None None None)
    as (r & Ht & _ & _ & _ & Hfall & _).
  exists r. split; [exact Ht|].
  destruct (Hfall (or_intror eq_refl)) as [-> ->]. split; reflexivity.
Defined.

End History.

(* ===================================================================== *)
(** * The text dictionaries                                              *)
(* ===================================================================== *)

Section Substitution.

Import Re Dict TextSpec.

Lemma rmatch_lits {A} (t : string) :
  forall st (k : mstate -> option A),
    rmatch (lits t) st k
    = match prefix_ci t (rest st) with
      | Some (last, r) =>
          k {| prev := match last with Some y => Some y | None => prev st end;
               rest := r; group1 := group1 st |}
      | None => None
      end.
Proof.
  induction t as [|c t IH]; intros st k.
  - cbn. now destruct st.
  - cbn [lits rmatch prefix_ci]. unfold eat.
    destruct (rest st) as [|x s']; [reflexivity|].
    destruct (same_letter c x); [|reflexivity].
    rewrite IH. cbn [rest prev group1].
    destruct (prefix_ci t s') as [[[y|] r]|]; reflexivity.
Qed.

Lemma prefix_ci_length (t s : string) last r :
  prefix_ci t s = Some (last, r) ->
  String.length s = String.length t + String.length r.
Proof.
  revert s last r. induction t as [|c t IH]; intros s last r H.
  - cbn in H. injection H as _ ->. reflexivity.
  - cbn [prefix_ci] in H. destruct s as [|x s']; [discriminate|].
    destruct (same_letter c x); [|discriminate].
    destruct (prefix_ci t s') as [[[y|] r']|] eqn:E; [| |discriminate];
      injection H as _ <-; cbn; f_equal; eapply IH; eauto.
Qed.

Lemma at_boundary_eq before s g :
  at_boundary {| prev := before; rest := s; group1 := g |} = boundary before s.
Proof. unfold at_boundary, boundary. destruct before, s; reflexivity. Qed.

(** On the pattern of a trigger the engine finds the whole-word
    occurrence, and nothing else. *)
Lemma match_here_word (t : string) before s (adv : bool) :
  match_here (word_pattern t) before s adv
  = match occurrence t before s with
    | Some n => if adv && (n =? 0)%nat then None else Some n
    | None => None
    end.
Proof.
  unfold match_here, word_pattern, occurrence. cbn [rmatch].
  rewrite at_boundary_eq.
  destruct (boundary before s); [|reflexivity].
  rewrite rmatch_lits. cbn [rest prev group1].
  destruct (prefix_ci t s) as [[last r]|] eqn:E; [|reflexivity].
  rewrite at_boundary_eq. cbn [rest].
  destruct (boundary _ r); [|reflexivity].
  apply prefix_ci_length in E. rewrite E.
  replace (String.length t + String.length r - String.length r)
    with (String.length t) by lia.
  reflexivity.
Qed.

(** A template without backslash stands for itself. *)
Lemma parse_template_plain (s : string) :
  forall fuel, plain s = true -> String.length s <= fuel ->
               parse_template fuel s = Some (titems s).
Proof.
  induction s as [|c s IH]; intros fuel Hp Hlen.
  - destruct fuel; reflexivity.
  - destruct fuel as [|fuel]; [cbn in Hlen; lia|].
    cbn [plain] in Hp. apply andb_true_iff in Hp as [Hc Hp].
    cbn [parse_template]. change (Ascii.eqb c "\") with (Ascii.eqb c backslash).
    rewrite Hc, IH by (cbn in Hlen; auto with arith; lia). reflexivity.
Qed.

Lemma expand_titems (s matched : string) : expand_template (titems s) matched = s.
Proof. induction s as [|c s IH]; cbn; [reflexivity|now rewrite IH]. Qed.

Lemma sub_scan_plain (t repl : string) :
  forall s before skip,
    sub_scan (word_pattern t) (titems repl) before s skip
    = replace_words t repl before s skip.
Proof.
  induction s as [|c s IH]; intros before skip.
  - destruct skip; [|reflexivity]. cbn [sub_scan replace_words].
    rewrite !match_here_word.
    destruct (occurrence t before EmptyString) as [[|n]|]; cbn;
      rewrite ?expand_titems; reflexivity.
  - destruct skip as [|skip]; [|cbn; apply IH].
    cbn [sub_scan replace_words]. rewrite !match_here_word.
    destruct (occurrence t before (String c s)) as [[|n]|]; cbn [andb Nat.eqb];
      rewrite ?expand_titems, ?IH; reflexivity.
Qed.

(** With a plain replacement, [pattern.sub] is whole-word substitution. *)
Lemma sub_plain (t repl s : string) :
  plain repl = true ->
  sub (word_pattern t) repl s = Some (replace_words t repl None s 0).
Proof.
  intros Hp. unfold sub, compile_template.
  rewrite parse_template_plain by auto. cbn. now rewrite sub_scan_plain.
Qed.

Lemma substitute_all_plain (d : dict) (text : string) :
  plain_values d -> substitute_all d text = Some (replace_all d text).
Proof.
  unfold plain_values, replace_all. revert text.
  induction d as [|[t v] d IH]; intros text Hp; [reflexivity|].
  apply Forall_cons in Hp as [Hv Hp]. cbn [substitute_all foldl fst snd].
  rewrite sub_plain by exact Hv. cbn. now apply IH.
Qed.

End Substitution.

Section Dictionaries.

Import Re Dict TextSpec.

(** Exact-match mode of [expand]: when the trimmed, lower-cased text is
    a stored trigger, the result is its expansion as stored, whatever
    the other entries are. *)
Theorem expand_exact (snippets : dict) (text e : string) :
  get (Py.lower (Py.strip text)) snippets = Some e ->
  SnippetExpander.expand snippets text = Some e.
Proof.
  intros H. unfold SnippetExpander.expand.
  destruct snippets; [discriminate|]. now rewrite H.
Qed.

(** X8.  Scan mode of [expand] when the expansions are plain text:
    whole-word substitution, trigger after trigger. *)
Theorem expand_plain (snippets : dict) (text : string) :
  plain_values snippets ->
  get (Py.lower (Py.strip text)) snippets = None ->
  SnippetExpander.expand snippets text = Some (replace_all snippets text).
Proof.
  intros Hp H. unfold SnippetExpander.expand.
  destruct snippets as [|entry snippets]; [reflexivity|].
  rewrite H. now apply substitute_all_plain.
Qed.

(** X9.  [apply] when the replacements are plain text: whole-word
    substitution, trigger after trigger, the replacement as stored. *)
Theorem apply_plain (corrections : dict) (text : string) :
  plain_values corrections ->
  PersonalDictionary.apply corrections text
  = Some (replace_all corrections text).
Proof.
  intros Hp. unfold PersonalDictionary.apply.
  destruct corrections as [|entry corrections]; [reflexivity|].
  now apply substitute_all_plain.
Qed.

Lemma expand_exact_witness :
  get (Py.lower (Py.strip "  Sig  ")) [("sig", "Best, Jamie")]
  = Some "Best, Jamie" /\
  SnippetExpander.expand [("sig", "Best, Jamie")] "  Sig  " = Some "Best, Jamie".
Proof.
  split; [reflexivity|].
  exact (expand_exact [("sig", "Best, Jamie")] "  Sig  " "Best, Jamie" eq_refl).
Defined.

Lemma expand_plain_witness :
  plain_values [("sig", "Best, Jamie")] /\
  get (Py.lower (Py.strip "please sig now")) [("sig", "Best, Jamie")] = None /\
  SnippetExpander.expand [("sig", "Best, Jamie")] "please sig now"
  = Some (replace_all [("sig", "Best, Jamie")] "please sig now").
Proof.
  assert (Hp : plain_values [("sig", "Best, Jamie")])
    by (repeat constructor).
  split; [exact Hp|]. split; [reflexivity|].
  exact (expand_plain [("sig", "Best, Jamie")] "please sig now" Hp eq_refl).
Defined.

Lemma apply_plain_witness :
  plain_values [("tesla", "Tesla")] /\
  PersonalDictionary.apply [("tesla", "Tesla")] "I said TESLA yesterday"
  = Some (replace_all [("tesla", "Tesla")] "I said TESLA yesterday") /\
  replace_all [("tesla", "Tesla")] "I said TESLA yesterday"
  = "I said Tesla yesterday".
Proof.
  assert (Hp : plain_values [("tesla", "Tesla")]) by (repeat constructor).
  split; [exact Hp|]. split; [|reflexivity].
  exact (apply_plain [("tesla", "Tesla")] "I said TESLA yesterday" Hp).
Defined.

(** C7 (snippet expansion, two modes), at the failing input.  With the
    expansion [C:\Users] stored for [sig], the exact-match mode returns
    the expansion, but the scan mode raises instead of substituting it:
    [pattern.sub] reads the expansion as a template and refuses the
    escape.  The two examples of the claim hold. *)
Theorem expand_scan_raises_on_backslash :
  SnippetExpander.expand [("sig", "C:\Users")] "  SIG " = Some "C:\Users" /\
  SnippetExpander.expand [("sig", "C:\Users")] "my sig" = None /\
  SnippetExpander.expand [("sig", "C:\Users")] "nothing to expand" = None /\
  SnippetExpander.expand [("sig", "Best, Jamie")] "  sig  " = Some "Best, Jamie" /\
  SnippetExpander.expand [("sig", "Best, Jamie")] "please sig now"
  = Some "please Best, Jamie now".
Proof. repeat split; vm_compute; reflexivity. Qed.

(** C8 (corrections keep the replacement's text), at the failing input.
    With the replacement backslash-n stored for [newline], [apply] emits
    a line feed, not the two stored characters; with [C:\Users] it
    raises.  The example of the claim holds. *)
Theorem apply_backslash_not_verbatim :
  PersonalDictionary.apply [("newline", "\n")] "print newline"
  = Some ("print " +:+ String Re.newline EmptyString) /\
  PersonalDictionary.apply [("newline", "\n")] "print newline"
  <> Some "print \n" /\
  PersonalDictionary.apply [("dir", "C:\Users")] "open dir" = None /\
  PersonalDictionary.apply [("tesla", "Tesla")] "I said TESLA yesterday"
  = Some "I said Tesla yesterday".
Proof.
  repeat split; try (vm_compute; reflexivity). vm_compute. discriminate.
Qed.

End Dictionaries.

(* ===================================================================== *)
(** * The recording queue: what each call leaves pending                 *)
(* ===================================================================== *)

Section Restriction.

Import Datetime AudioQueue QueueSpec QueueSpec2.

Lemma string_app_inv_tail (a b t : string) : a +:+ t = b +:+ t -> a = b.
Proof.
  revert b. induction a as [|c a IH]; intros [|c' b] H.
  - reflexivity.
  - exfalso. apply (f_equal String.length) in H.
    rewrite !string_length_app in H. cbn [String.length] in H. lia.
  - exfalso. apply (f_equal String.length) in H.
    rewrite !string_length_app in H. cbn [String.length] in H. lia.
  - cbn in H. injection H as -> H. f_equal. auto.
Qed.

Global Instance path_le_antisymm : AntiSymm (=) path_le.
Proof.
  intros a b Hab Hba. unfold path_le in *.
  apply (string_app_inv_tail a b ".json").
  apply (anti_symm String.le); assumption.
Qed.

Lemma filter_ext_in {A} (P Q : A -> Prop) `{!forall x, Decision (P x)}
    `{!forall x, Decision (Q x)} (l : list A) :
  (forall x, x ∈ l -> P x <-> Q x) -> filter P l = filter Q l.
Proof.
  induction l as [|x l IH]; intros Hl; [reflexivity|].
  rewrite !filter_cons.
  assert (Hx : P x <-> Q x) by (apply Hl; left).
  rewrite IH by (intros y Hy; apply Hl; right; exact Hy).
  destruct (decide (P x)), (decide (Q x)); tauto.
Qed.

Lemma StronglySorted_filter {A} (R : relation A) (P : A -> Prop)
    `{!forall x, Decision (P x)} (l : list A) :
  StronglySorted R l -> StronglySorted R (filter P l).
Proof. apply StronglySorted_sublist, sublist_filter. Qed.

(** The sorted glob of a directory whose metadata files are some of
    those of another. *)
Lemma sorted_glob_restrict (P : string -> bool) d d' :
  (forall k, is_Some (jsons d' !! k) <-> is_Some (jsons d !! k) /\ P k = true) ->
  sorted_glob d' = filter (fun k => P k = true) (sorted_glob d).
Proof.
  intros H. apply (StronglySorted_unique path_le).
  - apply sorted_glob_sorted.
  - apply StronglySorted_filter, sorted_glob_sorted.
  - apply NoDup_Permutation.
    + apply NoDup_sorted_glob.
    + apply NoDup_filter, NoDup_sorted_glob.
    + intros k. rewrite list_elem_of_filter, !elem_of_sorted_glob, H. tauto.
Qed.

Lemma omap_filter_commute {A B} (f : A -> option B) (P : A -> bool)
    (Q : B -> bool) (l : list A) :
  (forall x y, f x = Some y -> P x = Q y) ->
  omap f (filter (fun x => P x = true) l)
  = filter (fun y => Q y = true) (omap f l).
Proof.
  intros H. induction l as [|x l IH]; [reflexivity|].
  rewrite filter_cons. csimpl.
  destruct (f x) as [y|] eqn:E.
  - rewrite filter_cons, <- (H x y E).
    destruct (decide (P x = true)); csimpl; rewrite ?E, IH; reflexivity.
  - destruct (decide (P x = true)); csimpl; rewrite ?E, IH; reflexivity.
Qed.

(** The listing of a directory that keeps the files at the stems
    selected by [P] as they are and has no metadata elsewhere. *)
Lemma get_pending_restrict (P : string -> bool) d d' :
  (forall k, P k = true ->
     wavs d' !! k = wavs d !! k /\ jsons d' !! k = jsons d !! k) ->
  (forall k, P k = false -> jsons d' !! k = None) ->
  recordings (get_pending d')
  = filter (fun r => P (id r) = true) (recordings (get_pending d)).
Proof.
  intros Hkeep Hdrop. unfold get_pending.
  rewrite !get_pending_loop_recordings by apply NoDup_sorted_glob.
  rewrite (sorted_glob_restrict P d d').
  - rewrite (omap_ext_in (load d') (load d)).
    + apply omap_filter_commute. intros k r Hl.
      apply load_id in Hl. congruence.
    + intros k [Hk _]%list_elem_of_filter.
      destruct (Hkeep k Hk). apply load_ext; assumption.
  - intros k. destruct (P k) eqn:E.
    + destruct (Hkeep k E) as [_ ->]. tauto.
    + rewrite (Hdrop k E). split; [intros [? ?]; discriminate|].
      intros [_ ?]; discriminate.
Qed.

Lemma get_pending_loop_warnings_filter (paths : list string) (d : directory) :
  NoDup paths ->
  warnings (get_pending_loop paths d)
  = filter (fun k => loads d k = false) paths.
Proof.
  revert d. induction paths as [|stem rest IH]; intros d Hnd; [reflexivity|].
  apply NoDup_cons in Hnd as [Hnotin Hnd].
  cbn [get_pending_loop]. rewrite filter_cons.
  assert (Hl : loads d stem = match content <$> jsons d !! stem with
                              | Some (Loadable _) => true | _ => false end)
    by reflexivity.
  destruct (content <$> jsons d !! stem) as [[m|]|] eqn:E;
    [case_bool_decide as Hw|..]; cbn [warnings];
    rewrite IH, Hl by assumption.
  - rewrite decide_False by discriminate. reflexivity.
  - rewrite decide_False by discriminate.
    apply filter_ext_in. intros k Hin.
    assert (k <> stem) by congruence.
    unfold loads, unlink_json; cbn [jsons].
    rewrite lookup_delete_ne by congruence. reflexivity.
  - rewrite decide_True by reflexivity. reflexivity.
  - rewrite decide_True by reflexivity. reflexivity.
Qed.

(** Every metadata file loads with its audio, fails to load, or is an
    orphan. *)
Lemma classify_length (d : directory) (l : list string) :
  length (filter (fun k => orphan d k = false) l)
  = length (omap (load d) l) + length (filter (fun k => loads d k = false) l).
Proof.
  induction l as [|k l IH]; [reflexivity|].
  rewrite !filter_cons. csimpl.
  assert (Hcases :
    (exists r, load d k = Some r /\ orphan d k = false /\ loads d k = true) \/
    (load d k = None /\ orphan d k = true /\ loads d k = true) \/
    (load d k = None /\ orphan d k = false /\ loads d k = false)).
  { unfold load, orphan, loads.
    destruct (content <$> jsons d !! k) as [[m|]|];
      [case_bool_decide|..]; cbn [negb]; eauto 6. }
  destruct Hcases as [(r & -> & -> & ->)|[(-> & -> & ->)|(-> & -> & ->)]].
  - rewrite decide_True, decide_False by (reflexivity || discriminate).
    cbn [length]. rewrite IH. lia.
  - rewrite !decide_False by discriminate. exact IH.
  - rewrite !decide_True by reflexivity. cbn [length]. rewrite IH. lia.
Qed.

Lemma orphan_dir_after d k :
  orphan (dir_after (get_pending d)) k = false.
Proof.
  unfold get_pending, orphan.
  rewrite get_pending_loop_wavs, get_pending_loop_jsons.
  destruct (bool_decide (k ∈ sorted_glob d) && orphan d k) eqn:E;
    [reflexivity|].
  apply andb_false_iff in E as [E|E].
  - apply bool_decide_eq_false in E. rewrite elem_of_sorted_glob in E.
    destruct (jsons d !! k); [exfalso; eauto|reflexivity].
  - exact E.
Qed.

Lemma directory_eq d1 d2 :
  wavs d1 = wavs d2 -> (forall k, jsons d1 !! k = jsons d2 !! k) -> d1 = d2.
Proof.
  destruct d1, d2; cbn. intros -> H. f_equal. apply map_eq, H.
Qed.

Lemma dir_after_jsons d k :
  jsons (dir_after (get_pending d)) !! k
  = if orphan d k then None else jsons d !! k.
Proof.
  unfold get_pending. rewrite get_pending_loop_jsons.
  case_bool_decide as Hin; [reflexivity|]. cbn [andb].
  rewrite elem_of_sorted_glob in Hin.
  destruct (jsons d !! k) eqn:E; [exfalso; eauto|].
  destruct (orphan d k); reflexivity.
Qed.

Lemma dir_after_wavs d : wavs (dir_after (get_pending d)) = wavs d.
Proof. apply get_pending_loop_wavs. Qed.

Lemma loads_dir_after d k :
  orphan d k = false -> loads (dir_after (get_pending d)) k = loads d k.
Proof. intros H. unfold loads. rewrite dir_after_jsons, H. reflexivity. Qed.

Lemma filter_all {A} (P : A -> Prop) `{!forall x, Decision (P x)} (l : list A) :
  (forall x, x ∈ l -> P x) -> filter P l = l.
Proof.
  induction l as [|x l IH]; intros Hl; [reflexivity|].
  rewrite filter_cons, decide_True by (apply Hl; left).
  f_equal. apply IH. intros y Hy. apply Hl. right. exact Hy.
Qed.

Lemma sorted_glob_dir_after d :
  sorted_glob (dir_after (get_pending d))
  = filter (fun k => negb (orphan d k) = true) (sorted_glob d).
Proof.
  apply sorted_glob_restrict. intros k. rewrite dir_after_jsons.
  destruct (orphan d k); cbn.
  - split; [intros [? ?]; discriminate|intros [_ ?]; discriminate].
  - tauto.
Qed.

Lemma recordings_dir_after d :
  recordings (get_pending (dir_after (get_pending d)))
  = recordings (get_pending d).
Proof.
  rewrite (get_pending_restrict (fun k => negb (orphan d k))
             d (dir_after (get_pending d))).
  - apply filter_all. intros r Hr. apply elem_of_get_pending in Hr.
    apply load_orphan_false in Hr. rewrite Hr. reflexivity.
  - intros k Hk. apply negb_true_iff in Hk.
    apply get_pending_keeps. exact Hk.
  - intros k Hk. apply negb_false_iff in Hk.
    rewrite dir_after_jsons, Hk. reflexivity.
Qed.

Lemma length_sorted_glob d : length (sorted_glob d) = get_pending_count d.
Proof.
  unfold sorted_glob, get_pending_count.
  apply Permutation_length, merge_sort_Permutation.
Qed.

Lemma cleanup_loop_count paths c d :
  NoDup paths ->
  fst (cleanup_loop paths c d)
  = length (filter (fun k => older d c k = true) paths).
Proof.
  revert d. induction paths as [|stem rest IH]; intros d Hnd; [reflexivity|].
  apply NoDup_cons in Hnd as [Hnotin Hnd].
  cbn [cleanup_loop]. rewrite filter_cons.
  assert (Ho : older d c stem = match jsons d !! stem with
                                | Some f => Float.ltb (st_mtime f) c
                                | None => false end) by reflexivity.
  destruct (jsons d !! stem) as [f|] eqn:E.
  - destruct (Float.ltb (st_mtime f) c) eqn:Eold; rewrite Ho.
    + rewrite decide_True by reflexivity.
      specialize (IH (unlink_wav stem (unlink_json stem d)) Hnd).
      destruct (cleanup_loop rest c (unlink_wav stem (unlink_json stem d)))
        as [n d'']. cbn [fst] in *. cbn [length]. f_equal. rewrite IH.
      f_equal. apply filter_ext_in. intros k Hin.
      assert (k <> stem) by congruence.
      unfold older, unlink_wav, unlink_json; cbn [jsons].
      rewrite lookup_delete_ne by congruence. reflexivity.
    + rewrite decide_False by discriminate. apply IH, Hnd.
  - rewrite Ho, decide_False by discriminate. apply IH, Hnd.
Qed.

Lemma cleanup_old_lookup d c k :
  let d' := snd (cleanup_loop (glob_json d) c d) in
  let old := older d c k in
  wavs d' !! k = (if old then None else wavs d !! k) /\
  jsons d' !! k = (if old then None else jsons d !! k).
Proof.
  cbn zeta.
  pose proof (cleanup_loop_lookup (glob_json d) c d k) as H.
  cbn zeta in H. unfold older.
  destruct (jsons d !! k) as [f|] eqn:E.
  - rewrite bool_decide_eq_true_2 in H; [exact H|].
    unfold glob_json. rewrite elem_of_elements. apply elem_of_dom. eauto.
  - rewrite andb_false_r in H. exact H.
Qed.

Lemma map_fold_length_comm (m : gmap string (list Byte.byte)) :
  forall (j1 j2 : string) (z1 z2 : list Byte.byte) (y : nat),
    j1 <> j2 -> m !! j1 = Some z1 -> m !! j2 = Some z2 ->
    length z1 + (length z2 + y) = length z2 + (length z1 + y).
Proof. intros. lia. Qed.

End Restriction.

Section QueueCalls.

Import Datetime AudioQueue QueueSpec QueueSpec2.

(** X2.  [mark_completed] takes exactly the marked recording out of the
    listing, keeps the others in their order, and does nothing when it
    is repeated (the files are unlinked with [missing_ok]). *)
Theorem mark_completed_listing (d : directory) (r : PendingRecording) :
  recordings (get_pending (mark_completed d r))
  = filter (fun x => id x <> id r) (recordings (get_pending d)) /\
  mark_completed (mark_completed d r) r = mark_completed d r.
Proof.
  split.
  - rewrite (get_pending_restrict (fun k => negb (bool_decide (k = id r)))
               d (mark_completed d r)).
    + apply filter_ext_in. intros x _.
      rewrite negb_true_iff, bool_decide_eq_false. reflexivity.
    + intros k Hk. apply negb_true_iff in Hk.
      rewrite mark_completed_wavs, mark_completed_jsons, Hk. auto.
    + intros k Hk. apply negb_false_iff in Hk.
      rewrite mark_completed_jsons, Hk. reflexivity.
  - apply directory_eq.
    + apply map_eq. intros k. rewrite !mark_completed_wavs.
      case_bool_decide; reflexivity.
    + intros k. rewrite !mark_completed_jsons.
      case_bool_decide; reflexivity.
Qed.

(** X3.  A second [get_pending] directly after a first returns the same
    list, prints the same warnings and changes nothing: the first call
    has removed every orphan it will ever remove. *)
Theorem get_pending_idempotent (d : directory) :
  get_pending (dir_after (get_pending d)) = get_pending d /\
  dir_after (get_pending (dir_after (get_pending d)))
  = dir_after (get_pending d).
Proof.
  assert (Hdir : dir_after (get_pending (dir_after (get_pending d)))
                 = dir_after (get_pending d)).
  { apply directory_eq.
    - now rewrite dir_after_wavs.
    - intros k. rewrite (dir_after_jsons (dir_after (get_pending d))).
      now rewrite orphan_dir_after. }
  split; [|exact Hdir].
  assert (Hrec := recordings_dir_after d).
  assert (Hwarn : warnings (get_pending (dir_after (get_pending d)))
                  = warnings (get_pending d)).
  { unfold get_pending at 1 3.
    rewrite !get_pending_loop_warnings_filter by apply NoDup_sorted_glob.
    rewrite sorted_glob_dir_after, list_filter_filter.
    apply filter_ext_in. intros k _. split.
    - intros [Hl Ho]. apply negb_true_iff in Ho.
      now rewrite <- (loads_dir_after d k Ho).
    - intros Hl.
      assert (Ho : orphan d k = false).
      { unfold loads in Hl. unfold orphan.
        destruct (content <$> jsons d !! k) as [[m|]|];
          [discriminate|reflexivity|reflexivity]. }
      split; [now rewrite loads_dir_after|now rewrite Ho]. }
  destruct (get_pending (dir_after (get_pending d))) as [a b c],
           (get_pending d) as [a' b' c']. cbn in *. congruence.
Qed.

(** X4.  [get_pending_count] counts metadata files, not recordings: it is
    never below the number of recordings and warnings of a listing,
    and right after a listing it is exactly that number, the files
    that fail to load included. *)
Theorem get_pending_count_listing (d : directory) :
  let l := get_pending d in
  length (recordings l) + length (warnings l) <= get_pending_count d /\
  get_pending_count (dir_after l)
  = length (recordings l) + length (warnings l).
Proof.
  cbn zeta.
  assert (E : length (filter (fun k => orphan d k = false) (sorted_glob d))
              = length (recordings (get_pending d))
                + length (warnings (get_pending d))).
  { unfold get_pending.
    rewrite get_pending_loop_recordings, get_pending_loop_warnings_filter
      by apply NoDup_sorted_glob.
    apply classify_length. }
  split.
  - rewrite <- E, <- length_sorted_glob. apply length_filter.
  - rewrite <- E, <- length_sorted_glob, sorted_glob_dir_after.
    f_equal. apply filter_ext_in. intros k _. apply negb_true_iff.
Qed.

(** X5.  [cleanup_old] computes its cut-off in floats, [now] less the
    seconds of [max_age_days] rounded to the nearest float, and raises
    when the seconds do not fit a float.  Otherwise it removes both
    files of exactly the recordings whose metadata file was modified
    before the cut-off, as floats compare, returns their number, and
    keeps the rest of the listing in its order; audio without a
    metadata file is never removed.  The rounding shows at the
    boundary: a file written at 0.001 is a week old at 604800.001, and
    is removed, because the float difference lies above 0.001; at
    604800 it is kept. *)
Theorem cleanup_old_exact (d : directory) (now_ts : Float.float) (days : Z) :
  match cutoff now_ts days, cleanup_old d now_ts days with
  | Some c, Some (n, d') =>
      n = length (filter (fun k => older d c k = true) (glob_json d)) /\
      (forall k, wavs d' !! k = if older d c k then None else wavs d !! k) /\
      (forall k, jsons d' !! k = if older d c k then None else jsons d !! k) /\
      recordings (get_pending d')
      = filter (fun r => older d c (id r) = false) (recordings (get_pending d))
  | None, None => True
  | _, _ => False
  end /\
  fst <$> cleanup_old (dir_written_at (thousandths 1)) (thousandths 604800001) 7
  = Some 1 /\
  fst <$> cleanup_old (dir_written_at (thousandths 1)) (seconds 604800) 7
  = Some 0 /\
  cleanup_old d now_ts (10 ^ 400) = None.
Proof.
  split; [|split; [|split]; vm_compute; reflexivity].
  unfold cleanup_old. destruct (cutoff now_ts days) as [c|]; [|exact I].
  cbn [mbind option_bind].
  pose proof (cleanup_loop_count (glob_json d) c d) as Hn.
  pose proof (cleanup_old_lookup d c) as Hl. cbn zeta in Hl.
  destruct (cleanup_loop (glob_json d) c d) as [n d']. cbn [fst snd] in *.
  split; [|split; [|split]].
  - apply Hn. unfold glob_json. apply NoDup_elements.
  - intros k. apply (Hl k).
  - intros k. apply (Hl k).
  - rewrite (get_pending_restrict (fun k => negb (older d c k)) d d').
    + apply filter_ext_in. intros x _. apply negb_true_iff.
    + intros k Hk. apply negb_true_iff in Hk.
      destruct (Hl k) as [H1 H2]. rewrite Hk in H1, H2. auto.
    + intros k Hk. apply negb_false_iff in Hk.
      destruct (Hl k) as [_ H2]. rewrite Hk in H2. exact H2.
Qed.

(** X6.  [get_queue_size_bytes] follows the calls: a save adds the length of
    the payload (less the payload it overwrites, if the id was taken),
    [mark_completed] subtracts the length of the payload it deletes,
    and a listing leaves the size alone. *)
Theorem get_queue_size_bytes_accounting (d : directory) :
  (forall now mtime audio bundle name pres,
     get_queue_size_bytes
       (snd (save_recording d now mtime audio bundle name pres))
     + from_option length 0 (wavs d !! strftime_id now)
     = get_queue_size_bytes d + length audio) /\
  (forall r,
     get_queue_size_bytes (mark_completed d r)
     + from_option length 0 (wavs d !! id r)
     = get_queue_size_bytes d) /\
  get_queue_size_bytes (dir_after (get_pending d)) = get_queue_size_bytes d.
Proof.
  assert (Hdel : forall k,
    get_queue_size_bytes d
    = from_option length 0 (wavs d !! k)
      + map_fold (fun _ data total => length data + total) 0
                 (delete k (wavs d))).
  { intros k. unfold get_queue_size_bytes.
    destruct (wavs d !! k) as [a|] eqn:E; cbn.
    - apply (map_fold_delete_L (fun _ data total => length data + total));
        [intros; lia|exact E].
    - now rewrite delete_id. }
  split; [|split].
  - intros now mtime audio bundle name pres.
    rewrite (Hdel (strftime_id now)).
    unfold get_queue_size_bytes, save_recording; cbn.
    rewrite <- (insert_delete_eq (wavs d)).
    rewrite (map_fold_insert_L (fun _ data total => length data + total));
      [lia|intros; lia|apply lookup_delete_eq].
  - intros r. rewrite (Hdel (id r)).
    unfold get_queue_size_bytes at 1, mark_completed, unlink_json, unlink_wav.
    cbn. lia.
  - unfold get_queue_size_bytes. now rewrite dir_after_wavs.
Qed.

End QueueCalls.

Section SweepCalls.

Import Datetime AudioQueue QueueSpec QueueSpec2.

Context {S : Type}.
Variable process_fn : PendingRecording -> list Byte.byte -> S -> outcome * S.
Variable on_progress : option (nat -> nat -> S -> bool * S).
Variable stop_is_set : nat -> bool.

(** X7.  After [process_pending], whatever the callbacks and the stop
    event did (a raising [on_progress] included), the recordings still
    pending are exactly those that were pending before and on which
    [process_fn], called in its turn on the item and its payload, did
    not answer [True], in their order; a call refused by the
    single-flight flag leaves the listing as it was. *)
Theorem process_pending_leaves_unsucceeded (q : queue) (s : S) :
  let pending := recordings (get_pending (queue_dir q)) in
  let answered :=
    fst (callbacks process_fn on_progress stop_is_set (payload (queue_dir q))
                   0 (length pending) pending s) in
  let q' := snd (process_pending process_fn on_progress stop_is_set q s) in
  recordings (get_pending (queue_dir q'))
  = if is_processing q then pending
    else filter (fun r => succeeded_id answered (id r) = false) pending.
Proof.
  cbn zeta.
  destruct (is_processing q) eqn:Hflag.
  - unfold process_pending. rewrite Hflag. reflexivity.
  - pose proof (process_pending_callbacks process_fn on_progress stop_is_set
                  q s Hflag) as Hcb.
    cbn zeta in Hcb. destruct Hcb as [Hcb _]. rewrite <- Hcb.
    unfold process_pending. rewrite Hflag. cbn [fst snd calls queue_dir].
    set (l := get_pending (queue_dir q)).
    set (w := sweep_loop process_fn on_progress stop_is_set (recordings l) 0
                (length (recordings l)) 0 (dir_after l) s).
    pose proof (recordings_dir_after (queue_dir q)) as Hr. fold l in Hr.
    rewrite <- Hr.
    rewrite (get_pending_restrict
               (fun k => negb (succeeded_id (calls w) k))
               (dir_after l) (sw_dir w)).
    + apply filter_ext_in. intros x _. apply negb_true_iff.
    + intros k Hk. apply negb_true_iff in Hk. unfold w.
      rewrite sweep_loop_dir. fold w.
      rewrite foldl_mark_completed_wavs, foldl_mark_completed_jsons.
      unfold succeeded_id in Hk. rewrite Hk. auto.
    + intros k Hk. apply negb_false_iff in Hk. unfold w.
      rewrite sweep_loop_dir. fold w.
      rewrite foldl_mark_completed_jsons.
      unfold succeeded_id in Hk. rewrite Hk. reflexivity.
Qed.

End SweepCalls.

(* ===================================================================== *)
(** * The text dictionaries: adding, removing and learning entries       *)
(* ===================================================================== *)

Section Mappings.

Import Dict DictSpec.

Lemma get_setitem (k k' v : string) (d : dict) :
  get k (setitem k' v d) = if String.eqb k k' then Some v else get k d.
Proof.
  induction d as [|[k0 v0] d IH]; cbn.
  - destruct (String.eqb k k'); reflexivity.
  - destruct (String.eqb k' k0) eqn:E0; cbn.
    + apply String.eqb_eq in E0 as ->.
      destruct (String.eqb k k0); reflexivity.
    + rewrite IH. destruct (String.eqb k k0) eqn:E1; [|reflexivity].
      apply String.eqb_eq in E1 as ->.
      rewrite String.eqb_sym, E0. reflexivity.
Qed.

Lemma get_None_keys (k : string) (d : dict) :
  get k d = None <-> k ∉ keys d.
Proof.
  unfold keys. induction d as [|[k0 v0] d IH]; cbn.
  - split; [intros _; apply not_elem_of_nil|reflexivity].
  - rewrite not_elem_of_cons. destruct (String.eqb k k0) eqn:E.
    + apply String.eqb_eq in E. split; [discriminate|]. intros [? _]. congruence.
    + apply String.eqb_neq in E. rewrite IH. tauto.
Qed.

Lemma keys_delitem_subseteq (k : string) (d : dict) :
  keys (delitem k d) ⊆ keys d.
Proof.
  unfold keys. induction d as [|[k0 v0] d IH]; cbn; [reflexivity|].
  destruct (String.eqb k k0); cbn.
  - intros x Hx. now right.
  - intros x [->|Hx]%elem_of_cons; [left|right; apply IH, Hx].
Qed.

Lemma get_delitem (k k' : string) (d : dict) :
  NoDup (keys d) ->
  get k (delitem k' d) = if String.eqb k k' then None else get k d.
Proof.
  unfold keys. induction d as [|[k0 v0] d IH]; cbn; intros Hnd.
  - destruct (String.eqb k k'); reflexivity.
  - apply NoDup_cons in Hnd as [Hnotin Hnd].
    destruct (String.eqb k' k0) eqn:E0; cbn.
    + apply String.eqb_eq in E0 as ->.
      destruct (String.eqb k k0) eqn:E1; [|reflexivity].
      apply String.eqb_eq in E1 as ->. now apply get_None_keys.
    + rewrite (IH Hnd). destruct (String.eqb k k0) eqn:E1; [|reflexivity].
      apply String.eqb_eq in E1 as ->.
      rewrite String.eqb_sym, E0. reflexivity.
Qed.

Lemma NoDup_keys_delitem (k : string) (d : dict) :
  NoDup (keys d) -> NoDup (keys (delitem k d)).
Proof.
  unfold keys. induction d as [|[k0 v0] d IH]; cbn; intros Hnd; [constructor|].
  apply NoDup_cons in Hnd as [Hnotin Hnd].
  destruct (String.eqb k k0); cbn; [exact Hnd|].
  apply NoDup_cons. split; [|auto].
  intros Hin. apply Hnotin. now apply (keys_delitem_subseteq k d).
Qed.

Lemma keys_setitem (k v : string) (d : dict) :
  keys (setitem k v d) = if bool_decide (k ∈ keys d) then keys d
                         else (keys d ++ [k])%list.
Proof.
  unfold keys. induction d as [|[k0 v0] d IH]; cbn.
  - rewrite bool_decide_eq_false_2 by apply not_elem_of_nil. reflexivity.
  - destruct (String.eqb k k0) eqn:E; cbn.
    + apply String.eqb_eq in E as ->.
      rewrite bool_decide_eq_true_2 by left. reflexivity.
    + apply String.eqb_neq in E. rewrite IH.
      destruct (decide (k ∈ map fst d)) as [Hin|Hin].
      * rewrite !bool_decide_eq_true_2 by (assumption || now right).
        reflexivity.
      * rewrite !bool_decide_eq_false_2; [reflexivity| |assumption].
        rewrite not_elem_of_cons. auto.
Qed.

Lemma NoDup_keys_setitem (k v : string) (d : dict) :
  NoDup (keys d) -> NoDup (keys (setitem k v d)).
Proof.
  intros Hnd. rewrite keys_setitem. case_bool_decide as Hin; [exact Hnd|].
  apply NoDup_app. split; [exact Hnd|]. split.
  - intros x Hx [->|[]%elem_of_nil]%elem_of_cons. auto.
  - apply NoDup_singleton.
Qed.

End Mappings.

Section Lowering.

Lemma isspace_lower_char (c : ascii) :
  Py.isspace (Py.lower_char c) = Py.isspace c.
Proof. destruct c as [[] [] [] [] [] [] [] []]; reflexivity. Qed.

Lemma lower_char_idemp (c : ascii) :
  Py.lower_char (Py.lower_char c) = Py.lower_char c.
Proof. destruct c as [[] [] [] [] [] [] [] []]; reflexivity. Qed.

Lemma lower_idemp (s : string) : Py.lower (Py.lower s) = Py.lower s.
Proof.
  induction s as [|c s IH]; cbn; [reflexivity|].
  now rewrite lower_char_idemp, IH.
Qed.

Lemma lower_rev_app (a b : string) :
  Py.lower (String.rev_app a b) = String.rev_app (Py.lower a) (Py.lower b).
Proof.
  revert b. induction a as [|c a IH]; intros b; [reflexivity|].
  apply (IH (String c b)).
Qed.

Lemma lower_rev (s : string) : Py.lower (String.rev s) = String.rev (Py.lower s).
Proof. apply (lower_rev_app s EmptyString). Qed.

Lemma split_go_lower (cur s : string) :
  Py.split_go (Py.lower cur) (Py.lower s) = map Py.lower (Py.split_go cur s).
Proof.
  revert cur. induction s as [|c s IH]; intros cur;
    cbn [Py.split_go Py.lower].
  - destruct cur as [|a cur]; [reflexivity|].
    cbn [Py.lower map]. f_equal. symmetry. apply (lower_rev (String a cur)).
  - rewrite isspace_lower_char. destruct (Py.isspace c).
    + destruct cur as [|a cur]; cbn [Py.lower map].
      * apply (IH EmptyString).
      * f_equal; [|apply (IH EmptyString)].
        symmetry. apply (lower_rev (String a cur)).
    + apply (IH (String c cur)).
Qed.

(** Lower-casing commutes with splitting into words. *)
Lemma split_lower (s : string) :
  Py.split (Py.lower s) = map Py.lower (Py.split s).
Proof. apply (split_go_lower EmptyString). Qed.

End Lowering.

Section Learning.

Import Dict DictSpec TextSpec.

Lemma learn_fold_frame (l : list (string * string)) (cs : dict) (k : string) :
  Forall (fun p => Py.lower (fst p) = fst p) l ->
  let cs' :=
    foldl (fun cs pair =>
             let '(orig, corr) := pair in
             if negb (String.eqb orig (Py.lower corr))
                && PersonalDictionary.sounds_similar orig (Py.lower corr)
             then PersonalDictionary.add_word cs orig corr
             else cs) cs l in
  get k cs' = get k cs \/
  exists corr, get k cs' = Some corr /\ (k, corr) ∈ l /\ learnable k corr.
Proof.
  cbn zeta. revert cs. induction l as [|[orig corr] l IH]; intros cs Hl.
  - left. reflexivity.
  - apply Forall_cons in Hl as [Ho Hl]. cbn [fst] in Ho. cbn [foldl].
    match goal with |- context [foldl ?f ?a l] => set (cs1 := a) end.
    destruct (IH cs1 Hl) as [E|(corr' & E & Hin & Hlearn)].
    + rewrite E. subst cs1.
      destruct (negb (String.eqb orig (Py.lower corr))
                && PersonalDictionary.sounds_similar orig (Py.lower corr))
        eqn:Hc; [|now left].
      unfold PersonalDictionary.add_word. rewrite get_setitem, Ho.
      destruct (String.eqb k orig) eqn:Ek; [|now left].
      apply String.eqb_eq in Ek as ->. right. exists corr.
      split; [reflexivity|]. split; [left|].
      apply andb_true_iff in Hc as [Hne Hs]. split; [|exact Hs].
      apply negb_true_iff, String.eqb_neq in Hne. exact Hne.
    + right. exists corr'. split; [exact E|]. split; [now right|exact Hlearn].
Qed.

Lemma learn_fold_same (cw : list string) (cs : dict) :
  foldl (fun cs pair =>
           let '(orig, corr) := pair in
           if negb (String.eqb orig (Py.lower corr))
              && PersonalDictionary.sounds_similar orig (Py.lower corr)
           then PersonalDictionary.add_word cs orig corr
           else cs) cs (zip (map Py.lower cw) cw) = cs.
Proof.
  induction cw as [|w cw IH]; [reflexivity|].
  cbn [map zip zip_with foldl]. rewrite String.eqb_refl. cbn [negb andb].
  exact IH.
Qed.

(** X10.  [learn_from_correction] learns nothing from a correction that only
    changes capitalisation: the words are compared after lower-casing
    both sides. *)
Theorem learn_from_correction_ignores_case (corrections : dict)
    (original corrected : string) :
  Py.lower original = Py.lower corrected ->
  PersonalDictionary.learn_from_correction corrections original corrected
  = corrections.
Proof.
  intros H. unfold PersonalDictionary.learn_from_correction.
  rewrite H, split_lower, length_map, Nat.eqb_refl.
  apply learn_fold_same.
Qed.

Lemma learn_from_correction_ignores_case_witness :
  Py.lower "i drive a tesla" = Py.lower "I drive a Tesla" /\
  PersonalDictionary.learn_from_correction [] "i drive a tesla" "I drive a Tesla"
  = [].
Proof.
  split; [reflexivity|].
  exact (learn_from_correction_ignores_case [] "i drive a tesla"
           "I drive a Tesla" eq_refl).
Defined.

(** X11.  Whatever [learn_from_correction] changes in the dictionary is an
    entry from a word of the lower-cased original to the word at the
    same position of the corrected text, where the two differ beyond
    case, start with the same letter and differ in length by at most
    two; every other key keeps its value. *)
Theorem learn_from_correction_entries (corrections : dict)
    (original corrected : string) (k : string) :
  let learned :=
    PersonalDictionary.learn_from_correction corrections original corrected in
  get k learned = get k corrections \/
  exists corr,
    get k learned = Some corr /\
    (k, corr) ∈ zip (Py.split (Py.lower original)) (Py.split corrected) /\
    length (Py.split (Py.lower original)) = length (Py.split corrected) /\
    learnable k corr.
Proof.
  cbn zeta. unfold PersonalDictionary.learn_from_correction.
  destruct (length (Py.split (Py.lower original))
            =? length (Py.split corrected))%nat eqn:El; [|now left].
  apply Nat.eqb_eq in El.
  destruct (learn_fold_frame
              (zip (Py.split (Py.lower original)) (Py.split corrected))
              corrections k) as [E|(corr & E & Hin & Hl)].
  - apply Forall_forall. intros [o c] Hin.
    apply elem_of_zip_l in Hin. cbn [fst].
    rewrite split_lower in Hin. apply list_elem_of_fmap in Hin as (w & -> & _).
    apply lower_idemp.
  - left. exact E.
  - right. exists corr. auto.
Qed.

(** X12.  [add_word] followed by [remove_word] of the same word, in any
    capitalisation, gives back the dictionary when the word was not in
    it, and [remove_word] reports the removal. *)
Theorem add_word_remove_word (corrections : dict) (spoken spoken' corrected : string) :
  get (Py.lower spoken) corrections = None ->
  Py.lower spoken' = Py.lower spoken ->
  PersonalDictionary.remove_word
    (PersonalDictionary.add_word corrections spoken corrected) spoken'
  = (true, corrections).
Proof.
  intros Hnone Heq.
  unfold PersonalDictionary.remove_word, PersonalDictionary.add_word.
  rewrite Heq, get_setitem, String.eqb_refl. f_equal.
  induction corrections as [|[k0 v0] d IH]; cbn.
  - now rewrite String.eqb_refl.
  - cbn in Hnone. destruct (String.eqb (Py.lower spoken) k0) eqn:E;
      [discriminate|]. cbn. rewrite E. f_equal. apply IH, Hnone.
Qed.

Lemma add_word_remove_word_witness :
  get (Py.lower "Kubernetes") [("tesla", "Tesla")] = None /\
  Py.lower "KUBERNETES" = Py.lower "Kubernetes" /\
  PersonalDictionary.remove_word
    (PersonalDictionary.add_word [("tesla", "Tesla")] "Kubernetes" "k8s")
    "KUBERNETES"
  = (true, [("tesla", "Tesla")]).
Proof.
  split; [reflexivity|]. split; [reflexivity|].
  exact (add_word_remove_word [("tesla", "Tesla")] "Kubernetes" "KUBERNETES"
           "k8s" eq_refl eq_refl).
Defined.

(** X13.  A snippet just added expands when its trigger is the whole text,
    in any capitalisation and with surrounding white space, to the
    expansion as stored, whatever the other snippets are; once
    removed, its trigger is no longer a stored key. *)
Theorem add_snippet_expands (snippets : dict) (trigger expansion text : string) :
  Py.lower (Py.strip text) = Py.lower trigger ->
  NoDup (keys snippets) ->
  let added := SnippetExpander.add_snippet snippets trigger expansion in
  SnippetExpander.expand added text = Some expansion /\
  NoDup (keys added) /\
  fst (SnippetExpander.remove_snippet added trigger) = true /\
  get (Py.lower (Py.strip text))
      (snd (SnippetExpander.remove_snippet added trigger)) = None.
Proof.
  intros Heq Hnd. cbn zeta.
  assert (Hget : get (Py.lower trigger)
                   (SnippetExpander.add_snippet snippets trigger expansion)
                 = Some expansion).
  { unfold SnippetExpander.add_snippet.
    now rewrite get_setitem, String.eqb_refl. }
  assert (Hnd' : NoDup (keys (SnippetExpander.add_snippet snippets trigger
                                expansion)))
    by now apply NoDup_keys_setitem.
  split; [|split; [exact Hnd'|]].
  - unfold SnippetExpander.expand. rewrite Heq, Hget.
    destruct (SnippetExpander.add_snippet snippets trigger expansion);
      [discriminate|reflexivity].
  - unfold SnippetExpander.remove_snippet. rewrite Hget. cbn [fst snd].
    split; [reflexivity|].
    rewrite Heq, get_delitem by exact Hnd'. now rewrite String.eqb_refl.
Qed.

Lemma add_snippet_expands_witness :
  Py.lower (Py.strip "  SIG ") = Py.lower "Sig" /\
  NoDup (keys [("addr", "1 Main St")]) /\
  SnippetExpander.expand
    (SnippetExpander.add_snippet [("addr", "1 Main St")] "Sig" "Best, Jamie")
    "  SIG " = Some "Best, Jamie".
Proof.
  assert (Hnd : NoDup (keys [("addr", "1 Main St")])).
  { apply NoDup_singleton. }
  split; [reflexivity|]. split; [exact Hnd|].
  exact (proj1 (add_snippet_expands [("addr", "1 Main St")] "Sig"
                  "Best, Jamie" "  SIG " eq_refl Hnd)).
Defined.

End Learning.

(* ===================================================================== *)
(** * The usage history store: histories and periods                     *)
(* ===================================================================== *)

Section Histories.

Import Datetime TranscriptionDB StatsSpec HistorySpec.

Lemma replay_snoc (d : db) (h : list call) (c : call) :
  replay d (h ++ [c]) = snd (record_call (replay d h) c).
Proof. unfold replay. now rewrite foldl_app. Qed.

Lemma within_b_spec since until t :
  within_b since until t = true <-> within since until t.
Proof.
  unfold within_b, within, Datetime.le, Datetime.lt.
  rewrite andb_true_iff.
  destruct since as [s|], until as [u|];
    try destruct (compare s t); try destruct (compare t u);
    intuition congruence.
Qed.

Lemma in_where_within_b since until (r : row) (t : datetime) :
  valid t -> bounds_valid since until -> timestamp r = isoformat t ->
  in_where since until r = within_b since until t.
Proof.
  intros Ht Hb E. apply eq_true_iff_eq.
  rewrite within_b_spec. now apply in_where_within.
Qed.

Lemma string_lt_le_trans (a b c : string) :
  String.ltb a b = true -> String.leb b c = true -> String.ltb a c = true.
Proof.
  rewrite !string_ltb_compare, string_leb_compare. intros Hab Hbc.
  assert (Hle : String.le a c).
  { transitivity b; apply string_le_compare; congruence. }
  apply string_le_compare in Hle.
  destruct (a ?= c)%string eqn:E; [|reflexivity|congruence].
  apply string_compare_eq in E as ->.
  assert (b = c); [|subst; rewrite string_compare_refl in Hab; discriminate].
  apply (anti_symm String.le); apply string_le_compare; congruence.
Qed.

Lemma string_le_le_trans (a b c : string) :
  String.leb a b = true -> String.leb b c = true -> String.leb a c = true.
Proof.
  rewrite !string_leb_compare, <- !string_le_compare.
  apply (transitivity (R := String.le)).
Qed.

(** A wider period selects at least the rows of a narrower one,
    whatever text the timestamp column holds. *)
Lemma in_where_mono (s1 u1 s2 u2 : datetime) (r : row) :
  valid s1 -> valid u1 -> valid s2 -> valid u2 ->
  Datetime.le s2 s1 -> Datetime.le u1 u2 ->
  in_where (Some s1) (Some u1) r = true ->
  in_where (Some s2) (Some u2) r = true.
Proof.
  intros Vs1 Vu1 Vs2 Vu2 Hs Hu. unfold in_where.
  rewrite !andb_true_iff. intros [H1 H2]. split.
  - apply (string_le_le_trans _ (isoformat s1)); [|exact H1].
    apply string_leb_compare. now rewrite isoformat_compare.
  - apply (string_lt_le_trans _ (isoformat u1)); [exact H2|].
    apply string_leb_compare. now rewrite isoformat_compare.
Qed.

Lemma sum_filter_mono {A} (p q : A -> bool) (f : A -> nat) (l : list A) :
  (forall x, p x = true -> q x = true) ->
  sum (map f (List.filter p l)) <= sum (map f (List.filter q l)).
Proof.
  intros H. unfold sum. induction l as [|x l IH]; [reflexivity|].
  cbn [List.filter]. destruct (p x) eqn:Ep.
  - rewrite (H x Ep). cbn [map foldr]. lia.
  - destruct (q x); cbn [map foldr]; lia.
Qed.

Lemma length_filter_mono {A} (p q : A -> bool) (l : list A) :
  (forall x, p x = true -> q x = true) ->
  length (List.filter p l) <= length (List.filter q l).
Proof.
  intros H. induction l as [|x l IH]; [reflexivity|]. cbn [List.filter].
  destruct (p x) eqn:Ep.
  - rewrite (H x Ep). cbn [length]. lia.
  - destruct (q x); cbn [length]; lia.
Qed.

Lemma get_stats_mono (d : db) s1 u1 s2 u2 :
  (forall r, in_where s1 u1 r = true -> in_where s2 u2 r = true) ->
  before (get_stats d s1 u1) (get_stats d s2 u2).
Proof.
  intros H. unfold before, get_stats; cbn.
  split; [|split].
  - now apply length_filter_mono.
  - now apply sum_filter_mono.
  - now apply sum_filter_mono.
Qed.

Lemma filter_in_where_all (l : list row) :
  List.filter (in_where None None) l = l.
Proof. induction l as [|r l IH]; [reflexivity|]. cbn. now rewrite IH. Qed.

Lemma checked_valid (t : datetime) : valid t -> checked t = Some t.
Proof. intros H. unfold checked. now rewrite H. Qed.

End Histories.

Section HistoryProperties.

Import Datetime TranscriptionDB StatsSpec HistorySpec.

(** X14.  [get_stats] over a history of [record] calls: the totals grow by
    exactly the calls whose clock reading lies in the half-open period
    [since, until), each with the word and character count of the text
    it counted; the TEXT comparison of the SQL agrees with the order of
    the readings. *)
Theorem get_stats_replay (d : db) (h : list call)
    (since until : option datetime) :
  Forall (fun c => valid (c_now c)) h ->
  bounds_valid since until ->
  let counted := calls_within since until h in
  let before := get_stats d since until in
  get_stats (replay d h) since until
  = {| total_transcriptions := total_transcriptions before + length counted;
       total_words :=
         total_words before
         + sum (map (fun c => length (Py.split (counted_text c))) counted);
       total_chars :=
         total_chars before
         + sum (map (fun c => Py.len (counted_text c)) counted) |}.
Proof.
  intros Hv Hb. cbn zeta. induction h as [|c h IH] using rev_ind.
  - change (replay d []) with d. unfold calls_within, sum.
    cbn [List.filter map length foldr].
    destruct (get_stats d since until) as [n1 n2 n3].
    cbn [total_transcriptions total_words total_chars].
    f_equal; lia.
  - apply Forall_app in Hv as [Hv Hc]. rewrite Forall_singleton in Hc.
    rewrite replay_snoc. unfold record_call.
    destruct (record_row (replay d h) (c_now c) (c_raw c) (c_edited c)
                (c_duration c) (c_bundle c) (c_name c) (c_preset c))
      as (r & -> & Hts & _ & _ & Hw & Hc').
    rewrite get_stats_snoc, (IH Hv).
    rewrite (in_where_within_b since until r (c_now c) Hc Hb Hts).
    unfold calls_within. rewrite List.filter_app. cbn [List.filter].
    destruct (within_b since until (c_now c)).
    + rewrite !map_app, !length_app. cbn [map length]. rewrite !sum_snoc.
      cbn [total_transcriptions total_words total_chars].
      rewrite Hw, Hc'. unfold counted_text. f_equal; lia.
    + rewrite app_nil_r. reflexivity.
Qed.

Lemma get_stats_replay_witness :
  Forall (fun c => valid (c_now c))
    [mk_call noon "hello world" None two_seconds None None None;
     mk_call evening "one two three" (Some "one, two") two_seconds
             None None None] /\
  bounds_valid (Some evening) None /\
  total_words
    (get_stats
       (replay empty_db
          [mk_call noon "hello world" None two_seconds None None None;
           mk_call evening "one two three" (Some "one, two") two_seconds
                   None None None])
       (Some evening) None)
  = 2.
Proof.
  assert (Hv : Forall (fun c => valid (c_now c))
    [mk_call noon "hello world" None two_seconds None None None;
     mk_call evening "one two three" (Some "one, two") two_seconds
             None None None]).
  { repeat constructor. }
  assert (Hb : bounds_valid (Some evening) None) by (split; reflexivity).
  split; [exact Hv|]. split; [exact Hb|].
  exact (f_equal total_words
           (get_stats_replay empty_db _ (Some evening) None Hv Hb)).
Defined.

(** X15.  [record] hands out the ids 1, 2, 3, ... in call order: the rows of
    a history carry distinct ids, and the next call returns the number
    of calls made so far plus one. *)
Theorem record_ids_sequential (h : list call) (c : call) :
  map TranscriptionDB.id (transcriptions (replay empty_db h))
  = seq 1 (length h) /\
  NoDup (map TranscriptionDB.id (transcriptions (replay empty_db h))) /\
  fst (record_call (replay empty_db h) c) = S (length h).
Proof.
  assert (H : map TranscriptionDB.id (transcriptions (replay empty_db h))
              = seq 1 (length h) /\
              last_rowid (replay empty_db h) = length h).
  { induction h as [|c' h [IH1 IH2]] using rev_ind; [split; reflexivity|].
    rewrite replay_snoc. unfold record_call, record.
    cbn [snd transcriptions last_rowid].
    rewrite map_app, IH1, IH2, length_app, Nat.add_comm.
    cbn [length Nat.add map TranscriptionDB.id].
    split; [|reflexivity]. rewrite seq_S. reflexivity. }
  destruct H as [H1 H2]. split; [exact H1|]. split.
  - rewrite H1. apply NoDup_ListNoDup, seq_NoDup.
  - unfold record_call, record. cbn [fst]. now rewrite H2.
Qed.

Lemma or_else_coalesce (c : call) :
  c_edited c <> Some EmptyString ->
  Py.or_else (c_edited c) (c_raw c) = coalesce (c_edited c) (c_raw c).
Proof.
  intros H. unfold Py.or_else, coalesce.
  destruct (c_edited c) as [[|a s]|]; [congruence|reflexivity|reflexivity].
Qed.

Lemma word_counts_table (h : list call) :
  Forall (fun c => c_edited c <> Some EmptyString) h ->
  word_counts (replay empty_db h)
  = word_counter (replay empty_db h) None None.
Proof.
  intros Hh. induction h as [|c h IH] using rev_ind; [reflexivity|].
  apply Forall_app in Hh as [Hh Hc]. rewrite Forall_singleton in Hc.
  rewrite replay_snoc. unfold record_call, record, word_counter.
  cbn [snd transcriptions word_counts].
  rewrite filter_in_where_all, foldl_app. cbn [foldl edited_text raw_text].
  rewrite (IH Hh), <- (or_else_coalesce c Hc).
  unfold word_counter. now rewrite filter_in_where_all.
Qed.

Lemma filter_true_all {A} (p : A -> bool) (l : list A) :
  Forall (fun x => p x = true) l -> List.filter p l = l.
Proof.
  induction 1 as [|x l Hx _ IH]; [reflexivity|].
  cbn [List.filter]. now rewrite Hx, IH.
Qed.

(** X16.  The two sources of the word ranking agree: when no call passes an
    empty edited text, the table [word_counts] kept by [record] is the
    counter that [get_stats] recomputes from the rows of a period, for
    every period that covers the whole history. *)
Theorem word_counts_agree (h : list call) (since until : option datetime) :
  Forall (fun c => c_edited c <> Some EmptyString) h ->
  Forall (fun r => in_where since until r = true)
         (transcriptions (replay empty_db h)) ->
  word_counts (replay empty_db h)
  = word_counter (replay empty_db h) since until.
Proof.
  intros Hh Hall. rewrite (word_counts_table h Hh).
  unfold word_counter.
  now rewrite filter_in_where_all, (filter_true_all _ _ Hall).
Qed.

Lemma word_counts_agree_witness :
  Forall (fun c => c_edited c <> Some EmptyString)
    [mk_call noon "hello big world" None two_seconds None None None] /\
  Forall (fun r => in_where (Some noon) None r = true)
    (transcriptions
       (replay empty_db
          [mk_call noon "hello big world" None two_seconds None None None])) /\
  word_counts
    (replay empty_db
       [mk_call noon "hello big world" None two_seconds None None None])
  = word_counter
      (replay empty_db
         [mk_call noon "hello big world" None two_seconds None None None])
      (Some noon) None.
Proof.
  assert (Hh : Forall (fun c => c_edited c <> Some EmptyString)
    [mk_call noon "hello big world" None two_seconds None None None]).
  { repeat constructor. discriminate. }
  assert (Hall : Forall (fun r => in_where (Some noon) None r = true)
    (transcriptions
       (replay empty_db
          [mk_call noon "hello big world" None two_seconds None None None]))).
  { repeat constructor. }
  split; [exact Hh|]. split; [exact Hall|].
  exact (word_counts_agree _ (Some noon) None Hh Hall).
Defined.

Ltac compare_fields :=
  repeat match goal with
         | H : (_ <? _)%Z = true |- _ => apply Z.ltb_lt in H
         | H : (_ <? _)%Z = false |- _ => apply Z.ltb_ge in H
         | H : (_ =? _)%Z = true |- _ => apply Z.eqb_eq in H
         | H : (_ =? _)%Z = false |- _ => apply Z.eqb_neq in H
         end;
  unfold Datetime.lt, Datetime.le, compare, lex, midnight;
  cbn [year month day hour minute second microsecond];
  repeat match goal with
         | |- context [(?a ?= ?b)%Z] => destruct (Z.compare_spec a b)
         end; try discriminate; try reflexivity; try lia; try (exfalso; lia).

(** X17.  The periods nest on a table written by [record]: for a clock
    reading before the year 9999 (where the end of the year cannot be
    built), the totals for today are at most those for this month,
    which are at most those for this year, which are at most the
    all-time totals.  A table written by [record] holds the ISO text of
    a [datetime] in every [timestamp], so that the weekday ranking of
    [get_stats], which is not part of the embedding, finds a weekday in
    every group. *)
Theorem get_stats_periods_nested (h : list call) (now : datetime) :
  recorded h -> valid now -> (year now < 9999)%Z ->
  let d := replay empty_db h in
  exists today this_month this_year,
    get_stats_today d now = Some today /\
    get_stats_this_month d now = Some this_month /\
    get_stats_this_year d now = Some this_year /\
    before today this_month /\
    before this_month this_year /\
    before this_year (get_stats d None None).
Proof.
  intros _ Hv Hy d. pose proof (valid_bounds now Hv) as Hb.
  pose proof (days_in_month_ge (year now) (month now)) as Hdim.
  pose proof (days_in_month_ge (year now) (month now + 1)) as Hdim'.
  pose proof (days_in_month_ge (year now + 1) 1) as Hdim''.
  pose proof (days_in_month_ge (year now) 1) as Hdim1.
  set (som := {| year := year now; month := month now; day := 1;
                 hour := 0; minute := 0; second := 0; microsecond := 0 |}).
  set (soy := {| year := year now; month := 1; day := 1;
                 hour := 0; minute := 0; second := 0; microsecond := 0 |}).
  set (eoy := {| year := year now + 1; month := 1; day := 1;
                 hour := 0; minute := 0; second := 0; microsecond := 0 |}%Z).
  assert (Vsom : valid som) by (apply valid_intro; cbn; lia).
  assert (Vsoy : valid soy) by (apply valid_intro; cbn; lia).
  assert (Veoy : valid eoy) by (apply valid_intro; cbn; lia).
  assert (Vmid : valid (midnight now)) by now apply valid_midnight.
  assert (Htom : exists tm, add_one_day (midnight now) = Some tm /\ valid tm /\
             forall eom, (if (month now =? 12)%Z
                          then eom = eoy
                          else eom = {| year := year now;
                                        month := month now + 1; day := 1;
                                        hour := 0; minute := 0; second := 0;
                                        microsecond := 0 |}%Z) ->
                         Datetime.le tm eom).
  { unfold add_one_day. cbn [midnight year month day hour minute second
                              microsecond].
    destruct (day now <? days_in_month (year now) (month now))%Z eqn:E1;
      [|destruct (month now <? 12)%Z eqn:E2;
        [|destruct (year now <? 9999)%Z eqn:E3;
          [|apply Z.ltb_ge in E3; lia]]].
    - eexists. split; [reflexivity|]. split; [apply valid_intro; cbn; lia|].
      intros eom He. destruct (month now =? 12)%Z eqn:E12; subst eom eoy;
        compare_fields.
    - eexists. split; [reflexivity|]. split; [apply valid_intro; cbn; lia|].
      intros eom He. destruct (month now =? 12)%Z eqn:E12; subst eom eoy;
        compare_fields.
    - eexists. split; [reflexivity|]. split; [apply valid_intro; cbn; lia|].
      intros eom He. destruct (month now =? 12)%Z eqn:E12; subst eom eoy;
        compare_fields. }
  destruct Htom as (tm & Etm & Vtm & Htm).
  assert (Heom : exists eom,
             get_stats_this_month d now
             = Some (get_stats d (Some som) (Some eom)) /\ valid eom /\
             Datetime.le tm eom /\ Datetime.le eom eoy).
  { unfold get_stats_this_month.
    cbn [year month day hour minute second microsecond].
    destruct (month now =? 12)%Z eqn:E12.
    - exists eoy. fold eoy. rewrite (checked_valid eoy Veoy). cbn.
      split; [reflexivity|]. split; [exact Veoy|]. split.
      + apply Htm. reflexivity.
      + unfold Datetime.le. rewrite compare_refl. discriminate.
    - set (eom := {| year := year now; month := month now + 1; day := 1;
                     hour := 0; minute := 0; second := 0;
                     microsecond := 0 |}%Z).
      assert (Veom : valid eom) by (apply valid_intro; cbn; lia).
      exists eom. rewrite (checked_valid eom Veom). cbn.
      split; [reflexivity|]. split; [exact Veom|]. split.
      + apply Htm. reflexivity.
      + subst eom eoy. compare_fields. }
  destruct Heom as (eom & Em & Veom & Hle1 & Hle2).
  exists (get_stats d (Some (midnight now)) (Some tm)),
         (get_stats d (Some som) (Some eom)),
         (get_stats d (Some soy) (Some eoy)).
  split; [unfold get_stats_today; now rewrite Etm|].
  split; [exact Em|]. split.
  { unfold get_stats_this_year.
    cbn [year month day hour minute second microsecond].
    fold eoy. now rewrite (checked_valid eoy Veoy). }
  split; [|split].
  - apply get_stats_mono. intros r.
    apply in_where_mono; try assumption. subst som. compare_fields.
  - apply get_stats_mono. intros r.
    apply in_where_mono; try assumption. subst som soy. compare_fields.
  - apply get_stats_mono. intros r _. reflexivity.
Qed.

Lemma get_stats_periods_nested_witness :
  let d := replay empty_db sample_history in
  recorded sample_history /\ valid evening /\ (year evening < 9999)%Z /\
  (exists today this_month this_year,
     get_stats_today d evening = Some today /\
     get_stats_this_month d evening = Some this_month /\
     get_stats_this_year d evening = Some this_year /\
     before today this_month /\
     before this_month this_year /\
     before this_year (get_stats d None None)) /\
  get_stats_today d evening = Some (mk_stats 1 3 17) /\
  get_stats_this_month d evening = Some (mk_stats 2 6 34) /\
  get_stats_this_year d evening = Some (mk_stats 3 9 47) /\
  get_stats d None None = mk_stats 4 13 67.
Proof.
  cbn zeta.
  assert (Hrec : recorded sample_history).
  { repeat constructor. }
  split; [exact Hrec|]. split; [reflexivity|]. split; [reflexivity|].
  split; [|repeat split; vm_compute; reflexivity].
  exact (get_stats_periods_nested sample_history evening Hrec eq_refl eq_refl).
Defined.

End HistoryProperties.

(* ===================================================================== *)
(** * The typer and the execution of voice commands                      *)
(* ===================================================================== *)

Section Typing.

Import TextTyper TyperSpec.

Lemma extends_refl t : extends t t [].
Proof. unfold extends. now rewrite app_nil_r. Qed.

Lemma extends_send es t : extends t (send es t) es.
Proof. unfold extends, send; cbn. auto. Qed.

Lemma extends_trans t1 t2 t3 es1 es2 :
  extends t1 t2 es1 -> extends t2 t3 es2 -> extends t1 t3 (es1 ++ es2).
Proof.
  unfold extends. intros (D1 & C1 & E1) (D2 & C2 & E2).
  rewrite D2, C2, E2, E1, app_assoc. auto.
Qed.

Lemma extends_times n es t :
  extends t (times n (send es) t) (concat (replicate n es)).
Proof.
  unfold times. induction n as [|n IH]; cbn [Nat.iter replicate concat].
  - apply extends_refl.
  - replace (es ++ concat (replicate n es))%list
      with (concat (replicate n es) ++ es)%list.
    + eapply extends_trans; [exact IH|apply extends_send].
    + clear IH. induction n as [|n IH]; cbn [replicate concat].
      * now rewrite app_nil_r.
      * rewrite <- app_assoc, IH. reflexivity.
Qed.

Lemma extends_type_text_loop (cs : list ascii) (t : typer) :
  extends t (foldl (fun t char => send [Type_ char] t) t cs) (map Type_ cs).
Proof.
  revert t. induction cs as [|c cs IH]; intros t; cbn [foldl map].
  - apply extends_refl.
  - change (Type_ c :: map Type_ cs) with ([Type_ c] ++ map Type_ cs)%list.
    eapply extends_trans; [apply extends_send|apply IH].
Qed.

Lemma new_events_extends t t' es : extends t t' es -> new_events t t' = es.
Proof.
  intros (_ & _ & E). unfold new_events. rewrite E.
  apply drop_app_length.
Qed.

Lemma receive_app m es1 es2 f :
  receive m (es1 ++ es2) f
  = match receive m es1 f with
    | Some f' => receive m es2 f'
    | None => None
    end.
Proof.
  revert f. induction es1 as [|e es1 IH]; intros f; cbn; [reflexivity|].
  destruct (step m e f); [apply IH|reflexivity].
Qed.

Lemma string_app_nil_r (s : string) : s +:+ EmptyString = s.
Proof.
  induction s as [|c s IH]; [reflexivity|].
  change (String c (s +:+ EmptyString) = String c s). now rewrite IH.
Qed.

Lemma string_app_assoc (a b c : string) : (a +:+ b) +:+ c = a +:+ (b +:+ c).
Proof.
  induction a as [|x a IH]; [reflexivity|].
  change (String x ((a +:+ b) +:+ c) = String x (a +:+ (b +:+ c))).
  now rewrite IH.
Qed.

Lemma receive_typed m (cs : string) (b : string) cl :
  receive m (map Type_ (list_ascii_of_string cs))
          {| content := b; clip := cl; held := [] |}
  = Some {| content := b +:+ cs; clip := cl; held := [] |}.
Proof.
  revert b. induction cs as [|c cs IH]; intros b; cbn.
  - now rewrite string_app_nil_r.
  - rewrite IH, string_app_assoc. reflexivity.
Qed.

Lemma drop_last_snoc (s : string) (c : ascii) :
  drop_last (s +:+ String c EmptyString) = s.
Proof.
  induction s as [|x s IH]; [reflexivity|].
  change (drop_last (String x (s +:+ String c EmptyString)) = String x s).
  cbn [drop_last]. rewrite IH.
  destruct s; reflexivity.
Qed.

Lemma string_snoc_inv (s : string) :
  s = EmptyString \/
  exists s' c, s = s' +:+ String c EmptyString /\
               String.length s = S (String.length s').
Proof.
  induction s as [|x s IH]; [now left|]. right.
  destruct IH as [->|(s' & c & -> & Hl)].
  - exists EmptyString, x. split; reflexivity.
  - exists (String x s'), c. split; [reflexivity|]. cbn. now rewrite Hl.
Qed.

Lemma receive_backspaces m (n : nat) : forall (s b : string) cl,
  String.length s = n ->
  receive m (replicate n (Tap Backspace))
          {| content := b +:+ s; clip := cl; held := [] |}
  = Some {| content := b; clip := cl; held := [] |}.
Proof.
  induction n as [|n IH]; intros s b cl Hl.
  - destruct s; [|discriminate]. cbn. now rewrite string_app_nil_r.
  - destruct (string_snoc_inv s) as [->|(s' & c & -> & Hl')]; [discriminate|].
    cbn [replicate receive step held content clip].
    rewrite <- string_app_assoc, drop_last_snoc.
    apply IH. lia.
Qed.

Lemma concat_replicate_singleton {A} (n : nat) (x : A) :
  concat (replicate n [x]) = replicate n x.
Proof. induction n as [|n IH]; cbn; [reflexivity|]. now rewrite IH. Qed.

Lemma key_eqb_refl k : key_eqb k k = true.
Proof. destruct k; cbn; try reflexivity. apply Ascii.eqb_refl. Qed.

(** The log of [type_text] and what a text field makes of it. *)
Lemma type_text_log (text method : string) (t : typer) (b : string) :
  exists es f,
    events (type_text text method t) = (events t ++ es)%list /\
    darwin (type_text text method t) = darwin t /\
    (clipboard t = None \/ clipboard (type_text text method t) = clipboard t) /\
    receive (cmd_or_ctrl t) es (at_rest t b) = Some f /\
    content f = b +:+ text /\ held f = [] /\
    clip f = clipboard (type_text text method t).
Proof.
  unfold type_text. destruct text as [|c text].
  - exists [], (at_rest t b). rewrite app_nil_r. cbn.
    rewrite string_app_nil_r. auto 10.
  - set (txt := String c text).
    set (meth := if String.eqb method "auto"
                 then (if (50 <? Py.len txt)%nat then "paste" else "type")
                 else method).
    destruct (String.eqb meth "paste").
    + unfold _paste_text, copy_to_clipboard, send, cmd_or_ctrl, at_rest.
      cbn [darwin clipboard events].
      destruct (clipboard t) as [o|] eqn:Ec.
      * exists ([Copy txt] ++ chord (if darwin t then Cmd else Ctrl) (Char "v")
                ++ [Copy o])%list.
        exists {| content := b +:+ txt; clip := Some o; held := [] |}.
        cbn [darwin clipboard events content clip held].
        split; [now rewrite <- !app_assoc|]. split; [reflexivity|].
        split; [now right|]. split; [|auto].
        destruct (darwin t); reflexivity.
      * exists ([Copy txt] ++ chord (if darwin t then Cmd else Ctrl) (Char "v"))%list.
        exists {| content := b +:+ txt; clip := Some txt; held := [] |}.
        cbn [darwin clipboard events content clip held].
        split; [now rewrite <- !app_assoc|]. split; [reflexivity|].
        split; [now left|]. split; [|auto].
        destruct (darwin t); reflexivity.
    + unfold _type_text.
      destruct (extends_type_text_loop (list_ascii_of_string txt) t)
        as (D & C & E).
      exists (map Type_ (list_ascii_of_string txt)). eexists.
      split; [exact E|]. split; [exact D|]. split; [now right|].
      split; [apply receive_typed|]. cbn. auto.
Qed.

End Typing.

Section TypingProperties.

Import TextTyper TyperSpec VoiceCommandProcessor.

(** X18.  [type_text] delivers exactly the text, whichever method is used on
    whichever platform: a plain text field receives the text at its
    end, no modifier key stays down, and a clipboard that could be
    read holds afterwards what it held before.  An empty text sends
    nothing and leaves the typer as it is. *)
Theorem type_text_delivers (text method : string) (t : typer) (b : string) :
  (exists f,
     receive (cmd_or_ctrl t) (new_events t (type_text text method t))
             (at_rest t b) = Some f /\
     content f = b +:+ text /\ held f = [] /\
     (clipboard t = None \/ clipboard (type_text text method t) = clipboard t)) /\
  new_events t (type_text EmptyString method t) = [] /\
  type_text EmptyString method t = t.
Proof.
  split.
  - destruct (type_text_log text method t b)
      as (es & f & E & D & C & R & Hc & Hh & _).
    exists f. unfold new_events. rewrite E, drop_app_length. auto.
  - split; [|reflexivity].
    unfold new_events. cbn [type_text]. apply drop_all.
Qed.

(** X19.  The command [delete that] after a [type_text] whose length was
    recorded with [set_last_typed_length(len(text))] sends one
    Backspace per character: a plain text field is back to what it
    held before the text was typed, and the recorded length is reset. *)
Theorem delete_that_removes_typed_text (text method : string) (t : typer)
    (b : string) (a : arg) :
  let typed := type_text text method t in
  exists t' f,
    execute_command (Py.len text) ("delete_last", a) typed
    = Some (true, 0, t') /\
    receive (cmd_or_ctrl t) (new_events t t') (at_rest t b) = Some f /\
    content f = b /\ held f = [].
Proof.
  cbn zeta.
  destruct (type_text_log text method t b)
    as (es & f & E & D & C & R & Hc & Hh & Hcl).
  unfold execute_command. cbn [String.eqb Ascii.eqb Bool.eqb].
  destruct (0 <? Py.len text)%nat eqn:El.
  - eexists. exists {| content := b; clip := clip f; held := [] |}.
    split; [reflexivity|]. split; [|auto].
    destruct (extends_times (Py.len text) [Tap Backspace]
                (type_text text method t)) as (_ & _ & E').
    unfold new_events, delete_chars. rewrite E', E, <- app_assoc.
    rewrite drop_app_length, receive_app, R, concat_replicate_singleton.
    destruct f as [fc fcl fh]. cbn in Hc, Hh. subst fc fh.
    now apply receive_backspaces.
  - apply Nat.ltb_ge in El.
    assert (text = EmptyString) as ->.
    { destruct text; [reflexivity|]. cbn in El. lia. }
    exists t, f. split; [reflexivity|].
    rewrite string_app_nil_r in Hc. split; [|auto].
    unfold new_events. rewrite drop_all.
    cbn in R, E. rewrite <- R. f_equal.
    apply (f_equal (@length _)) in E. rewrite length_app in E.
    destruct es; [reflexivity|]. cbn in E. lia.
Qed.

(** X20.  [delete that] works once: the first call sends one Backspace per
    recorded character and resets the record, so that a second call
    sends nothing. *)
Theorem delete_last_once (n : nat) (a : arg) (t : typer) :
  exists t',
    execute_command n ("delete_last", a) t = Some (true, 0, t') /\
    extends t t' (replicate n (Tap Backspace)) /\
    execute_command 0 ("delete_last", a) t' = Some (true, 0, t').
Proof.
  unfold execute_command. cbn [String.eqb Ascii.eqb Bool.eqb].
  destruct n as [|n].
  - exists t. cbn. split; [reflexivity|]. split; [apply extends_refl|reflexivity].
  - eexists. split; [reflexivity|]. split; [|reflexivity].
    unfold delete_chars. rewrite <- concat_replicate_singleton.
    apply extends_times.
Qed.

End TypingProperties.

Section Execution.

Import Re TextTyper TyperSpec VoiceCommandProcessor CommandSpec ExecSpec.

(** A detected command comes from a rule of the table; its argument is
    the rule's, or the number read from the match. *)
Lemma detect_loop_command rules text action a residual :
  detect_loop rules text = Some (Some (action, a), residual) ->
  exists pattern a0,
    (pattern, action, a0) ∈ rules /\
    (is_match_placeholder a0 && (0 <? groups pattern)%nat = false /\ a = a0 \/
     is_match_placeholder a0 && (0 <? groups pattern)%nat = true /\
     exists n, a = ArgInt n).
Proof.
  induction rules as [|[[pattern action0] a0] rules IH]; cbn [detect_loop];
    [discriminate|].
  destruct (match_ pattern text) as [m|].
  - destruct (is_match_placeholder a0 && (0 <? groups pattern)%nat) eqn:E.
    + destruct (group1 m) as [digits|]; cbn; [|discriminate].
      destruct (Py.int digits) as [n|]; cbn; [|discriminate].
      intros [= <- <- <-]. exists pattern, a0. split; [left|].
      right. split; [exact E|eauto].
    + cbn. intros [= <- <- <-]. exists pattern, a0. split; [left|].
      left. split; [exact E|reflexivity].
  - intros H. destruct (IH H) as (p & a1 & Hin & Hcases).
    exists p, a1. split; [now right|exact Hcases].
Qed.

Lemma VOICE_COMMANDS_handled : Forall handled VOICE_COMMANDS.
Proof.
  unfold VOICE_COMMANDS.
  repeat apply Forall_cons_2; try apply Forall_nil_2;
    intros a len t [[Hp ->]|[Hp [n ->]]]; try discriminate Hp;
    unfold execute_command; cbn [String.eqb Ascii.eqb Bool.eqb];
    try (destruct (0 <? len)%nat);
    try (destruct n as [|p]); cbn [count_of mbind option_bind];
    do 3 eexists; (split; [reflexivity|]);
    first [ apply extends_refl
          | apply extends_send
          | apply extends_times ].
Qed.

(** X21.  Every command that [detect_command] returns is one that
    [execute_command] handles: the call does not raise, returns [True]
    and only adds calls to the typer's log, leaving platform and
    clipboard as they are. *)
Theorem detected_commands_execute (text : string) (cmd : string * arg)
    (residual : string) (len : nat) (t : typer) :
  detect_command text = Some (Some cmd, residual) ->
  exists len' t' es,
    execute_command len cmd t = Some (true, len', t') /\
    extends t t' es.
Proof.
  destruct cmd as [action a]. unfold detect_command. intros H.
  apply detect_loop_command in H as (pattern & a0 & Hin & Hcases).
  pose proof VOICE_COMMANDS_handled as Hall.
  rewrite Forall_forall in Hall.
  exact (Hall _ Hin a len t Hcases).
Qed.

Lemma detected_commands_execute_witness :
  detect_command "Delete the last 3 words."
  = Some (Some ("delete_words", ArgInt 3), EmptyString) /\
  exists len' t' es,
    execute_command 5 ("delete_words", ArgInt 3) (mk_typer true None [])
    = Some (true, len', t') /\
    extends (mk_typer true None []) t' es.
Proof.
  split; [reflexivity|].
  exact (detected_commands_execute "Delete the last 3 words."
           ("delete_words", ArgInt 3) EmptyString 5 (mk_typer true None [])
           eq_refl).
Defined.

End Execution.

(* ===================================================================== *)
(** * Voice commands and capitalisation                                  *)
(* ===================================================================== *)

Section Capitalisation.

Import Re VoiceCommandProcessor CaseSpec.

Lemma isdecimal_lower_char (c : ascii) :
  Py.isdecimal (Py.lower_char c) = Py.isdecimal c.
Proof. destruct c as [[] [] [] [] [] [] [] []]; reflexivity. Qed.

Lemma isword_lower_char (c : ascii) :
  Py.isword (Py.lower_char c) = Py.isword c.
Proof. destruct c as [[] [] [] [] [] [] [] []]; reflexivity. Qed.

Lemma newline_lower_char (c : ascii) :
  Ascii.eqb (Py.lower_char c) newline = Ascii.eqb c newline.
Proof. destruct c as [[] [] [] [] [] [] [] []]; reflexivity. Qed.

Lemma same_letter_lower_char (c x : ascii) :
  same_letter c (Py.lower_char x) = same_letter c x.
Proof. unfold same_letter. now rewrite lower_char_idemp. Qed.

Lemma length_lower (s : string) : String.length (Py.lower s) = String.length s.
Proof. induction s as [|c s IH]; cbn; [reflexivity|]. now rewrite IH. Qed.

Lemma at_eol_lower (s : string) : at_eol (Py.lower s) = at_eol s.
Proof.
  destruct s as [|c [|c' s]]; cbn; [reflexivity| |reflexivity].
  apply newline_lower_char.
Qed.

Lemma at_boundary_lower (st : mstate) :
  at_boundary (lower_state st) = at_boundary st.
Proof.
  unfold at_boundary, lower_state; cbn.
  destruct (prev st) as [p|], (rest st) as [|c s]; cbn;
    rewrite ?isword_lower_char; reflexivity.
Qed.

Lemma substring_lower (n m : nat) (s : string) :
  substring n m (Py.lower s) = Py.lower (substring n m s).
Proof.
  revert n m. induction s as [|c s IH]; intros n m.
  - destruct n, m; reflexivity.
  - destruct n as [|n]; cbn.
    + destruct m as [|m]; cbn; [reflexivity|]. now rewrite IH.
    + apply IH.
Qed.

Lemma eat_lower {A B} (f : A -> B) (p : ascii -> bool) (st : mstate)
    (k : mstate -> option A) (k' : mstate -> option B) :
  (forall c, p (Py.lower_char c) = p c) ->
  (forall st1, k' (lower_state st1) = f <$> k st1) ->
  eat p (lower_state st) k' = f <$> eat p st k.
Proof.
  intros Hp Hk. unfold eat. cbn [rest lower_state].
  destruct (rest st) as [|c s]; cbn [Py.lower]; [reflexivity|].
  rewrite Hp. destruct (p c); [|reflexivity].
  apply (Hk {| prev := Some c; rest := s; group1 := group1 st |}).
Qed.

(** Matching the lower-cased subject goes the way matching the subject
    goes, position by position. *)
Lemma rmatch_lower {A B} (f : A -> B) (r : regex) :
  forall (st : mstate) (k : mstate -> option A) (k' : mstate -> option B),
    (forall st1, k' (lower_state st1) = f <$> k st1) ->
    rmatch r (lower_state st) k' = f <$> rmatch r st k.
Proof.
  induction r as [c| | | | | | |r1 IH1 r2 IH2|r1 IH1 r2 IH2|r1 IH1|r1 IH1|r1 IH1];
    intros st k k' Hk; cbn [rmatch].
  - apply eat_lower; [apply same_letter_lower_char|exact Hk].
  - apply eat_lower; [apply isspace_lower_char|exact Hk].
  - apply eat_lower; [apply isdecimal_lower_char|exact Hk].
  - cbn [prev lower_state]. destruct (prev st); cbn; [reflexivity|apply Hk].
  - cbn [rest lower_state]. rewrite at_eol_lower.
    destruct (at_eol (rest st)); [apply Hk|reflexivity].
  - rewrite at_boundary_lower.
    destruct (at_boundary st); [apply Hk|reflexivity].
  - apply Hk.
  - apply IH1. intros st1. apply IH2, Hk.
  - rewrite (IH1 st k k' Hk), (IH2 st k k' Hk).
    destruct (rmatch r1 st k); reflexivity.
  - rewrite (IH1 st k k' Hk), Hk.
    destruct (rmatch r1 st k); reflexivity.
  - apply IH1. intros st1. cbn [rest lower_state]. rewrite length_lower.
    generalize (String.length (rest st1)). intros fuel. revert st1.
    induction fuel as [|fuel IHf]; intros cur; [apply Hk|].
    match goal with
    | |- _ = f <$> match rmatch r1 cur ?kA with _ => _ end =>
        rewrite (IH1 cur kA)
    end.
    + rewrite Hk.
      match goal with |- context [rmatch r1 cur ?kk] =>
        destruct (rmatch r1 cur kk) end; reflexivity.
    + intros nxt. cbn [rest lower_state]. rewrite !length_lower.
      destruct (String.length (rest nxt) <? String.length (rest cur))%nat;
        [apply IHf|reflexivity].
  - apply IH1. intros st1. cbn [rest lower_state].
    rewrite !length_lower, substring_lower.
    apply (Hk {| prev := prev st1; rest := rest st1;
                 group1 := Some (substring 0 (String.length (rest st)
                                              - String.length (rest st1))
                                           (rest st)) |}).
Qed.

Lemma match_lower (r : regex) (s : string) :
  match_ r (Py.lower s) = lower_state <$> match_ r s.
Proof.
  unfold match_. apply (rmatch_lower lower_state r (start_of s) Some Some).
  reflexivity.
Qed.

Lemma lstrip_by_lower (s : string) :
  Py.lstrip_by Py.isspace (Py.lower s) = Py.lower (Py.lstrip_by Py.isspace s).
Proof.
  induction s as [|c s IH]; cbn; [reflexivity|].
  rewrite isspace_lower_char. destruct (Py.isspace c); [exact IH|reflexivity].
Qed.

Lemma strip_lower (s : string) : Py.strip (Py.lower s) = Py.lower (Py.strip s).
Proof.
  unfold Py.strip, Py.strip_by, Py.rstrip_by.
  now rewrite lstrip_by_lower, <- lower_rev, lstrip_by_lower, lower_rev.
Qed.

Lemma detect_loop_lower rules (text : string) :
  option_map action_of (detect_loop rules (Py.lower text))
  = option_map action_of (detect_loop rules text).
Proof.
  induction rules as [|[[pattern action] a] rules IH]; cbn [detect_loop];
    [reflexivity|].
  rewrite match_lower. destruct (match_ pattern text) as [m|];
    cbn [fmap option_fmap option_map]; [|exact IH].
  cbn [group1 rest lower_state].
  destruct (is_match_placeholder a && (0 <? groups pattern)%nat);
    [|reflexivity].
  destruct (group1 m) as [digits|]; [|reflexivity].
  cbn [fmap option_fmap option_map mbind option_bind].
  unfold Py.int, Py.len. rewrite length_lower.
  destruct (Py.int_max_str_digits <? String.length digits)%nat; reflexivity.
Qed.

(** X22.  Capitalisation does not matter to [detect_command] on ASCII
    text: the text and its lower-cased form are detected as the same
    action, or both as no command, or the call raises on both. *)
Theorem detect_command_ignores_case (text : string) :
  isascii text = true ->
  detected_action (Py.lower text) = detected_action text.
Proof.
  intros _. unfold detected_action, detect_command.
  rewrite strip_lower. apply detect_loop_lower.
Qed.

Lemma detect_command_ignores_case_witness :
  isascii "New LINE." = true /\
  detected_action (Py.lower "New LINE.") = detected_action "New LINE." /\
  Py.lower "New LINE." = "new line." /\
  detected_action "New LINE." = Some (Some "newline").
Proof.
  split; [reflexivity|].
  split; [exact (detect_command_ignores_case "New LINE." eq_refl)|].
  split; vm_compute; reflexivity.
Defined.

End Capitalisation.

(* ===================================================================== *)
(** * The overlay: flags, the live pipeline and the retry of recordings  *)
(* ===================================================================== *)

Section OverlayFacts.

Import OverlayWindow OverlaySpec.

Context {C : Type}.
Variable io : @collaborators C.
Variable settings : Settings.

Lemma frame_refl (w : @overlay C) : frame w w.
Proof. repeat split. Qed.

Lemma frame_trans (w1 w2 w3 : @overlay C) :
  frame w1 w2 -> frame w2 w3 -> frame w1 w3.
Proof. unfold frame. intuition congruence. Qed.

Lemma untouched_refl (w : @overlay C) : untouched w w.
Proof. repeat split. Qed.

Lemma untouched_trans (w1 w2 w3 : @overlay C) :
  untouched w1 w2 -> untouched w2 w3 -> untouched w1 w3.
Proof. unfold untouched, frame. intuition congruence. Qed.

Lemma untouched_with_ext (w : @overlay C) c : untouched w (with_ext w c).
Proof. repeat split. Qed.

Lemma untouched_with_typer (w : @overlay C) t : untouched w (with_typer w t).
Proof. repeat split. Qed.

Lemma untouched_call {A} (f : C -> option A * C) (w : overlay) :
  untouched w (snd (call f w)).
Proof. unfold call. destruct (f (ext w)). apply untouched_with_ext. Qed.

Lemma untouched_read {A} (f : C -> A * C) (w : overlay) :
  untouched w (snd (read f w)).
Proof. unfold read. destruct (f (ext w)). apply untouched_with_ext. Qed.

Lemma untouched_ret {A} (a : A) (w : @overlay C) : untouched w (snd (ret a w)).
Proof. apply untouched_refl. Qed.

Lemma untouched_bind {A B} (m : M A) (k : A -> M B) (w : @overlay C) :
  (forall w, untouched w (snd (m w))) ->
  (forall a w, untouched w (snd (k a w))) ->
  untouched w (snd (bind m k w)).
Proof.
  intros Hm Hk. unfold bind. specialize (Hm w).
  destruct (m w) as [[a|] w1]; [|exact Hm].
  eapply untouched_trans; [exact Hm|apply Hk].
Qed.

Lemma settles_untouched r (w w1 : @overlay C) e :
  untouched w w1 -> settles r w1 e -> settles r w e.
Proof.
  intros Hu [[He Hs]|[He (Hq & (row & Hrow & Hf) & Hfr)]]; [left|right];
    (split; [exact He|]).
  - eapply untouched_trans; eauto.
  - destruct Hu as (Uq & Us & Uf). split; [|split].
    + now rewrite Hq, Uq.
    + exists row. split; [now rewrite Hrow, Us|exact Hf].
    + eapply frame_trans; eauto.
Qed.

Lemma settles_bind {A} r (m : M A) (k : A -> M unit) (w : @overlay C) :
  (forall w, untouched w (snd (m w))) ->
  (forall a w, settles r w (k a w)) ->
  settles r w (bind m k w).
Proof.
  intros Hm Hk. unfold bind. specialize (Hm w).
  destruct (m w) as [[a|] w1]; cbn [snd] in Hm.
  - eapply settles_untouched; [exact Hm|apply Hk].
  - left. split; [reflexivity|exact Hm].
Qed.

Lemma record_then_mark_settles r raw edited b n p (w : @overlay C) :
  AudioQueue.app_bundle_id r = b -> AudioQueue.app_name r = n ->
  AudioQueue.preset r = Some p ->
  settles r w
    (bind (record io raw edited b n p) (fun _ => mark_completed r) w).
Proof.
  intros Hb Hn Hp. right. unfold record, read, mark_completed.
  unfold bind. cbv beta.
  destruct (elapsed io (ext w)) as [duration c1]. cbn [ext with_ext].
  destruct (now io c1) as [t c2]. cbn.
  split; [reflexivity|]. split; [reflexivity|]. split; [|repeat split].
  eexists. split; [reflexivity|]. unfold filed_as; cbn. auto.
Qed.

Lemma edit_and_type_settles r raw text b n p (w : @overlay C) :
  AudioQueue.app_bundle_id r = b -> AudioQueue.app_name r = n ->
  AudioQueue.preset r = Some p ->
  settles r w (edit_and_type io settings r raw text b n p w).
Proof.
  intros Hb Hn Hp. unfold edit_and_type.
  apply settles_bind.
  { intros w0. destruct (ai_editor_enabled settings);
      [apply untouched_call|apply untouched_ret]. }
  intros text1 w1. apply settles_bind.
  { intros w0. destruct (snippets_enabled settings); [|apply untouched_ret].
    apply untouched_bind; [apply untouched_call|intros; apply untouched_ret]. }
  intros text2 w2. apply settles_bind.
  { intros w0. apply untouched_with_typer. }
  intros _ w3. apply settles_bind.
  { intros w0. apply untouched_read. }
  intros _ w4. apply settles_bind.
  { intros w0.
    destruct (dictionary_auto_learn settings && negb (String.eqb text2 raw));
      [apply untouched_call|apply untouched_ret]. }
  intros _ w5. now apply record_then_mark_settles.
Qed.

Lemma bind_eq {A B} (m : M A) (k : A -> M B) (w : @overlay C) :
  bind m k w = match m w with
               | (Some a, w') => k a w'
               | (None, w') => (None, w')
               end.
Proof. reflexivity. Qed.

Lemma save_effect audio b n p (w : @overlay C) :
  exists t mtime w1,
    save io audio b n p w
    = (Some (fst (AudioQueue.save_recording (audio_queue w) t mtime audio
                    b n (Some p))), w1) /\
    audio_queue w1
    = snd (AudioQueue.save_recording (audio_queue w) t mtime audio
             b n (Some p)) /\
    stats_db w1 = stats_db w /\ frame w w1.
Proof.
  unfold save, read. unfold bind. cbv beta.
  destruct (now io (ext w)) as [t c1]. cbn [ext with_ext].
  destruct (stamp io c1) as [mtime c2]. cbn [ext with_ext audio_queue].
  exists t, mtime. eexists. split; [reflexivity|]. repeat split.
Qed.

(** The queue and the history after the body of [_process_recording]:
    nothing was recorded, or the recording was saved and is either
    kept or completed. *)
Lemma try_body_effect b n p (w : @overlay C) :
  let w' := snd (try_body io settings b n p w) in
  untouched w w' \/
  exists t mtime audio,
    audio <> [] /\
    let r := fst (AudioQueue.save_recording (audio_queue w) t mtime audio
                                             b n (Some p)) in
    let d := snd (AudioQueue.save_recording (audio_queue w) t mtime audio
                                             b n (Some p)) in
    frame w w' /\
    ((audio_queue w' = d /\ stats_db w' = stats_db w) \/
     (audio_queue w' = AudioQueue.mark_completed d r /\
      exists row,
        TranscriptionDB.transcriptions (stats_db w')
        = (TranscriptionDB.transcriptions (stats_db w) ++ [row])%list /\
        filed_as r row)).
Proof.
  cbn zeta. unfold try_body. rewrite bind_eq.
  pose proof (untouched_call (recorder_stop io) w) as H0.
  destruct (call (recorder_stop io) w) as [[audio|] w0]; cbn [snd] in H0;
    [|left; exact H0].
  destruct audio as [|x audio]; [left; exact H0|].
  right. set (au := x :: audio). rewrite bind_eq.
  destruct (save_effect au b n p w0) as (t & mtime & w1 & -> & Hq1 & Hs1 & Hf1).
  destruct H0 as (Uq0 & Us0 & Uf0). rewrite Uq0 in Hq1 |- *.
  rewrite Us0 in Hs1.
  pose proof (frame_trans _ _ _ Uf0 Hf1) as Hf.
  exists t, mtime, au. split; [discriminate|].
  set (sv := AudioQueue.save_recording (audio_queue w) t mtime au b n (Some p))
    in *.
  assert (Hr : AudioQueue.app_bundle_id (fst sv) = b /\
               AudioQueue.app_name (fst sv) = n /\
               AudioQueue.preset (fst sv) = Some p) by (repeat split).
  destruct Hr as (Hb & Hn & Hp).
  assert (Hsettle : forall e, settles (fst sv) w1 e ->
    frame w (snd e) /\
    ((audio_queue (snd e) = snd sv /\ stats_db (snd e) = stats_db w) \/
     (audio_queue (snd e) = AudioQueue.mark_completed (snd sv) (fst sv) /\
      exists row,
        TranscriptionDB.transcriptions (stats_db (snd e))
        = (TranscriptionDB.transcriptions (stats_db w) ++ [row])%list /\
        filed_as (fst sv) row))).
  { intros e [[_ (Uq & Us & Uf)]|[_ (Hq & (row & Hrow & Hfa) & Hfr)]].
    - split; [eapply frame_trans; eauto|]. left.
      split; congruence.
    - split; [eapply frame_trans; eauto|]. right.
      split; [congruence|]. exists row. split; [congruence|exact Hfa]. }
  assert (Hkept : forall w2, untouched w1 w2 ->
    frame w w2 /\
    ((audio_queue w2 = snd sv /\ stats_db w2 = stats_db w) \/
     (audio_queue w2 = AudioQueue.mark_completed (snd sv) (fst sv) /\
      exists row,
        TranscriptionDB.transcriptions (stats_db w2)
        = (TranscriptionDB.transcriptions (stats_db w) ++ [row])%list /\
        filed_as (fst sv) row))).
  { intros w2 (Uq & Us & Uf). split; [eapply frame_trans; eauto|].
    left. split; congruence. }
  rewrite bind_eq.
  pose proof (untouched_call (transcribe io au) w1) as Ht.
  destruct (call (transcribe io au) w1) as [[text|] w2]; cbn [snd] in Ht;
    [|apply Hkept, Ht].
  destruct text as [|ch text]; [apply Hkept, Ht|].
  set (raw := String ch text).
  apply Hsettle. eapply settles_untouched; [exact Ht|].
  apply settles_bind.
  { intros w0'. destruct (dictionary_enabled settings);
      [apply untouched_call|apply untouched_ret]. }
  intros text1 w3.
  destruct (voice_commands_enabled settings);
    [|now apply edit_and_type_settles].
  apply settles_bind; [intros w0'; apply untouched_call|].
  intros [[command|] remaining] w4; [|now apply edit_and_type_settles].
  apply settles_bind.
  { intros w0'. destruct (execute_command io command (typer w0') (ext w0'))
      as [[t'|] c']; cbn [snd].
    - eapply untouched_trans;
        [apply untouched_with_ext|apply untouched_with_typer].
    - apply untouched_with_ext. }
  intros _ w5. destruct remaining as [|ch' remaining].
  - now apply record_then_mark_settles.
  - now apply edit_and_type_settles.
Qed.

Lemma try_body_frame b n p (w : @overlay C) :
  frame w (snd (try_body io settings b n p w)).
Proof.
  destruct (try_body_effect b n p w) as [(_ & _ & Hf)|(t & m & a & _ & Hf & _)];
    exact Hf.
Qed.

Lemma consistent_handle (w : overlay) (e : event) :
  consistent w -> consistent (handle io settings w e).
Proof.
  unfold consistent. intros [Hx Hp].
  destruct e; cbn [handle].
  - unfold _on_click, _on_deactivate, _on_activate.
    destruct (_is_processing w) eqn:Ep; [rewrite Ep; auto|].
    destruct (_is_recording w) eqn:Er; cbn [negb orb].
    + cbn. rewrite Hp. auto.
    + destruct (app_context_enabled settings);
        [destruct (frontmost_app io (ext w)) as [[b n] c]|];
        destruct (recorder_start io _); cbn; rewrite ?Ep; auto.
  - unfold _on_activate.
    destruct (_is_processing w) eqn:Ep; cbn [orb]; [rewrite Ep; auto|].
    destruct (_is_recording w) eqn:Er; [rewrite Er, Ep; auto|].
    destruct (app_context_enabled settings);
      [destruct (frontmost_app io (ext w)) as [[b n] c]|];
      destruct (recorder_start io _); cbn; rewrite ?Ep; auto.
  - unfold _on_deactivate.
    destruct (_is_recording w) eqn:Er; cbn [negb]; [|rewrite Er; auto].
    cbn. cbn in Hx. rewrite Hx in Hp. rewrite Hp. auto.
  - destruct (pipelines w) as [|k] eqn:En; [rewrite En; auto|].
    destruct (_is_processing w) eqn:Ep; [|discriminate].
    unfold _process_recording.
    match goal with |- context [try_body ?i ?s ?a ?b ?c ?w] =>
      pose proof (try_body_frame a b c w) as Hf;
      destruct (try_body i s a b c w) as [res w1] end.
    cbn [snd] in Hf. destruct Hf as (F1 & F2 & F3 & F4).
    cbn. rewrite andb_false_r, F4, En. injection Hp as ->. auto.
Qed.

(** One call of [_process_pending_recording]: it does not raise; it
    fails without touching the history, or succeeds with at most one
    new row, filed under the recording. *)
Lemma pending_call (r : AudioQueue.PendingRecording) audio db (c : C) :
  let o := fst (_process_pending_recording io settings r audio (db, c)) in
  let db' := fst (snd (_process_pending_recording io settings r audio (db, c))) in
  (o = AudioQueue.Failure /\ db' = db) \/
  (o = AudioQueue.Success /\
   (db' = db \/
    exists row,
      TranscriptionDB.transcriptions db'
      = (TranscriptionDB.transcriptions db ++ [row])%list /\
      row_of settings r row)).
Proof.
  cbn zeta. unfold _process_pending_recording.
  destruct (transcribe io audio c) as [[[|ch text]|] c1]; cbn [fst snd];
    [right; auto|
    |left; auto].
  destruct (if dictionary_enabled settings
            then dictionary_apply io (String ch text) c1
            else (Some (String ch text), c1)) as [[text1|] c2];
    cbn [fst snd]; [|left; auto].
  destruct (if ai_editor_enabled settings
            then edit io text1
                   (Py.or_else (AudioQueue.preset r)
                               (ai_editor_preset settings)) c2
            else (Some text1, c2)) as [[text2|] c3];
    cbn [fst snd]; [|left; auto].
  destruct (if snippets_enabled settings
            then expand io text2 c3 else (Some text2, c3)) as [[text3|] c4];
    cbn [fst snd]; [|left; auto].
  destruct (now io c4) as [t c5]. cbn.
  right. split; [reflexivity|]. right. eexists. split; [reflexivity|].
  unfold row_of; cbn. auto.
Qed.

Lemma sweep_loop_history stop pending i total processed d db (c : C) :
  let w := AudioQueue.sweep_loop (_process_pending_recording io settings)
             None stop pending i total processed d (db, c) in
  AudioQueue.result w
  = AudioQueue.Returned (processed + length (QueueSpec.succeeded (AudioQueue.calls w))) /\
  Forall (fun call => snd call <> AudioQueue.Raises) (AudioQueue.calls w) /\
  exists rows,
    TranscriptionDB.transcriptions (fst (AudioQueue.sw_state w))
    = (TranscriptionDB.transcriptions db ++ rows)%list /\
    length rows <= length (QueueSpec.succeeded (AudioQueue.calls w)) /\
    Forall (fun row => exists r, (r, AudioQueue.Success) ∈ AudioQueue.calls w /\
                                 row_of settings r row) rows.
Proof.
  cbn zeta. revert i processed d db c.
  induction pending as [|r pending IH]; intros i processed d db c;
    cbn [AudioQueue.sweep_loop].
  - cbn. split; [f_equal; lia|]. split; [constructor|].
    exists []. rewrite app_nil_r. split; [reflexivity|]. split; [cbn [length]; lia|constructor].
  - destruct (stop i).
    + cbn. split; [f_equal; lia|]. split; [constructor|].
      exists []. rewrite app_nil_r. split; [reflexivity|].
      split; [cbn [length]; lia|constructor].
    + unfold AudioQueue.process_item.
      destruct (AudioQueue.wavs d !! AudioQueue.id r) as [audio|].
      * pose proof (pending_call r audio db c) as Hcall. cbn zeta in Hcall.
        destruct (_process_pending_recording io settings r audio (db, c))
          as [o [db1 c1]]. cbn [fst snd] in Hcall.
        destruct o;
          match goal with
          | |- context [AudioQueue.sweep_loop _ _ _ _ _ _ ?p ?d' (db1, c1)] =>
              destruct (IH (S i) p d' db1 c1) as (Hres & Hnr & rows & Hrows & Hlen & Hattr)
          end; cbn [AudioQueue.result AudioQueue.calls AudioQueue.sw_state app].
        -- rewrite succeeded_cons_success. cbn [length app].
           split; [rewrite Hres; f_equal; lia|].
           split; [constructor; [discriminate|exact Hnr]|].
           destruct Hcall as [[? _]|[_ [->|(row & Hrow & Hro)]]];
             [discriminate| |].
           ++ exists rows. split; [exact Hrows|]. split; [lia|].
              eapply Forall_impl; [exact Hattr|].
              intros row (r' & Hin & Hr'). exists r'. split; [now right|exact Hr'].
           ++ exists (row :: rows). rewrite Hrows, Hrow, <- app_assoc.
              split; [reflexivity|]. split; [cbn; lia|].
              constructor; [exists r; split; [left|exact Hro]|].
              eapply Forall_impl; [exact Hattr|].
              intros row' (r' & Hin & Hr'). exists r'.
              split; [now right|exact Hr'].
        -- rewrite succeeded_cons_other by discriminate. cbn [app].
           destruct Hcall as [[_ ->]|[? _]]; [|discriminate].
           split; [rewrite Hres; f_equal; lia|].
           split; [constructor; [discriminate|exact Hnr]|].
           exists rows. split; [exact Hrows|]. split; [lia|].
           eapply Forall_impl; [exact Hattr|].
           intros row (r' & Hin & Hr'). exists r'. split; [now right|exact Hr'].
        -- destruct Hcall as [[? _]|[? _]]; discriminate.
      * destruct (IH (S i) (processed + 0) d db c)
          as (Hres & Hnr & rows & Hrows & Hlen & Hattr).
        cbn [AudioQueue.result AudioQueue.calls AudioQueue.sw_state app].
        split; [rewrite Hres; f_equal; lia|]. split; [exact Hnr|].
        exists rows. auto.
Qed.

End OverlayFacts.

Section OverlayProperties.

Import OverlayWindow OverlaySpec.

Context {C : Type}.
Variable io : @collaborators C.
Variable settings : Settings.

(** X23.  Under any sequence of clicks, hotkey presses and releases and
    pipeline runs, each handled to its end before the next, the
    overlay is never recording and processing at once, and a pipeline
    thread exists exactly while it is processing: at most one at a
    time. *)
Theorem overlay_single_pipeline (w : overlay) (es : list event) :
  consistent w -> consistent (run io settings w es).
Proof.
  unfold run. revert w. induction es as [|e es IH]; intros w Hw; [exact Hw|].
  cbn [foldl]. apply IH. now apply consistent_handle.
Qed.

(** X24.  [_process_recording] never takes a recording out of the queue
    without a history row for it, whatever the collaborators do: it
    leaves queue and history alone (no audio, or the recorder raised),
    or it saves the recording and then either keeps it stored with
    its audio, adding no row, or removes it after adding exactly one
    row filed under the recording's application and preset.  The flag
    [_is_processing] is cleared on every path. *)
Theorem process_recording_keeps_or_completes (w : overlay) :
  let w' := _process_recording io settings w in
  _is_processing w' = false /\
  ((audio_queue w' = audio_queue w /\ stats_db w' = stats_db w) \/
   exists t mtime audio,
     audio <> [] /\
     let r := fst (AudioQueue.save_recording (audio_queue w) t mtime audio
                     (filed_bundle_id w) (filed_name w)
                     (Some (filed_preset settings w))) in
     let d := snd (AudioQueue.save_recording (audio_queue w) t mtime audio
                     (filed_bundle_id w) (filed_name w)
                     (Some (filed_preset settings w))) in
     (audio_queue w' = d /\ stats_db w' = stats_db w /\
      QueueSpec.stored (audio_queue w') r audio) \/
     (audio_queue w' = AudioQueue.mark_completed d r /\
      exists row,
        TranscriptionDB.transcriptions (stats_db w')
        = (TranscriptionDB.transcriptions (stats_db w) ++ [row])%list /\
        filed_as r row)).
Proof.
  cbn zeta. unfold _process_recording.
  fold (filed_bundle_id w). fold (filed_name w).
  fold (filed_preset settings w).
  pose proof (try_body_effect io settings (filed_bundle_id w) (filed_name w)
                (filed_preset settings w) w) as H.
  cbn zeta in H.
  destruct (try_body io settings (filed_bundle_id w) (filed_name w)
              (filed_preset settings w) w) as [res w1].
  cbn [snd] in H. cbn [_is_processing audio_queue stats_db].
  split; [reflexivity|].
  destruct H as [(Uq & Us & _)|(t & mtime & audio & Hne & _ & Hcases)];
    [left; auto|].
  right. exists t, mtime, audio. split; [exact Hne|].
  destruct Hcases as [[Hq Hs]|Hdone]; [left|right; exact Hdone].
  split; [exact Hq|]. split; [exact Hs|]. rewrite Hq.
  pose proof (save_recording_stored (audio_queue w) t mtime audio
                (filed_bundle_id w) (filed_name w)
                (Some (filed_preset settings w))) as Hst.
  destruct (AudioQueue.save_recording (audio_queue w) t mtime audio
              (filed_bundle_id w) (filed_name w)
              (Some (filed_preset settings w))) as [r d].
  exact (proj1 Hst).
Qed.

(** X25.  The retry of pending recordings through
    [_process_pending_recording] does not raise and writes history
    only for recordings it removes: every row added belongs to a
    recording on which the call returned [True], filed under that
    recording's application and its preset (the default one when it
    has none), and there are no more new rows than recordings
    removed; a recording whose processing fails adds nothing. *)
Theorem pending_sweep_history (stop : nat -> bool) (q : AudioQueue.queue)
    (db : TranscriptionDB.db) (c : C) :
  let w := fst (AudioQueue.process_pending
                  (_process_pending_recording io settings) None stop q
                  (db, c)) in
  AudioQueue.result w
  = AudioQueue.Returned (length (QueueSpec.succeeded (AudioQueue.calls w))) /\
  Forall (fun call => snd call <> AudioQueue.Raises) (AudioQueue.calls w) /\
  exists rows,
    TranscriptionDB.transcriptions (fst (AudioQueue.sw_state w))
    = (TranscriptionDB.transcriptions db ++ rows)%list /\
    length rows <= length (QueueSpec.succeeded (AudioQueue.calls w)) /\
    Forall (fun row => exists r, (r, AudioQueue.Success) ∈ AudioQueue.calls w /\
                                 row_of settings r row) rows.
Proof.
  cbn zeta. unfold AudioQueue.process_pending.
  destruct (AudioQueue.is_processing q); cbn [fst].
  - cbn. split; [reflexivity|]. split; [constructor|].
    exists []. rewrite app_nil_r. split; [reflexivity|].
    split; [cbn [length]; lia|constructor].
  - apply (sweep_loop_history io settings).
Qed.

End OverlayProperties.

Section OverlayExamples.

Import OverlayWindow OverlaySpec.

Lemma overlay_single_pipeline_witness :
  consistent (initial AudioQueue.empty_directory TranscriptionDB.empty_db
                      (TextTyper.mk_typer true None []) tt) /\
  consistent
    (run silent plain_settings
         (initial AudioQueue.empty_directory TranscriptionDB.empty_db
                  (TextTyper.mk_typer true None []) tt)
         [HotkeyDown; Click; HotkeyUp; HotkeyDown; PipelineRuns; Click]).
Proof.
  assert (H : consistent
                (initial AudioQueue.empty_directory TranscriptionDB.empty_db
                         (TextTyper.mk_typer true None []) tt))
    by (split; reflexivity).
  split; [exact H|].
  exact (overlay_single_pipeline silent plain_settings _ _ H).
Defined.

End OverlayExamples.

(* ===================================================================== *)
(** * Application categories                                             *)
(* ===================================================================== *)

Section Categories.

Import AppContextManager.

Lemma member_true (b : option string) (apps : list string) :
  member b apps = true -> exists x, In x apps /\ b = Some x.
Proof.
  unfold member. destruct b as [[|c s]|]; try discriminate.
  intros H. apply existsb_exists in H as (x & Hin & Heq).
  apply String.eqb_eq in Heq. exists x. split; [exact Hin|congruence].
Qed.

Ltac by_table H :=
  apply member_true in H as (x & Hin & ->); cbn [In] in Hin;
  repeat (destruct Hin as [<-|Hin]; [reflexivity|]); destruct Hin.

(** X26.  The three categories exclude each other: no bundle id is a code
    editor and a terminal, a code editor and an email client, or a
    terminal and an email client; a missing or empty bundle id is in
    none of them. *)
Theorem app_categories_exclusive (bundle_id : option string) :
  is_code_editor bundle_id && is_terminal bundle_id = false /\
  is_code_editor bundle_id && is_email_client bundle_id = false /\
  is_terminal bundle_id && is_email_client bundle_id = false /\
  (is_code_editor None || is_terminal None || is_email_client None
   || is_code_editor (Some EmptyString) || is_terminal (Some EmptyString)
   || is_email_client (Some EmptyString)) = false.
Proof.
  split; [|split; [|split; [|reflexivity]]].
  - destruct (is_code_editor bundle_id) eqn:E; [|reflexivity].
    unfold is_code_editor in E. by_table E.
  - destruct (is_code_editor bundle_id) eqn:E; [|reflexivity].
    unfold is_code_editor in E. by_table E.
  - destruct (is_terminal bundle_id) eqn:E; [|reflexivity].
    unfold is_terminal in E. by_table E.
Qed.

End Categories.
